(** * llama-zip: the predictive arithmetic coder of [llama_zip.py]

    A shallow embedding of the arithmetic coder ([ArithmeticCoderBase],
    [Encoder], [Decoder]), of the bit packing of [LlamaZip.compress] and
    [LlamaZip.decompress], of the predictive loops and of the overlap and
    interactive dispatch of [main], followed by the properties proved
    about them.

    Python integers are unbounded, so [low], [high] and [code] are [Z] and
    the masks of the source are written out.  Exceptions are values of
    [result].  A [while] loop is run with a fuel; running out of it is the
    error [OutOfFuel], and the lemmas show that 64 units are always
    enough for the loops of [update]. *)

From Stdlib Require Import ZArith QArith List Lia Bool String Ascii
  DecimalString.
Import ListNotations.
Local Open Scope Z_scope.

(** ** Results and exceptions *)

Inductive error : Type :=
| IndexError
| ZeroDivisionError
| ValueError
| ContextOverflow
| OutOfFuel.

Inductive result (A : Type) : Type :=
| Ok (a : A)
| Raise (e : error).

Arguments Ok {A} a.
Arguments Raise {A} e.

Definition bind {A B : Type} (r : result A) (k : A -> result B) : result B :=
  match r with
  | Ok a => k a
  | Raise e => Raise e
  end.

Notation "x <- r ;; k" := (bind r (fun x => k))
  (at level 61, r at next level, right associativity).

(** [while cond: body] with a bound on the number of iterations. *)
Fixpoint while_loop {St : Type} (fuel : nat) (cond : St -> bool) (body : St -> St)
  (s : St) : result St :=
  if cond s then
    match fuel with
    | O => Raise OutOfFuel
    | S f => while_loop f cond body (body s)
    end
  else Ok s.

(** ** Module constants *)

Definition NUM_STATE_BITS : Z := 64.
Definition FREQ_SCALE_FACTOR : Z := Z.shiftl 1 32.

(** The attributes set once by [ArithmeticCoderBase.__init__]. *)
Definition full_range : Z := Z.shiftl 1 NUM_STATE_BITS.
Definition half_range : Z := Z.shiftr full_range 1.
Definition quarter_range : Z := Z.shiftr half_range 1.
Definition state_mask : Z := full_range - 1.

(** ** ArithmeticCoderBase *)

(** The base class: the two state words and the two abstract hooks. *)
Class ArithmeticCoderBase (St : Type) : Type := {
  low : St -> Z;
  high : St -> Z;
  set_low : Z -> St -> St;
  set_high : Z -> St -> St;
  shift : St -> St;
  underflow : St -> St
}.

(** [seq[i]], raising [IndexError] out of range. *)
Definition index (l : list Z) (i : nat) : result Z :=
  match nth_error l i with
  | Some x => Ok x
  | None => Raise IndexError
  end.

(** [seq[-1]]. *)
Definition last_item (l : list Z) : result Z :=
  match l with
  | [] => Raise IndexError
  | _ => Ok (last l 0)
  end.

Section Update.
Context {St : Type} `{ArithmeticCoderBase St}.

(** [((self.low ^ self.high) & self.half_range) == 0] *)
Definition shift_cond (self : St) : bool :=
  Z.land (Z.lxor (low self) (high self)) half_range =? 0.

Definition shift_body (self : St) : St :=
  let self := shift self in
  let self := set_low (Z.land (Z.shiftl (low self) 1) state_mask) self in
  set_high (Z.lor (Z.land (Z.shiftl (high self) 1) state_mask) 1) self.

(** [(self.low & ~self.high & self.quarter_range) != 0] *)
Definition underflow_cond (self : St) : bool :=
  negb (Z.land (Z.land (low self) (Z.lnot (high self))) quarter_range =? 0).

Definition underflow_body (self : St) : St :=
  let self := underflow self in
  let self := set_low (Z.lxor (Z.shiftl (low self) 1) half_range) self in
  set_high
    (Z.lor (Z.lor (Z.shiftl (Z.lxor (high self) half_range) 1) half_range) 1)
    self.

(** The first four assignments of [update]: the interval of [symbol]. *)
Definition narrow (cum_freqs : list Z) (symbol : nat) (self : St) : result St :=
  total <- last_item cum_freqs ;;
  let range := high self - low self + 1 in
  symhigh <- index cum_freqs symbol ;;
  if total =? 0 then Raise ZeroDivisionError else
  let self' := set_high (low self + symhigh * range / total - 1) self in
  symlow <- (match symbol with
             | O => Ok 0
             | S p => index cum_freqs p
             end) ;;
  Ok (set_low (low self' + symlow * range / total) self').

Definition update (fuel : nat) (cum_freqs : list Z) (symbol : nat) (self : St)
  : result St :=
  self <- narrow cum_freqs symbol self ;;
  self <- while_loop fuel shift_cond shift_body self ;;
  while_loop fuel underflow_cond underflow_body self.

(** The second loop as section 4.1 of the specification words it: both
    words are XORed with HALF, shifted, and masked to 64 bits. *)
Definition spec_underflow_body (self : St) : St :=
  let self := underflow self in
  let self :=
    set_low (Z.land (Z.shiftl (Z.lxor (low self) half_range) 1) state_mask)
      self in
  set_high
    (Z.land (Z.lor (Z.shiftl (Z.lxor (high self) half_range) 1) 1) state_mask)
    self.

Definition spec_update (fuel : nat) (cum_freqs : list Z) (symbol : nat)
  (self : St) : result St :=
  self <- narrow cum_freqs symbol self ;;
  self <- while_loop fuel shift_cond shift_body self ;;
  while_loop fuel underflow_cond spec_underflow_body self.

End Update.

(** ** Encoder *)

Record Encoder : Type := mkEncoder {
  enc_low : Z;
  enc_high : Z;
  encoded_data : list Z;
  num_underflow : nat
}.

(** [Encoder.__init__] *)
Definition Encoder_init : Encoder :=
  mkEncoder 0 state_mask [] 0.

Definition Encoder_shift (self : Encoder) : Encoder :=
  let bit := Z.shiftr (enc_low self) (NUM_STATE_BITS - 1) in
  mkEncoder (enc_low self) (enc_high self)
    ((encoded_data self ++ [bit]) ++ repeat (Z.lxor bit 1) (num_underflow self))
    0.

Definition Encoder_underflow (self : Encoder) : Encoder :=
  mkEncoder (enc_low self) (enc_high self) (encoded_data self)
    (S (num_underflow self)).

#[export] Instance Encoder_coder : ArithmeticCoderBase Encoder := {
  low := enc_low;
  high := enc_high;
  set_low := fun z e => mkEncoder z (enc_high e) (encoded_data e) (num_underflow e);
  set_high := fun z e => mkEncoder (enc_low e) z (encoded_data e) (num_underflow e);
  shift := Encoder_shift;
  underflow := Encoder_underflow
}.

Definition encode_symbol (fuel : nat) (cum_freqs : list Z) (symbol : nat)
  (self : Encoder) : result Encoder :=
  update fuel cum_freqs symbol self.

Definition finish (self : Encoder) : Encoder :=
  mkEncoder (enc_low self) (enc_high self) (encoded_data self ++ [1])
    (num_underflow self).

Definition get_encoded (self : Encoder) : list Z := encoded_data self.

(** ** Decoder *)

Record Decoder : Type := mkDecoder {
  dec_low : Z;
  dec_high : Z;
  input : list Z;
  code : Z
}.

(** [read_code_bit]: the bit read and the deque left. *)
Definition read_code_bit (inp : list Z) : Z * list Z :=
  match inp with
  | [] => (0, [])
  | b :: rest => (b, rest)
  end.

(** [sum(self.read_code_bit() << i for i in range(n - 1, -1, -1))],
    started from the partial sum [acc]. *)
Fixpoint read_code (n : nat) (inp : list Z) (acc : Z) : Z * list Z :=
  match n with
  | O => (acc, inp)
  | S i =>
      let (b, rest) := read_code_bit inp in
      read_code i rest (acc + Z.shiftl b (Z.of_nat i))
  end.

(** [Decoder.__init__] *)
Definition Decoder_init (encoded_data : list Z) : Decoder :=
  let (c, rest) := read_code (Z.to_nat NUM_STATE_BITS) encoded_data 0 in
  mkDecoder 0 state_mask rest c.

Definition Decoder_shift (self : Decoder) : Decoder :=
  let (b, rest) := read_code_bit (input self) in
  mkDecoder (dec_low self) (dec_high self) rest
    (Z.lor (Z.land (Z.shiftl (code self) 1) state_mask) b).

Definition Decoder_underflow (self : Decoder) : Decoder :=
  let (b, rest) := read_code_bit (input self) in
  mkDecoder (dec_low self) (dec_high self) rest
    (Z.lor
       (Z.lor (Z.land (code self) half_range)
          (Z.land (Z.shiftl (code self) 1) (Z.shiftr state_mask 1)))
       b).

#[export] Instance Decoder_coder : ArithmeticCoderBase Decoder := {
  low := dec_low;
  high := dec_high;
  set_low := fun z d => mkDecoder z (dec_high d) (input d) (code d);
  set_high := fun z d => mkDecoder (dec_low d) z (input d) (code d);
  shift := Decoder_shift;
  underflow := Decoder_underflow
}.

(** [np.searchsorted(cum_freqs, value, side="right")] on a sorted table:
    the first index whose entry exceeds [value], the length when there is
    none. *)
Fixpoint searchsorted_right (cum_freqs : list Z) (value : Z) : nat :=
  match cum_freqs with
  | [] => O
  | c :: rest =>
      if value <? c then O else S (searchsorted_right rest value)
  end.

Definition decode_symbol (fuel : nat) (cum_freqs : list Z) (self : Decoder)
  : result (nat * Decoder) :=
  total <- last_item cum_freqs ;;
  let range := dec_high self - dec_low self + 1 in
  let offset := code self - dec_low self in
  if range =? 0 then Raise ZeroDivisionError else
  let value := ((offset + 1) * total - 1) / range in
  let symbol := searchsorted_right cum_freqs value in
  self <- update fuel cum_freqs symbol self ;;
  Ok (symbol, self).

(** ** Predicates used by the statements *)

(** What the two subclasses keep of the base class: the hooks leave [low]
    and [high] alone, and the two words are independent attributes. *)
Record coder_laws (St : Type) `{ArithmeticCoderBase St} : Prop := {
  low_set_low : forall z s, low (set_low z s) = z;
  high_set_low : forall z s, high (set_low z s) = high s;
  low_set_high : forall z s, low (set_high z s) = low s;
  high_set_high : forall z s, high (set_high z s) = z;
  low_shift : forall s, low (shift s) = low s;
  high_shift : forall s, high (shift s) = high s;
  low_underflow : forall s, low (underflow s) = low s;
  high_underflow : forall s, high (underflow s) = high s
}.

(** The state between two calls of [update]: the top bits of [low] and
    [high] are 0 and 1, and the second bits are not 1 and 0. *)
Definition normalized (lo hi : Z) : Prop :=
  0 <= lo < half_range /\ half_range <= hi < full_range /\
  (lo < quarter_range \/ half_range + quarter_range <= hi).

(** A frequency table as section 3 of the specification has it: not empty,
    strictly increasing from a positive first entry, total at most
    [limit]. *)
Fixpoint increasing_from (prev : Z) (cum_freqs : list Z) : Prop :=
  match cum_freqs with
  | [] => True
  | c :: rest => prev < c /\ increasing_from c rest
  end.

Definition valid_cdf (cum_freqs : list Z) : Prop :=
  cum_freqs <> [] /\ increasing_from 0 cum_freqs /\
  last cum_freqs 0 <= quarter_range.

Definition valid_pair (p : list Z * nat) : Prop :=
  valid_cdf (fst p) /\ (snd p < List.length (fst p))%nat.

(** In the first loop of [update], [low <= high] are two 64-bit words. *)
Definition ordered {St : Type} `{ArithmeticCoderBase St} (s : St) : Prop :=
  0 <= low s /\ low s <= high s /\ high s < 2 ^ 64.

(** In the second loop their top bits are 0 and 1. *)
Definition straddling {St : Type} `{ArithmeticCoderBase St} (s : St) : Prop :=
  0 <= low s < 2 ^ 63 /\ 2 ^ 63 <= high s < 2 ^ 64.

(** The bounds [cum_freqs[symbol - 1]] (0 for the first symbol) and
    [cum_freqs[symbol]] of the interval of a symbol. *)
Definition sym_low (cum_freqs : list Z) (symbol : nat) : Z :=
  match symbol with
  | O => 0
  | S p => nth p cum_freqs 0
  end.

Definition sym_high (cum_freqs : list Z) (symbol : nat) : Z :=
  nth symbol cum_freqs 0.

(** [update] on every pair of a list, in order. *)
Fixpoint update_all {St : Type} `{ArithmeticCoderBase St} (fuel : nat)
  (pairs : list (list Z * nat)) (self : St) : result St :=
  match pairs with
  | [] => Ok self
  | (cum_freqs, symbol) :: rest =>
      self <- update fuel cum_freqs symbol self ;;
      update_all fuel rest self
  end.

(** *** Bit streams *)

Definition is_bit (b : Z) : Prop := b = 0 \/ b = 1.

(** Bit [i] of a bit list read as [read_code_bit] reads it: zeros follow
    the last bit. *)
Definition sbit (bits : list Z) (i : nat) : Z := nth i bits 0.

(** The number written by the [n] bits from position [k] on, most
    significant bit first. *)
Fixpoint window (bits : list Z) (k n : nat) : Z :=
  match n with
  | O => 0
  | S m => 2 * window bits k m + sbit bits (k + m)
  end.

(** The 64-bit word a decoder holds in front of the stream [bits] while
    [pending] underflow bits are outstanding: the first bit, then the 63
    bits that follow the [pending] bits after it. *)
Definition pending_code (pending : nat) (bits : list Z) : Z :=
  sbit bits 0 * 2 ^ 63 + window bits (S pending) 63.

(** The stream [bits] still to be written names a point of [lo, hi]: the
    [pending] bits after the first are its complement, and the word read
    past them lies in the interval. *)
Definition fits (lo hi : Z) (pending : nat) (bits : list Z) : Prop :=
  Forall is_bit bits /\
  (forall j, (1 <= j <= pending)%nat -> sbit bits j = 1 - sbit bits 0) /\
  lo <= pending_code pending bits <= hi.

(** The decoder [d] has read the stream [bits] as far as an encoder with
    [pending] outstanding underflow bits has written it. *)
Definition reads (pending : nat) (bits : list Z) (d : Decoder) : Prop :=
  code d = pending_code pending bits /\
  forall i, sbit (input d) i = sbit bits (pending + 64 + i).

(** Encoder and decoder at the same point of the same stream. *)
Definition coupled (e : Encoder) (d : Decoder) (bits : list Z) : Prop :=
  dec_low d = enc_low e /\ dec_high d = enc_high e /\
  reads (num_underflow e) bits d.

(** [encode_symbol] on every pair of a list, in order. *)
Fixpoint encode_symbols (fuel : nat) (pairs : list (list Z * nat))
  (self : Encoder) : result Encoder :=
  match pairs with
  | [] => Ok self
  | (cum_freqs, symbol) :: rest =>
      self <- encode_symbol fuel cum_freqs symbol self ;;
      encode_symbols fuel rest self
  end.

(** [decode_symbol] on every table of a list, in order: the symbols
    returned and the decoder left. *)
Fixpoint decode_symbols (fuel : nat) (tables : list (list Z))
  (self : Decoder) : result (list nat * Decoder) :=
  match tables with
  | [] => Ok ([], self)
  | cum_freqs :: rest =>
      r <- decode_symbol fuel cum_freqs self ;;
      r' <- decode_symbols fuel rest (snd r) ;;
      Ok (fst r :: fst r', snd r')
  end.

(** What follows the symbols in a finished stream: the 1 of [finish],
    then nothing but zeros. *)
Definition terminator (bits : list Z) : Prop :=
  Forall is_bit bits /\ sbit bits 0 = 1 /\
  forall j, (1 <= j)%nat -> sbit bits j = 0.

(** The word [code] stays between [low] and [high], and the deque holds
    bits. *)
Definition tracking (d : Decoder) : Prop :=
  dec_low d <= code d <= dec_high d /\
  forall i, is_bit (sbit (input d) i).

(** The interval of symbol 1 of the table 3, 5, 8 in the initial state,
    as [narrow] leaves it: [low] starts with the bits 011 and [high] with
    100. *)
Definition near_convergence_state : Encoder :=
  mkEncoder (3 * 2 ^ 61) (5 * 2 ^ 61 - 1) [] 0.

(** ** Bit packing: [bits_to_base64] and [base64_to_bits]

    A Python [str] is modelled by the string of its UTF-8 bytes: the 64
    characters of [BASE64] are single bytes, and no byte of another
    character is one of them. *)

Definition BASE64 : string :=
  "ABCDEFGHIJKLMNOPQRSTUVWXYZabcdefghijklmnopqrstuvwxyz0123456789+/"%string.

(** [while bits and bits[-1] == 0: bits.pop()], every iteration removing
    one item of the [n] the list has. *)
Fixpoint pop_zeros (n : nat) (bits : list Z) : list Z :=
  match n with
  | O => bits
  | S k =>
      match bits with
      | [] => bits
      | _ => if last bits 0 =? 0 then pop_zeros k (removelast bits) else bits
      end
  end.

(** [while len(bits) % 6 != 0: bits.append(0)], at most [n] times. *)
Fixpoint pad_zeros (n : nat) (bits : list Z) : list Z :=
  match n with
  | O => bits
  | S k =>
      if (List.length bits mod 6 =? 0)%nat then bits
      else pad_zeros k (bits ++ [0])
  end.

(** [range(0, n, 6)] *)
Definition range_by_six (n : nat) : list nat :=
  map (fun j => (6 * j)%nat) (seq 0 ((n + 5) / 6)).

(** [bits[i : i + 6]] *)
Definition slice_six (bits : list Z) (i : nat) : list Z :=
  firstn 6 (skipn i bits).

(** [int("".join(str(bit) for bit in group), 2)] for a group of bits 0
    and 1, which is what [encoded_data] holds; any other item is reported
    as the [ValueError] that [int] raises on a digit that is not
    binary. *)
Definition group_value (group : list Z) : result Z :=
  if forallb (fun b => (b =? 0) || (b =? 1)) group
  then Ok (fold_left (fun acc b => 2 * acc + b) group 0)
  else Raise ValueError.

(** [BASE64[v]] *)
Definition base64_char (v : Z) : result ascii :=
  match String.get (Z.to_nat v) BASE64 with
  | Some c => Ok c
  | None => Raise IndexError
  end.

Fixpoint map_result {A B : Type} (f : A -> result B) (l : list A)
  : result (list B) :=
  match l with
  | [] => Ok []
  | a :: rest =>
      b <- f a ;;
      bs <- map_result f rest ;;
      Ok (b :: bs)
  end.

Definition bits_to_base64 (bits : list Z) : result string :=
  let bits := pop_zeros (List.length bits) bits in
  let bits := pad_zeros 6 bits in
  chars <- map_result
             (fun i => v <- group_value (slice_six bits i) ;; base64_char v)
             (range_by_six (List.length bits)) ;;
  Ok (string_of_list_ascii chars).

(** [BASE64.index(char)], [None] for the [ValueError] of a character that
    does not occur. *)
Fixpoint str_index (c : ascii) (s : string) : option nat :=
  match s with
  | EmptyString => None
  | String a rest =>
      if Ascii.eqb c a then Some O else option_map S (str_index c rest)
  end.

(** The digits of [f"{v:06b}"] for an index [v < 64], each through
    [int]. *)
Definition format_06b (v : nat) : list Z :=
  map (fun i => Z.b2z (Z.testbit (Z.of_nat v) i)) [5; 4; 3; 2; 1; 0].

Fixpoint base64_to_bits (s : string) : result (list Z) :=
  match s with
  | EmptyString => Ok []
  | String char rest =>
      match str_index char BASE64 with
      | None => Raise ValueError
      | Some v =>
          bits <- base64_to_bits rest ;;
          Ok (format_06b v ++ bits)
      end
  end.

(** ** [main]: interactive mode *)

(** What one turn of the interactive loop calls on the line read. *)
Inductive action : Type :=
| Decompress (compressed : string)
| Compress (uncompressed : string).

(** [char in BASE64] *)
Definition in_BASE64 (char : ascii) : bool :=
  match str_index char BASE64 with
  | Some _ => true
  | None => false
  end.

(** [if string and all(char in BASE64 for char in string)] *)
Definition interactive_turn (line : string) : action :=
  if negb (String.eqb line EmptyString)
     && forallb in_BASE64 (list_ascii_of_string line)
  then Decompress line
  else Compress line.

(** The 64-symbol alphabet as the specification lists it: A-Z, a-z, 0-9,
    + and /. *)
Definition alphabet (c : ascii) : Prop :=
  (65 <= nat_of_ascii c <= 90)%nat \/ (97 <= nat_of_ascii c <= 122)%nat \/
  (48 <= nat_of_ascii c <= 57)%nat \/ nat_of_ascii c = 43%nat \/
  nat_of_ascii c = 47%nat.

(** ** [main]: the window overlap argument

    The conversions [float] and [int] of Python and its floating-point
    arithmetic are taken through an interface. *)

Record PyFloat : Type := {
  float : Type;
  (** [float(s)] and [int(s)]; [None] is [ValueError]. *)
  float_of_string : string -> option float;
  int_of_string : string -> option Z;
  (** An integer operand of a mixed comparison or operation. *)
  float_of_int : Z -> float;
  float_le : float -> float -> bool;
  float_div : float -> float -> float;
  float_mul : float -> float -> float;
  (** [int(x)] *)
  int_of_float : float -> Z
}.

(** What the arithmetic of IEEE doubles gives on the values the parsing
    meets: a quotient by 100 of a value of [0, 100] is in [0, 1], a
    product of a factor of [0, 1] with a non-negative integer [n] below
    2^53 is between 0 and [n], and truncation keeps such a product in
    that range. *)
Record PyFloat_laws (P : PyFloat) : Prop := {
  div_100_unit : forall p,
    float_le P (float_of_int P 0) p = true ->
    float_le P p (float_of_int P 100) = true ->
    float_le P (float_of_int P 0) (float_div P p (float_of_int P 100)) = true
    /\ float_le P (float_div P p (float_of_int P 100)) (float_of_int P 1)
       = true;
  mul_unit : forall q n,
    0 <= n < 2 ^ 53 ->
    float_le P (float_of_int P 0) q = true ->
    float_le P q (float_of_int P 1) = true ->
    float_le P (float_of_int P 0) (float_mul P q (float_of_int P n)) = true
    /\ float_le P (float_mul P q (float_of_int P n)) (float_of_int P n)
       = true;
  int_of_float_range : forall x n,
    0 <= n < 2 ^ 53 ->
    float_le P (float_of_int P 0) x = true ->
    float_le P x (float_of_int P n) = true ->
    0 <= int_of_float P x <= n
}.

(** [s.endswith("%")] *)
Fixpoint endswith_percent (s : string) : bool :=
  match s with
  | EmptyString => false
  | String c EmptyString => Ascii.eqb c "%"%char
  | String _ rest => endswith_percent rest
  end.

(** [s[:-1]] *)
Fixpoint drop_last (s : string) : string :=
  match s with
  | EmptyString => EmptyString
  | String _ EmptyString => EmptyString
  | String c rest => String c (drop_last rest)
  end.

(** How the first [try] block of [main] ends: with [window_overlap] set,
    or in [parser.error], which exits. *)
Inductive overlap_outcome : Type :=
| WindowOverlap (window_overlap : Z)
| ParserError.

Definition parse_overlap (P : PyFloat) (overlap : string) (n_ctx : Z)
  : overlap_outcome :=
  if endswith_percent overlap then
    match float_of_string P (drop_last overlap) with
    | None => ParserError
    | Some percent =>
        if negb (float_le P (float_of_int P 0) percent
                 && float_le P percent (float_of_int P 100))
        then ParserError
        else WindowOverlap
               (int_of_float P
                  (float_mul P (float_div P percent (float_of_int P 100))
                     (float_of_int P (n_ctx - 1))))
    end
  else
    match int_of_string P overlap with
    | None => ParserError
    | Some window_overlap =>
        let window_overlap :=
          if window_overlap <? 0 then window_overlap + n_ctx
          else window_overlap in
        if negb ((0 <=? window_overlap) && (window_overlap <? n_ctx))
        then ParserError
        else WindowOverlap window_overlap
    end.

(** Exact rational arithmetic on decimal integers, an instance of the
    interface. *)
Definition decimal (s : string) : option Z :=
  option_map Z.of_int (DecimalString.NilEmpty.int_of_string s).

Definition rational_float : PyFloat := {|
  float := Q;
  float_of_string := fun s => option_map inject_Z (decimal s);
  int_of_string := decimal;
  float_of_int := inject_Z;
  float_le := Qle_bool;
  float_div := Qdiv;
  float_mul := Qmult;
  int_of_float := fun q => Z.quot (Qnum q) (Z.pos (Qden q))
|}.

(** ** The LLM collaborator *)

(** Modelled from the spec: the LLM collaborator of section 6, which is
    the library llama_cpp and is not part of the source.  A token is its
    identifier, a text the string of its UTF-8 bytes.  The logits are
    floating-point vectors and stay abstract: [eval] gives the logits the
    model yields for a context (bit-identical for the same context),
    [set_inf] is [logits[token] = np.inf] and [argmax] is [np.argmax].
    [compute_cdf] stands for [LlamaZip.compute_cdf], which is numpy
    floating-point arithmetic on the logits, with its entries read
    through [int]. *)
Record Llama : Type := {
  Logits : Type;
  n_vocab : nat;
  tokenize : string -> list nat;
  detokenize : list nat -> string;
  token_bos : nat;
  token_eos : nat;
  n_ctx : nat;
  eval : list nat -> Logits;
  compute_cdf : Logits -> list Z;
  set_inf : nat -> Logits -> Logits;
  argmax : Logits -> nat
}.

Section Generate.
Context {St : Type}.
Variable model : Llama.
Variable logits_processor :
  list nat -> Logits model -> St -> result (Logits model * St).
Variable stopping_criteria : list nat -> Logits model -> St -> bool * St.

(** Modelled from the spec: [Llama.generate] run to its end by
    [consume], as section 6 describes it: at each step the logits of the
    context go through [logits_processor], the greedy choice
    (temperature 0) is their argmax, [stopping_criteria] is asked, and
    the chosen token joins the context for the next step.  [room] is the
    number of tokens the context can still take; evaluating past it is
    an error of the library. *)
Fixpoint generate_loop (room : nat) (tokens : list nat) (st : St)
  : result St :=
  r <- logits_processor tokens (eval model tokens) st ;;
  let token := argmax model (fst r) in
  let (stop, st) := stopping_criteria tokens (fst r) (snd r) in
  if stop then Ok st
  else
    match room with
    | O => Raise ContextOverflow
    | S room => generate_loop room (tokens ++ [token]) st
    end.

Definition generate (tokens : list nat) (st : St) : result St :=
  if (n_ctx model <? List.length tokens)%nat then Raise ContextOverflow
  else generate_loop (n_ctx model - List.length tokens) tokens st.

End Generate.

(** ** [LlamaZip.compress] *)

(** The variables the closures of [compress] share, and a record of the
    symbols handed to [encode_symbol], which the source does not keep:
    its length counts the calls of [process_logits]. *)
Record CompressState : Type := mkCompressState {
  next_token_idx : nat;
  encoder : Encoder;
  encoded_symbols : list nat
}.

(** [tokens[start:stop]] *)
Definition slice (tokens : list nat) (start stop : nat) : list nat :=
  firstn (stop - start) (skipn start tokens).

Section Compress.
Variable model : Llama.
Variable fuel : nat.
(** Whether [interrupted] is set when [process_logits] runs for the
    [n]-th time, counting from 0: the handler of SIGINT sets it between
    two instructions of the program. *)
Variable interrupted : nat -> bool.
Variable window_overlap : nat.
Variable tokens : list nat.

Definition compress_process_logits (_ : list nat) (logits : Logits model)
  (st : CompressState) : result (Logits model * CompressState) :=
  let idx :=
    if interrupted (List.length (encoded_symbols st))
       && (next_token_idx st <? List.length tokens - 1)%nat
    then (List.length tokens - 1)%nat
    else next_token_idx st in
  match nth_error tokens idx with
  | None => Raise IndexError
  | Some next_token =>
      let cdf := compute_cdf model logits in
      enc <- encode_symbol fuel cdf next_token (encoder st) ;;
      Ok (set_inf model next_token logits,
          mkCompressState (S idx) enc (encoded_symbols st ++ [next_token]))
  end.

Definition compress_should_stop (tokens_so_far : list nat)
  (logits : Logits model) (st : CompressState) : bool * CompressState :=
  ((argmax model logits =? token_eos model)%nat
   || (List.length tokens_so_far =? n_ctx model)%nat, st).

(** One turn of [while next_token_idx < len(tokens)]. *)
Definition compress_window (st : CompressState) : result CompressState :=
  let start_idx := (next_token_idx st - window_overlap)%nat in
  generate model compress_process_logits compress_should_stop
    (token_bos model :: slice tokens start_idx (next_token_idx st)) st.

Fixpoint compress_loop (n : nat) (st : CompressState)
  : result CompressState :=
  if (next_token_idx st <? List.length tokens)%nat then
    match n with
    | O => Raise OutOfFuel
    | S n =>
        st <- compress_window st ;;
        compress_loop n st
    end
  else Ok st.

End Compress.

(** [compress] from the token list of the text on. *)
Definition compress_tokens (model : Llama) (fuel : nat)
  (interrupted : nat -> bool) (text_tokens : list nat)
  (window_overlap : nat) : result (CompressState * string) :=
  let tokens := text_tokens ++ [token_eos model] in
  st <- compress_loop model fuel interrupted window_overlap tokens fuel
          (mkCompressState 0 Encoder_init []) ;;
  compressed <- bits_to_base64 (get_encoded (finish (encoder st))) ;;
  Ok (st, compressed).

Definition compress (model : Llama) (fuel : nat) (interrupted : nat -> bool)
  (uncompressed : string) (window_overlap : nat) : result string :=
  r <- compress_tokens model fuel interrupted (tokenize model uncompressed)
         window_overlap ;;
  Ok (snd r).

(** ** [LlamaZip.decompress] *)

Record DecompressState : Type := mkDecompressState {
  tokens_so_far : list nat;
  decompressed : string;
  decoder : Decoder;
  done : bool
}.

(** [detokenized.startswith(b" ")] and [detokenized[1:]] *)
Definition startswith_space (s : string) : bool :=
  match s with
  | String c _ => Ascii.eqb c " "%char
  | EmptyString => false
  end.

Definition drop_first (s : string) : string :=
  match s with
  | String _ rest => rest
  | EmptyString => EmptyString
  end.

Definition tokenizer_adds_space_prefix (model : Llama) : bool :=
  String.eqb (detokenize model (tokenize model " "%string)) "  "%string.

(** The bytes [process_logits] appends for [next_token]. *)
Definition piece (model : Llama) (first : bool) (next_token : nat) : string :=
  let detokenized := detokenize model [next_token] in
  if first && startswith_space detokenized
     && tokenizer_adds_space_prefix model
  then drop_first detokenized
  else detokenized.

Section Decompress.
Variable model : Llama.
Variable fuel : nat.
Variable window_overlap : nat.

Definition decompress_process_logits (_ : list nat) (logits : Logits model)
  (st : DecompressState) : result (Logits model * DecompressState) :=
  let cdf := compute_cdf model logits in
  r <- decode_symbol fuel cdf (decoder st) ;;
  let next_token := fst r in
  let logits := set_inf model next_token logits in
  if (next_token =? token_eos model)%nat then
    Ok (logits,
        mkDecompressState (tokens_so_far st) (decompressed st) (snd r)
          (done st))
  else
    let detokenized :=
      piece model (List.length (tokens_so_far st) =? 0)%nat next_token in
    Ok (logits,
        mkDecompressState (tokens_so_far st ++ [next_token])
          (decompressed st ++ detokenized) (snd r) (done st)).

Definition decompress_should_stop (context : list nat)
  (logits : Logits model) (st : DecompressState) : bool * DecompressState :=
  let st :=
    if (argmax model logits =? token_eos model)%nat
    then mkDecompressState (tokens_so_far st) (decompressed st) (decoder st)
           true
    else st in
  (done st || (List.length context =? n_ctx model)%nat, st).

(** One turn of [while not done]. *)
Definition decompress_window (st : DecompressState)
  : result DecompressState :=
  let start_idx := (List.length (tokens_so_far st) - window_overlap)%nat in
  generate model decompress_process_logits decompress_should_stop
    (token_bos model :: skipn start_idx (tokens_so_far st)) st.

Fixpoint decompress_loop (n : nat) (st : DecompressState)
  : result DecompressState :=
  if negb (done st) then
    match n with
    | O => Raise OutOfFuel
    | S n =>
        st <- decompress_window st ;;
        decompress_loop n st
    end
  else Ok st.

End Decompress.

Definition decompress (model : Llama) (fuel : nat) (compressed : string)
  (window_overlap : nat) : result string :=
  encoded <- base64_to_bits compressed ;;
  st <- decompress_loop model fuel window_overlap fuel
          (mkDecompressState [] EmptyString (Decoder_init encoded) false) ;;
  Ok (decompressed st).

(** ** The predictive loop, without the loops *)

(** The context a window starts from, given the tokens coded so far. *)
Definition window_context (model : Llama) (window_overlap : nat)
  (coded : list nat) : list nat :=
  token_bos model :: skipn (List.length coded - window_overlap) coded.

(** The tables and symbols of the [n] tokens of [tokens] from position
    [i] on, the context of position [i] being [context]: after a token
    the context is extended by it, unless the token is EOS or the context
    is full, in which case a new window starts. *)
Fixpoint coded_pairs (model : Llama) (window_overlap : nat)
  (tokens : list nat) (n i : nat) (context : list nat)
  : list (list Z * nat) :=
  match n with
  | O => []
  | S n' =>
      let token := nth i tokens O in
      (compute_cdf model (eval model context), token)
      :: coded_pairs model window_overlap tokens n' (S i)
           (if (token =? token_eos model)%nat
               || (List.length context =? n_ctx model)%nat
            then window_context model window_overlap (firstn (S i) tokens)
            else context ++ [token])
  end.

(** The text [decompress] builds from a token list. *)
Fixpoint text_of_tokens (model : Llama) (first : bool) (tokens : list nat)
  : string :=
  match tokens with
  | [] => EmptyString
  | token :: rest =>
      (piece model first token ++ text_of_tokens model false rest)%string
  end.

(** What the coder and the loops need of the collaborator: the tables
    meet the invariants of section 3 of the specification and have one
    entry per token of the vocabulary, a logit set to infinity is the
    greedy choice, the tokenizer returns tokens of the vocabulary other
    than EOS, and detokenizing its tokens one at a time gives the text
    back. *)
Record Llama_contract (model : Llama) : Prop := {
  cdf_valid : forall logits, valid_cdf (compute_cdf model logits);
  cdf_length : forall logits,
    List.length (compute_cdf model logits) = n_vocab model;
  argmax_set_inf : forall token logits,
    (token < n_vocab model)%nat ->
    argmax model (set_inf model token logits) = token;
  eos_in_vocab : (token_eos model < n_vocab model)%nat;
  tokenize_in_vocab : forall text,
    Forall (fun t => (t < n_vocab model)%nat /\ t <> token_eos model)
      (tokenize model text);
  detokenize_tokenize : forall text,
    text_of_tokens model true (tokenize model text) = text
}.

(** The decoder [d] is in front of the stream that an encoder writes for
    [pairs] and closes. *)
Definition insync (fuel : nat) (pairs : list (list Z * nat)) (d : Decoder)
  : Prop :=
  exists (e e' : Encoder) (out tail : list Z),
    normalized (low e) (high e) /\ terminator tail /\
    encode_symbols fuel pairs e = Ok e' /\
    encoded_data e' = encoded_data e ++ out /\
    coupled e d (out ++ tail).

(** A run that ends otherwise than by exhausting the fuel of a loop or
    the context of the model. *)
Definition ends {A : Type} (r : result A) : Prop :=
  r <> Raise OutOfFuel /\ r <> Raise ContextOverflow.

(** The symbols [compress] hands to the encoder when the interrupt flag
    is first seen at call [cut] of the logits processor ([cut] the number
    of text tokens when it is never seen): the first [cut] text tokens,
    then EOS. *)
Definition coded_tokens (model : Llama) (text_tokens : list nat)
  (cut : nat) : list nat :=
  firstn cut text_tokens ++ [token_eos model].

(** ** A small collaborator

    A model over bytes to run the loops on: one token per byte, BOS 256,
    EOS 257, a context of four tokens; the table gives 1000 to the byte
    last seen and 1 to every other token. *)

(** [np.cumsum] on integers, from the partial sum [acc]. *)
Fixpoint cumsum (acc : Z) (freqs : list Z) : list Z :=
  match freqs with
  | [] => []
  | f :: rest => (acc + f) :: cumsum (acc + f) rest
  end.

Definition byte_model : Llama := {|
  Logits := list nat * option nat;
  n_vocab := 258;
  tokenize := fun text => map nat_of_ascii (list_ascii_of_string text);
  detokenize := fun tokens => string_of_list_ascii (map ascii_of_nat tokens);
  token_bos := 256;
  token_eos := 257;
  n_ctx := 4;
  eval := fun context => (rev context, None);
  compute_cdf := fun logits =>
    cumsum 0
      (map (fun t => if (t =? hd O (fst logits))%nat then 1000 else 1)
         (seq 0 258));
  set_inf := fun token logits => (fst logits, Some token);
  argmax := fun logits =>
    match snd logits with
    | Some token => token
    | None => hd O (fst logits)
    end
|}.

(** ** Further notions used by the statements *)

(** The bits an encoder has produced: those written to [encoded_data]
    and the underflow bits it still owes. *)
Definition bits_produced (e : Encoder) : nat :=
  (List.length (encoded_data e) + num_underflow e)%nat.

(** The symbols a decoder built on [bits] returns for a list of tables. *)
Definition decoded_symbols (fuel : nat) (tables : list (list Z))
  (bits : list Z) : result (list nat) :=
  r <- decode_symbols fuel tables (Decoder_init bits) ;;
  Ok (fst r).

(** Two decoders that differ at most in how their deques spell the same
    stream. *)
Definition same_stream (d1 d2 : Decoder) : Prop :=
  dec_low d1 = dec_low d2 /\ dec_high d1 = dec_high d2 /\
  code d1 = code d2 /\
  forall i, sbit (input d1) i = sbit (input d2) i.

(** Two runs that end alike, with results related by [R]. *)
Definition same_result {A : Type} (R : A -> A -> Prop) (r1 r2 : result A)
  : Prop :=
  match r1, r2 with
  | Ok a1, Ok a2 => R a1 a2
  | Raise e1, Raise e2 => e1 = e2
  | _, _ => False
  end.

(** A decoder in front of a stream of zeros, with [low] and [code] at
    0. *)
Definition zero_reading (d : Decoder) : Prop :=
  dec_low d = 0 /\ code d = 0 /\ (forall i, sbit (input d) i = 0) /\
  normalized (low d) (high d).

(** * Properties *)

(** ** Bit operations as arithmetic *)

Lemma full_range_eq : full_range = 2 ^ 64.
Proof. reflexivity. Qed.

Lemma half_range_eq : half_range = 2 ^ 63.
Proof. reflexivity. Qed.

Lemma quarter_range_eq : quarter_range = 2 ^ 62.
Proof. reflexivity. Qed.

Lemma state_mask_ones : state_mask = Z.ones 64.
Proof. reflexivity. Qed.

Lemma land_pow2 (a n : Z) :
  0 <= n -> Z.land a (2 ^ n) = if Z.testbit a n then 2 ^ n else 0.
Proof.
  intros Hn. apply Z.bits_inj'. intros m Hm.
  rewrite Z.land_spec, Z.pow2_bits_eqb by lia.
  destruct (Z.eqb_spec n m) as [->|Hne].
  - destruct (Z.testbit a m) eqn:E; cbn.
    + now rewrite Z.pow2_bits_true.
    + now rewrite Z.bits_0.
  - rewrite andb_false_r.
    destruct (Z.testbit a n).
    + rewrite Z.pow2_bits_false; auto.
    + now rewrite Z.bits_0.
Qed.

Lemma lxor_pow2 (a n : Z) :
  0 <= n ->
  Z.lxor a (2 ^ n) = if Z.testbit a n then a - 2 ^ n else a + 2 ^ n.
Proof.
  intros Hn.
  assert (Hoff : forall b, Z.testbit b n = false -> Z.lxor b (2 ^ n) = b + 2 ^ n).
  { intros b Hb. symmetry. apply Z.add_nocarry_lxor.
    rewrite land_pow2, Hb by assumption. reflexivity. }
  destruct (Z.testbit a n) eqn:E.
  - pose proof (Hoff (Z.lxor a (2 ^ n))) as H.
    rewrite Z.lxor_spec, E, Z.pow2_bits_true in H by assumption.
    specialize (H eq_refl).
    rewrite Z.lxor_assoc, Z.lxor_nilpotent, Z.lxor_0_r in H. lia.
  - now apply Hoff.
Qed.

Lemma lor_pow2 (a n : Z) :
  0 <= n -> Z.lor a (2 ^ n) = if Z.testbit a n then a else a + 2 ^ n.
Proof.
  intros Hn. destruct (Z.testbit a n) eqn:E.
  - apply Z.bits_inj'. intros m Hm. rewrite Z.lor_spec, Z.pow2_bits_eqb by lia.
    destruct (Z.eqb_spec n m) as [->|Hne].
    + now rewrite E.
    + now rewrite orb_false_r.
  - rewrite <- Z.lxor_lor.
    + rewrite lxor_pow2, E by assumption. reflexivity.
    + rewrite land_pow2, E by assumption. reflexivity.
Qed.

(** The bit [n] of a number below [2 ^ (n + 1)] is set exactly from
    [2 ^ n] on. *)
Lemma testbit_top (a n : Z) :
  0 <= n -> 0 <= a < 2 ^ (n + 1) -> Z.testbit a n = (2 ^ n <=? a).
Proof.
  intros Hn Ha.
  assert (Hp : 0 < 2 ^ n) by (apply Z.pow_pos_nonneg; lia).
  assert (H2 : 2 ^ (n + 1) = 2 * 2 ^ n) by (rewrite Z.pow_add_r; lia).
  destruct (Z.leb_spec (2 ^ n) a) as [Hle|Hlt].
  - apply Z.testbit_true; [assumption|].
    assert (a / 2 ^ n = 1) as ->; [|reflexivity].
    symmetry. apply Z.div_unique with (r := a - 2 ^ n); lia.
  - apply Z.testbit_false; [assumption|].
    rewrite Z.div_small by lia. reflexivity.
Qed.

Lemma testbit_mod_pow2_false (a n : Z) :
  0 <= n -> a mod 2 ^ (n + 1) = 0 -> Z.testbit a n = false.
Proof.
  intros Hn Ha.
  rewrite <- (Z.mod_pow2_bits_low a (n + 1) n) by lia.
  rewrite Ha. apply Z.bits_0.
Qed.

Lemma shiftl1_mask (a : Z) :
  Z.land (Z.shiftl a 1) state_mask = (2 * a) mod 2 ^ 64.
Proof.
  rewrite state_mask_ones, Z.land_ones, Z.shiftl_mul_pow2 by lia.
  f_equal. lia.
Qed.

Lemma lor_1_even (a : Z) : Z.lor (2 * a) 1 = 2 * a + 1.
Proof.
  change 1 with (2 ^ 0) at 1. rewrite lor_pow2 by lia.
  rewrite Z.testbit_even_0. reflexivity.
Qed.

(** ** Loops *)

Lemma while_loop_inv {St : Type} (Inv : St -> Prop) (cond : St -> bool)
  (body : St -> St) :
  (forall s, Inv s -> cond s = true -> Inv (body s)) ->
  forall fuel s s',
    Inv s -> while_loop fuel cond body s = Ok s' -> Inv s' /\ cond s' = false.
Proof.
  intros Hstep. induction fuel as [|fuel IH]; intros s s' Hs; cbn;
    destruct (cond s) eqn:E; intros Hrun; try discriminate.
  - injection Hrun as <-. auto.
  - apply IH in Hrun; auto.
  - injection Hrun as <-. auto.
Qed.

(** A loop whose states carry a rank that every iteration lowers, and
    that stops at rank 0, ends within as many iterations as the rank. *)
Lemma while_loop_ranked {St : Type} (Rk : nat -> St -> Prop)
  (cond : St -> bool) (body : St -> St) :
  (forall s, Rk O s -> cond s = false) ->
  (forall n s, Rk (S n) s -> cond s = true -> Rk n (body s)) ->
  forall n fuel s, Rk n s -> (n <= fuel)%nat ->
    exists s', while_loop fuel cond body s = Ok s'.
Proof.
  intros H0 Hstep. induction n as [|n IH]; intros fuel s Hs Hfuel.
  - exists s. destruct fuel; cbn; now rewrite (H0 s Hs).
  - destruct fuel as [|fuel]; [lia|]. cbn.
    destruct (cond s) eqn:E; [|now exists s].
    apply IH; [now apply Hstep | lia].
Qed.

Lemma while_loop_false {St : Type} (cond : St -> bool) (body : St -> St)
  fuel s :
  cond s = false -> while_loop fuel cond body s = Ok s.
Proof. intros E. destruct fuel; cbn; now rewrite E. Qed.

Lemma while_loop_true {St : Type} (cond : St -> bool) (body : St -> St)
  fuel s :
  cond s = true ->
  while_loop (S fuel) cond body s = while_loop fuel cond body (body s).
Proof. intros E. cbn. now rewrite E. Qed.

(** ** The hooks of the two subclasses *)

Lemma Encoder_laws : coder_laws Encoder.
Proof. constructor; reflexivity. Qed.

Lemma Decoder_laws : coder_laws Decoder.
Proof.
  constructor; try reflexivity; intros s; cbn;
    unfold Decoder_shift, Decoder_underflow;
    destruct (read_code_bit (input s)); reflexivity.
Qed.

(** ** The two renormalisation loops on [low] and [high] *)

Section Renormalisation.
Context {St : Type} `{ArithmeticCoderBase St}.
Hypothesis laws : coder_laws St.

Lemma low_shift_body (s : St) :
  low (shift_body s) = (2 * low s) mod 2 ^ 64.
Proof.
  unfold shift_body.
  rewrite (low_set_high _ laws), (low_set_low _ laws), (low_shift _ laws).
  apply shiftl1_mask.
Qed.

Lemma high_shift_body (s : St) :
  high (shift_body s) = (2 * high s) mod 2 ^ 64 + 1.
Proof.
  unfold shift_body.
  rewrite (high_set_high _ laws), (high_set_low _ laws), (high_shift _ laws).
  rewrite shiftl1_mask.
  assert (E : (2 * high s) mod 2 ^ 64 = 2 * (high s mod 2 ^ 63)).
  { change (2 ^ 64) with (2 * 2 ^ 63). rewrite Zmult_mod_distr_l. reflexivity. }
  rewrite E. apply lor_1_even.
Qed.

Lemma shift_cond_spec (s : St) :
  shift_cond s = Bool.eqb (Z.testbit (low s) 63) (Z.testbit (high s) 63).
Proof.
  unfold shift_cond. rewrite half_range_eq, land_pow2, Z.lxor_spec by lia.
  destruct (Z.testbit (low s) 63), (Z.testbit (high s) 63); reflexivity.
Qed.

Lemma underflow_cond_spec (s : St) :
  underflow_cond s =
  Z.testbit (low s) 62 && negb (Z.testbit (high s) 62).
Proof.
  unfold underflow_cond.
  rewrite quarter_range_eq, land_pow2, Z.land_spec, Z.lnot_spec by lia.
  destruct (Z.testbit (low s) 62), (Z.testbit (high s) 62); reflexivity.
Qed.

Lemma low_underflow_body (s : St) :
  low (underflow_body s) =
  if Z.testbit (low s) 62 then 2 * low s - 2 ^ 63 else 2 * low s + 2 ^ 63.
Proof.
  unfold underflow_body.
  rewrite (low_set_high _ laws), (low_set_low _ laws), (low_underflow _ laws).
  rewrite half_range_eq, lxor_pow2, Z.shiftl_spec by lia.
  rewrite Z.shiftl_mul_pow2 by lia. change (63 - 1) with 62.
  destruct (Z.testbit (low s) 62); lia.
Qed.

End Renormalisation.

(** The second bit of a 64-bit word. *)
Lemma testbit_62 (a : Z) :
  0 <= a < 2 ^ 64 ->
  Z.testbit a 62 =
  ((2 ^ 62 <=? a) && (a <? 2 ^ 63)) || (2 ^ 63 + 2 ^ 62 <=? a).
Proof.
  intros Ha.
  pose proof (Z.testbit_spec' a 62 ltac:(lia)) as Hb.
  pose proof (Z.div_mod a (2 ^ 62) ltac:(lia)) as Hd.
  pose proof (Z.mod_pos_bound a (2 ^ 62) ltac:(lia)) as Hm.
  set (q := a / 2 ^ 62) in *.
  assert (Hq : q = 0 \/ q = 1 \/ q = 2 \/ q = 3) by lia.
  destruct (Z.testbit a 62); cbn in Hb;
    destruct Hq as [E|[E|[E|E]]]; rewrite E in *; cbn in Hb; try discriminate;
    clear Hb; lia.
Qed.

Section Renormalisation2.
Context {St : Type} `{ArithmeticCoderBase St}.
Hypothesis laws : coder_laws St.

Lemma high_underflow_body (s : St) :
  2 ^ 63 <= high s < 2 ^ 63 + 2 ^ 62 ->
  high (underflow_body s) = 2 * high s - 2 ^ 63 + 1.
Proof.
  intros Hh. unfold underflow_body.
  rewrite (high_set_high _ laws), (high_set_low _ laws),
    (high_underflow _ laws).
  rewrite half_range_eq, lxor_pow2 by lia.
  rewrite (testbit_top (high s) 63) by lia.
  destruct (Z.leb_spec (2 ^ 63) (high s)); [|lia].
  rewrite Z.shiftl_mul_pow2 by lia.
  rewrite lor_pow2, testbit_top by lia.
  destruct (Z.leb_spec (2 ^ 63) ((high s - 2 ^ 63) * 2 ^ 1)); [lia|].
  replace ((high s - 2 ^ 63) * 2 ^ 1 + 2 ^ 63)
    with (2 * (high s - 2 ^ 62)) by lia.
  rewrite lor_1_even. lia.
Qed.

(** *** Both loops end, whatever the state *)

Lemma shift_loop_terminates (fuel : nat) (s : St) :
  (64 <= fuel)%nat ->
  exists s', while_loop fuel shift_cond shift_body s = Ok s'.
Proof.
  intros Hfuel.
  pose (Rk := fun (n : nat) (s : St) =>
    (n <= 64)%nat /\
    (2 ^ (64 - Z.of_nat n) | low s) /\ (2 ^ (64 - Z.of_nat n) | high s + 1) /\
    ((n < 64)%nat -> 0 <= low s < 2 ^ 64 /\ 0 <= high s < 2 ^ 64)).
  apply (while_loop_ranked Rk) with (n := 64%nat); [| | |assumption].
  - intros s0 (_ & [a Ha] & [b Hb] & Hr). cbn in Ha, Hb.
    destruct Hr as [Hl Hh]; [lia|].
    assert (low s0 = 0) as El by lia.
    assert (high s0 = 2 ^ 64 - 1) as Eh by lia.
    rewrite shift_cond_spec, El, Eh. reflexivity.
  - intros n s0 (Hn & Hl & Hh & _) _. unfold Rk.
    rewrite low_shift_body, high_shift_body by assumption.
    replace (64 - Z.of_nat n) with ((64 - Z.of_nat (S n)) + 1) by lia.
    set (k := 64 - Z.of_nat (S n)) in *.
    assert (Hk : 0 <= k <= 63) by lia.
    assert (Hdiv : (2 ^ (k + 1) | 2 ^ 64)).
    { exists (2 ^ (63 - k)). rewrite <- Z.pow_add_r by lia. f_equal. lia. }
    assert (Hp : 2 ^ (k + 1) = 2 * 2 ^ k) by (rewrite Z.pow_add_r; lia).
    split; [lia|]. split; [|split].
    + rewrite Z.mod_eq by lia. apply Z.divide_sub_r.
      * rewrite Hp. now apply Z.mul_divide_mono_l.
      * now apply Z.divide_mul_l.
    + replace ((2 * high s0) mod 2 ^ 64 + 1 + 1)
        with (2 * (high s0 + 1) - 2 ^ 64 * (2 * high s0 / 2 ^ 64))
        by (rewrite Z.mod_eq; lia).
      apply Z.divide_sub_r.
      * rewrite Hp. now apply Z.mul_divide_mono_l.
      * now apply Z.divide_mul_l.
    + intros _.
      pose proof (Z.mod_pos_bound (2 * low s0) (2 ^ 64) ltac:(lia)).
      pose proof (Z.mod_pos_bound (2 * high s0) (2 ^ 64) ltac:(lia)) as Hb.
      assert (E : (2 * high s0) mod 2 ^ 64 = 2 * (high s0 mod 2 ^ 63)).
      { change (2 ^ 64) with (2 * 2 ^ 63). rewrite Zmult_mod_distr_l.
        reflexivity. }
      pose proof (Z.mod_pos_bound (high s0) (2 ^ 63) ltac:(lia)).
      lia.
  - unfold Rk. split; [lia|]. cbn. split; [apply Z.divide_1_l|].
    split; [apply Z.divide_1_l|]. lia.
Qed.

Lemma underflow_loop_terminates (fuel : nat) (s : St) :
  (64 <= fuel)%nat ->
  exists s', while_loop fuel underflow_cond underflow_body s = Ok s'.
Proof.
  intros Hfuel.
  pose (Rk := fun (n : nat) (s : St) =>
    (n <= 63)%nat /\ (2 ^ (63 - Z.of_nat n) | low s)).
  apply (while_loop_ranked Rk) with (n := 63%nat); [| | |lia].
  - intros s0 (_ & Hd). cbn in Hd.
    rewrite underflow_cond_spec.
    rewrite (testbit_mod_pow2_false (low s0) 62); [reflexivity|lia|].
    apply Z.mod_divide; [lia|exact Hd].
  - intros n s0 (Hn & Hl) _. unfold Rk. split; [lia|].
    rewrite low_underflow_body by assumption.
    replace (63 - Z.of_nat n) with ((63 - Z.of_nat (S n)) + 1) by lia.
    set (k := 63 - Z.of_nat (S n)) in *.
    assert (Hk : 0 <= k <= 62) by lia.
    assert (Hdiv : (2 ^ (k + 1) | 2 ^ 63)).
    { exists (2 ^ (62 - k)). rewrite <- Z.pow_add_r by lia. f_equal. lia. }
    assert (Hp : 2 ^ (k + 1) = 2 * 2 ^ k) by (rewrite Z.pow_add_r; lia).
    assert (H2 : (2 ^ (k + 1) | 2 * low s0)).
    { rewrite Hp. now apply Z.mul_divide_mono_l. }
    destruct (Z.testbit (low s0) 62).
    + now apply Z.divide_sub_r.
    + now apply Z.divide_add_r.
  - unfold Rk. split; [lia|]. cbn. apply Z.divide_1_l.
Qed.

(** *** The loops on a state in range *)

Lemma shift_cond_true (s : St) :
  ordered s -> shift_cond s = true ->
  (high s < 2 ^ 63 /\ low (shift_body s) = 2 * low s /\
   high (shift_body s) = 2 * high s + 1) \/
  (2 ^ 63 <= low s /\ low (shift_body s) = 2 * low s - 2 ^ 64 /\
   high (shift_body s) = 2 * high s + 1 - 2 ^ 64).
Proof.
  intros (Hl & Hlh & Hh) Hc.
  rewrite shift_cond_spec in Hc.
  rewrite !(testbit_top _ 63) in Hc by (cbn; lia).
  rewrite low_shift_body, high_shift_body by assumption.
  destruct (Z.leb_spec (2 ^ 63) (low s)), (Z.leb_spec (2 ^ 63) (high s));
    try discriminate; try lia.
  - right. split; [assumption|].
    rewrite !Z.mod_eq by lia.
    assert (2 * low s / 2 ^ 64 = 1) as ->.
    { symmetry. apply Z.div_unique with (r := 2 * low s - 2 ^ 64); lia. }
    assert (2 * high s / 2 ^ 64 = 1) as ->.
    { symmetry. apply Z.div_unique with (r := 2 * high s - 2 ^ 64); lia. }
    lia.
  - left. split; [assumption|].
    rewrite !Z.mod_small by lia. lia.
Qed.

Lemma shift_cond_false (s : St) :
  ordered s -> shift_cond s = false -> straddling s.
Proof.
  intros (Hl & Hlh & Hh) Hc.
  rewrite shift_cond_spec in Hc.
  rewrite !(testbit_top _ 63) in Hc by (cbn; lia).
  unfold straddling.
  destruct (Z.leb_spec (2 ^ 63) (low s)), (Z.leb_spec (2 ^ 63) (high s));
    try discriminate; lia.
Qed.

Lemma shift_body_ordered (s : St) :
  ordered s -> shift_cond s = true -> ordered (shift_body s).
Proof.
  intros Ho Hc. pose proof Ho as (Hl & Hlh & Hh). unfold ordered.
  destruct (shift_cond_true s Ho Hc) as [(? & -> & ->)|(? & -> & ->)]; lia.
Qed.

Lemma underflow_cond_true (s : St) :
  straddling s -> underflow_cond s = true ->
  2 ^ 62 <= low s /\ high s < 2 ^ 63 + 2 ^ 62 /\
  low (underflow_body s) = 2 * low s - 2 ^ 63 /\
  high (underflow_body s) = 2 * high s - 2 ^ 63 + 1.
Proof.
  intros (Hl & Hh) Hc.
  rewrite underflow_cond_spec in Hc.
  apply andb_prop in Hc. destruct Hc as [Hc1 Hc2].
  apply negb_true_iff in Hc2.
  rewrite low_underflow_body, Hc1 by assumption.
  rewrite testbit_62 in Hc1, Hc2 by lia.
  assert (2 ^ 62 <= low s) by lia.
  assert (high s < 2 ^ 63 + 2 ^ 62) by lia.
  rewrite high_underflow_body by lia. lia.
Qed.

Lemma underflow_cond_false (s : St) :
  straddling s -> underflow_cond s = false -> normalized (low s) (high s).
Proof.
  intros (Hl & Hh) Hc.
  rewrite underflow_cond_spec in Hc.
  rewrite !testbit_62 in Hc by lia.
  unfold normalized.
  rewrite half_range_eq, quarter_range_eq, full_range_eq. lia.
Qed.

Lemma underflow_body_straddling (s : St) :
  straddling s -> underflow_cond s = true -> straddling (underflow_body s).
Proof.
  intros Ho Hc. pose proof Ho as (Hl & Hh). unfold straddling.
  destruct (underflow_cond_true s Ho Hc) as (? & ? & -> & ->). lia.
Qed.

End Renormalisation2.

(** ** Frequency tables *)

Lemma last_cons_default (c : Z) (l : list Z) (d d' : Z) :
  last (c :: l) d = last (c :: l) d'.
Proof.
  revert c. induction l as [|x l IH]; intros c; [reflexivity|].
  change (last (x :: l) d = last (x :: l) d'). apply IH.
Qed.

Lemma increasing_from_last (p : Z) (l : list Z) :
  increasing_from p l -> p <= last l p.
Proof.
  revert p. induction l as [|c l IH]; intros p Hl; cbn [last]; [lia|].
  destruct Hl as [Hpc Hl]. destruct l as [|x l]; [lia|].
  specialize (IH c Hl). rewrite (last_cons_default x l p c). lia.
Qed.

Lemma increasing_from_bounds (p : Z) (l : list Z) (symbol : nat) :
  increasing_from p l -> (symbol < List.length l)%nat ->
  p <= match symbol with O => p | S k => nth k l 0 end /\
  match symbol with O => p | S k => nth k l 0 end < nth symbol l 0 /\
  nth symbol l 0 <= last l p.
Proof.
  revert p symbol. induction l as [|c l IH]; intros p symbol Hl Hs;
    [cbn in Hs; lia|].
  destruct Hl as [Hpc Hl].
  assert (Hlast : last (c :: l) p = last l c).
  { destruct l as [|x l]; [reflexivity|]. cbn [last].
    apply last_cons_default. }
  destruct symbol as [|k].
  - cbn [nth]. rewrite Hlast. pose proof (increasing_from_last c l Hl). lia.
  - cbn in Hs. specialize (IH c k Hl ltac:(lia)).
    rewrite Hlast. cbn [nth]. destruct k as [|j]; cbn [nth] in *; lia.
Qed.

Lemma valid_cdf_bounds (cum_freqs : list Z) (symbol : nat) :
  valid_cdf cum_freqs -> (symbol < List.length cum_freqs)%nat ->
  0 <= sym_low cum_freqs symbol /\
  sym_low cum_freqs symbol < sym_high cum_freqs symbol /\
  sym_high cum_freqs symbol <= last cum_freqs 0 /\
  last cum_freqs 0 <= 2 ^ 62.
Proof.
  intros (_ & Hinc & Htot) Hs.
  pose proof (increasing_from_bounds 0 cum_freqs symbol Hinc Hs).
  rewrite quarter_range_eq in Htot. unfold sym_low, sym_high. lia.
Qed.

Lemma searchsorted_right_from (p : Z) (l : list Z) (symbol : nat) (v : Z) :
  increasing_from p l -> (symbol < List.length l)%nat ->
  match symbol with O => p | S k => nth k l 0 end <= v < nth symbol l 0 ->
  searchsorted_right l v = symbol.
Proof.
  revert p symbol. induction l as [|c l IH]; intros p symbol Hl Hs Hv;
    [cbn in Hs; lia|].
  destruct Hl as [Hpc Hl]. cbn [searchsorted_right].
  destruct symbol as [|k].
  - cbn [nth] in Hv. destruct (Z.ltb_spec v c); [reflexivity|lia].
  - cbn in Hs. cbn [nth] in Hv.
    assert (Hc : c <= v).
    { pose proof (increasing_from_bounds c l k Hl ltac:(lia)).
      destruct k; cbn [nth] in *; lia. }
    destruct (Z.ltb_spec v c); [lia|]. f_equal.
    apply (IH c k Hl ltac:(lia)). destruct k; cbn [nth] in *; lia.
Qed.

Lemma searchsorted_right_spec (cum_freqs : list Z) (symbol : nat) (v : Z) :
  valid_cdf cum_freqs -> (symbol < List.length cum_freqs)%nat ->
  sym_low cum_freqs symbol <= v < sym_high cum_freqs symbol ->
  searchsorted_right cum_freqs v = symbol.
Proof.
  intros (_ & Hinc & _) Hs Hv.
  apply (searchsorted_right_from 0); assumption.
Qed.

(** Any value below the total falls in the interval of the symbol found. *)
Lemma searchsorted_right_found (p : Z) (l : list Z) (v : Z) :
  increasing_from p l -> p <= v < last l p ->
  (searchsorted_right l v < List.length l)%nat /\
  match searchsorted_right l v with O => p | S k => nth k l 0 end <= v /\
  v < nth (searchsorted_right l v) l 0.
Proof.
  revert p. induction l as [|c l IH]; intros p Hl Hv; [cbn in Hv; lia|].
  destruct Hl as [Hpc Hl]. cbn [searchsorted_right].
  destruct (Z.ltb_spec v c) as [Hlt|Hge].
  - cbn. lia.
  - assert (Hlast : last (c :: l) p = last l c).
    { destruct l as [|x l']; [reflexivity|]. cbn [last].
      apply last_cons_default. }
    rewrite Hlast in Hv.
    specialize (IH c Hl ltac:(lia)). destruct IH as (H1 & H2 & H3).
    cbn [List.length nth]. split; [lia|]. split; [|assumption].
    destruct (searchsorted_right l v); cbn [nth]; lia.
Qed.

(** ** Narrowing the interval *)

Lemma scaled_interval (a b T R : Z) :
  0 <= a -> a < b -> b <= T -> 0 < T -> T <= R ->
  0 <= a * R / T /\ a * R / T < b * R / T /\ b * R / T <= R.
Proof.
  intros Ha Hab HbT HT HTR. split; [|split].
  - apply Z.div_pos; nia.
  - assert (a * R / T + 1 <= b * R / T); [|lia].
    rewrite <- (Z.div_add (a * R) 1 T) by lia.
    apply Z.div_le_mono; nia.
  - rewrite <- (Z.div_mul R T) at 2 by lia.
    apply Z.div_le_mono; nia.
Qed.

Lemma index_nth (l : list Z) (i : nat) :
  (i < List.length l)%nat -> index l i = Ok (nth i l 0).
Proof.
  intros Hi. unfold index.
  rewrite (nth_error_nth' l 0 Hi). reflexivity.
Qed.

Section Narrow.
Context {St : Type} `{ArithmeticCoderBase St}.
Hypothesis laws : coder_laws St.

Lemma narrow_eq (cum_freqs : list Z) (symbol : nat) (s : St) :
  valid_cdf cum_freqs -> (symbol < List.length cum_freqs)%nat ->
  narrow cum_freqs symbol s =
  Ok (set_low
        (low s + sym_low cum_freqs symbol * (high s - low s + 1)
                 / last cum_freqs 0)
        (set_high
           (low s + sym_high cum_freqs symbol * (high s - low s + 1)
                    / last cum_freqs 0 - 1) s)).
Proof.
  intros Hv Hs. pose proof (valid_cdf_bounds _ _ Hv Hs) as Hb.
  unfold narrow, last_item.
  destruct cum_freqs as [|c l] eqn:E; [cbn in Hs; lia|]. rewrite <- E in *.
  cbn [bind]. rewrite (index_nth _ _ Hs). cbn [bind].
  destruct (Z.eqb_spec (last cum_freqs 0) 0) as [H0|_]; [lia|].
  rewrite (low_set_high _ laws).
  destruct symbol as [|k]; cbn [bind sym_low].
  - reflexivity.
  - rewrite index_nth by lia. reflexivity.
Qed.

Lemma narrow_ordered (cum_freqs : list Z) (symbol : nat) (s : St) :
  valid_cdf cum_freqs -> (symbol < List.length cum_freqs)%nat ->
  normalized (low s) (high s) ->
  exists s1, narrow cum_freqs symbol s = Ok s1 /\ ordered s1 /\
    low s <= low s1 /\ high s1 <= high s.
Proof.
  intros Hv Hs Hn. rewrite (narrow_eq _ _ _ Hv Hs).
  eexists. split; [reflexivity|].
  unfold ordered.
  rewrite (low_set_low _ laws), (high_set_low _ laws),
    (high_set_high _ laws).
  pose proof (valid_cdf_bounds _ _ Hv Hs) as (Ha & Hab & HbT & HT).
  unfold normalized in Hn.
  rewrite half_range_eq, quarter_range_eq, full_range_eq in Hn.
  assert (HTR : last cum_freqs 0 <= high s - low s + 1).
  { lia. }
  pose proof (scaled_interval (sym_low cum_freqs symbol)
    (sym_high cum_freqs symbol) (last cum_freqs 0) (high s - low s + 1)
    Ha Hab HbT ltac:(lia) HTR).
  lia.
Qed.

(** From a normalised state, [update] returns a normalised state. *)
Lemma update_normalized (fuel : nat) (cum_freqs : list Z) (symbol : nat)
  (s : St) :
  (64 <= fuel)%nat ->
  valid_cdf cum_freqs -> (symbol < List.length cum_freqs)%nat ->
  normalized (low s) (high s) ->
  exists s', update fuel cum_freqs symbol s = Ok s' /\
    normalized (low s') (high s').
Proof.
  intros Hfuel Hv Hs Hn. unfold update.
  destruct (narrow_ordered _ _ _ Hv Hs Hn) as (s1 & -> & Ho & _).
  cbn [bind].
  destruct (shift_loop_terminates laws fuel s1 Hfuel) as (s2 & E2).
  rewrite E2. cbn [bind].
  destruct (while_loop_inv ordered shift_cond shift_body
    (shift_body_ordered laws) _ _ _ Ho E2) as (Ho2 & Hc2).
  pose proof (shift_cond_false s2 Ho2 Hc2) as Hst.
  destruct (underflow_loop_terminates laws fuel s2 Hfuel) as (s3 & E3).
  rewrite E3. exists s3. split; [reflexivity|].
  destruct (while_loop_inv straddling underflow_cond underflow_body
    (underflow_body_straddling laws) _ _ _ Hst E3) as (Ho3 & Hc3).
  now apply underflow_cond_false.
Qed.

Lemma update_all_normalized (fuel : nat) (pairs : list (list Z * nat))
  (s : St) :
  (64 <= fuel)%nat -> Forall valid_pair pairs ->
  normalized (low s) (high s) ->
  exists s', update_all fuel pairs s = Ok s' /\
    normalized (low s') (high s').
Proof.
  intros Hfuel Hp. revert s.
  induction Hp as [|[cum_freqs symbol] pairs [Hv Hs] _ IH]; intros s Hn.
  - exists s. split; [reflexivity|assumption].
  - cbn [update_all].
    destruct (update_normalized fuel cum_freqs symbol s Hfuel Hv Hs Hn)
      as (s1 & -> & Hn1).
    cbn [bind]. now apply IH.
Qed.

End Narrow.

Lemma normalized_gap (lo hi : Z) :
  normalized lo hi -> lo <= hi /\ quarter_range < hi - lo + 1.
Proof.
  unfold normalized.
  rewrite half_range_eq, quarter_range_eq, full_range_eq. lia.
Qed.

Lemma normalized_init : normalized 0 state_mask.
Proof.
  unfold normalized.
  rewrite half_range_eq, quarter_range_eq, full_range_eq.
  change state_mask with (2 ^ 64 - 1). lia.
Qed.

(** ** Bit streams *)

Lemma sbit_is_bit (bits : list Z) (i : nat) :
  Forall is_bit bits -> is_bit (sbit bits i).
Proof.
  intros Hb. unfold sbit.
  destruct (Nat.lt_ge_cases i (List.length bits)) as [Hi|Hi].
  - rewrite Forall_forall in Hb. apply Hb. now apply nth_In.
  - rewrite nth_overflow by assumption. now left.
Qed.

Lemma sbit_range (bits : list Z) (i : nat) :
  Forall is_bit bits -> 0 <= sbit bits i <= 1.
Proof. intros Hb. destruct (sbit_is_bit bits i Hb); lia. Qed.

Lemma sbit_app_l (e bits : list Z) (i : nat) :
  (i < List.length e)%nat -> sbit (e ++ bits) i = nth i e 0.
Proof. intros Hi. unfold sbit. now apply app_nth1. Qed.

Lemma sbit_app_r (e bits : list Z) (i : nat) :
  sbit (e ++ bits) (List.length e + i) = sbit bits i.
Proof.
  unfold sbit. rewrite app_nth2 by lia. f_equal. lia.
Qed.

Lemma window_range (bits : list Z) (k n : nat) :
  Forall is_bit bits -> 0 <= window bits k n < 2 ^ Z.of_nat n.
Proof.
  intros Hb. induction n as [|n IH]; [cbn; lia|].
  cbn [window]. pose proof (sbit_range bits (k + n) Hb).
  rewrite Nat2Z.inj_succ, Z.pow_succ_r by lia. lia.
Qed.

Lemma window_head (bits : list Z) (k n : nat) :
  window bits k (S n) = sbit bits k * 2 ^ Z.of_nat n + window bits (S k) n.
Proof.
  induction n as [|n IH].
  - cbn. rewrite Nat.add_0_r. lia.
  - change (window bits k (S (S n)))
      with (2 * window bits k (S n) + sbit bits (k + S n)).
    rewrite IH. cbn [window].
    rewrite Nat2Z.inj_succ, Z.pow_succ_r by lia.
    replace (S k + n)%nat with (k + S n)%nat by lia. lia.
Qed.

Lemma window_app_r (e bits : list Z) (k n : nat) :
  window (e ++ bits) (List.length e + k) n = window bits k n.
Proof.
  induction n as [|n IH]; [reflexivity|]. cbn [window]. rewrite IH.
  rewrite <- Nat.add_assoc, sbit_app_r. reflexivity.
Qed.

Lemma pending_code_0 (bits : list Z) :
  pending_code 0 bits = window bits 0 64.
Proof. unfold pending_code. rewrite (window_head bits 0 63). reflexivity. Qed.

Lemma pending_code_range (pending : nat) (bits : list Z) :
  Forall is_bit bits -> 0 <= pending_code pending bits < 2 ^ 64.
Proof.
  intros Hb. unfold pending_code.
  pose proof (sbit_range bits 0 Hb).
  pose proof (window_range bits (S pending) 63 Hb) as Hw.
  change (Z.of_nat 63) with 63 in Hw. lia.
Qed.

Lemma read_code_bit_sbit (inp : list Z) :
  fst (read_code_bit inp) = sbit inp 0 /\
  forall i, sbit (snd (read_code_bit inp)) i = sbit inp (S i).
Proof.
  destruct inp as [|b rest]; cbn; split; auto.
  intros i. unfold sbit. now destruct i.
Qed.

Lemma read_code_window (n : nat) (inp : list Z) (acc : Z) (k : nat) :
  forall bits,
    (forall i, sbit inp i = sbit bits (k + i)) ->
    fst (read_code n inp acc) = acc + window bits k n /\
    forall i, sbit (snd (read_code n inp acc)) i = sbit bits (k + n + i).
Proof.
  revert inp acc k. induction n as [|n IH]; intros inp acc k bits Hal.
  - cbn. split; [lia|]. intros i. rewrite Nat.add_0_r. apply Hal.
  - cbn [read_code].
    destruct (read_code_bit_sbit inp) as [Hb Hrest].
    destruct (read_code_bit inp) as [b rest]. cbn [fst snd] in Hb, Hrest.
    destruct (IH rest (acc + Z.shiftl b (Z.of_nat n)) (S k) bits) as [Hc Hi].
    { intros i. rewrite Hrest, Hal. f_equal. lia. }
    split.
    + rewrite Hc, window_head, Z.shiftl_mul_pow2 by lia.
      rewrite Hb, Hal, Nat.add_0_r. lia.
    + intros i. rewrite Hi. f_equal. lia.
Qed.

Lemma Decoder_init_reads (bits : list Z) :
  reads 0 bits (Decoder_init bits) /\
  dec_low (Decoder_init bits) = 0 /\
  dec_high (Decoder_init bits) = state_mask.
Proof.
  unfold Decoder_init.
  destruct (read_code_window (Z.to_nat NUM_STATE_BITS) bits 0 0 bits
              ltac:(reflexivity)) as [Hc Hi].
  destruct (read_code (Z.to_nat NUM_STATE_BITS) bits 0) as [c rest].
  cbn [fst snd] in Hc, Hi. unfold reads. cbn [code input dec_low dec_high].
  split; [|split; reflexivity]. split.
  - rewrite pending_code_0, Hc. reflexivity.
  - intros i. rewrite Hi. reflexivity.
Qed.

(** ** One renormalisation step, seen from the stream *)

Lemma top_bit (a : Z) :
  0 <= a < 2 ^ 64 ->
  Z.shiftr a (NUM_STATE_BITS - 1) = if 2 ^ 63 <=? a then 1 else 0.
Proof.
  intros Ha. change (NUM_STATE_BITS - 1) with 63.
  rewrite Z.shiftr_div_pow2 by lia.
  destruct (Z.leb_spec (2 ^ 63) a).
  - symmetry. apply Z.div_unique with (r := a - 2 ^ 63); lia.
  - apply Z.div_small. lia.
Qed.

Lemma window_S (bits : list Z) (k n : nat) :
  window bits k (S n) = 2 * window bits k n + sbit bits (k + n).
Proof. reflexivity. Qed.

Lemma lor_bit (a r : Z) : is_bit r -> Z.lor (2 * a) r = 2 * a + r.
Proof.
  intros [->| ->]; [rewrite Z.lor_0_r; lia | apply lor_1_even].
Qed.

(** A stream that starts with [S pending] bits [e] and goes on as
    [bits]. *)
Lemma sbit_past (e bits : list Z) (pending i : nat) :
  List.length e = S pending ->
  sbit (e ++ bits) (S pending + i) = sbit bits i.
Proof. intros <-. apply sbit_app_r. Qed.

Lemma window_past (e bits : list Z) (pending n : nat) :
  List.length e = S pending ->
  window (e ++ bits) (S pending) n = window bits 0 n.
Proof.
  intros <-. rewrite <- (window_app_r e bits 0 n). f_equal. lia.
Qed.

Lemma shifted_length (b c : Z) (pending : nat) :
  List.length (b :: repeat c pending) = S pending.
Proof. cbn. now rewrite repeat_length. Qed.

Lemma fits_shift (lo hi b : Z) (pending : nat) (bits : list Z) :
  0 <= lo -> lo <= hi -> hi < 2 ^ 64 ->
  (b = 0 /\ hi < 2 ^ 63) \/ (b = 1 /\ 2 ^ 63 <= lo) ->
  fits (2 * lo - b * 2 ^ 64) (2 * hi + 1 - b * 2 ^ 64) 0 bits ->
  fits lo hi pending ((b :: repeat (1 - b) pending) ++ bits).
Proof.
  intros Hlo Hlh Hhi Hb (Hbits & _ & Hc).
  assert (Hbit : is_bit b) by (unfold is_bit; lia).
  assert (Hbit' : is_bit (1 - b)) by (unfold is_bit; lia).
  split; [|split].
  - apply Forall_app. split; [|assumption].
    constructor; [assumption|]. apply Forall_forall.
    intros x Hx. apply repeat_spec in Hx. now subst.
  - intros j Hj. rewrite sbit_app_l by (rewrite shifted_length; lia).
    destruct j as [|j]; [lia|]. cbn [nth].
    rewrite nth_repeat_lt by lia. reflexivity.
  - unfold pending_code.
    rewrite (window_past _ bits pending 63 (shifted_length _ _ _)).
    rewrite pending_code_0 in Hc.
    rewrite (window_S bits 0 63) in Hc.
    pose proof (sbit_range bits (0 + 63) Hbits).
    pose proof (window_range bits 0 63 Hbits) as Hw.
    change (Z.of_nat 63) with 63 in Hw.
    change (sbit ((b :: repeat (1 - b) pending) ++ bits) 0) with b.
    lia.
Qed.

Lemma fits_underflow (lo hi : Z) (pending : nat) (bits : list Z) :
  2 ^ 62 <= lo < 2 ^ 63 -> 2 ^ 63 <= hi < 2 ^ 63 + 2 ^ 62 ->
  fits (2 * lo - 2 ^ 63) (2 * hi - 2 ^ 63 + 1) (S pending) bits ->
  fits lo hi pending bits.
Proof.
  intros Hlo Hhi (Hbits & Hpat & Hc).
  split; [assumption|]. split; [intros j Hj; apply Hpat; lia|].
  unfold pending_code in *.
  rewrite (window_head bits (S pending) 62).
  rewrite (Hpat (S pending)) by lia.
  rewrite (window_S bits (S (S pending)) 62) in Hc.
  pose proof (sbit_range bits 0 Hbits).
  pose proof (sbit_range bits (S (S pending) + 62) Hbits).
  pose proof (window_range bits (S (S pending)) 62 Hbits) as Hw.
  change (Z.of_nat 62) with 62 in *.
  assert (sbit bits 0 = 0 \/ sbit bits 0 = 1) as [E|E] by lia;
    rewrite E in *; lia.
Qed.

Lemma reads_shift (b c : Z) (pending : nat) (bits : list Z) (d : Decoder) :
  is_bit b -> Forall is_bit bits ->
  reads pending ((b :: repeat c pending) ++ bits) d ->
  reads 0 bits (shift_body d).
Proof.
  intros Hb Hbits [Hc Hi].
  unfold shift_body. cbn [shift set_low set_high low high Decoder_coder].
  unfold Decoder_shift.
  destruct (read_code_bit_sbit (input d)) as [Hr Hrest].
  destruct (read_code_bit (input d)) as [r rest]. cbn [fst snd] in Hr, Hrest.
  unfold reads. cbn [code input dec_low dec_high].
  assert (Er : r = sbit bits 63).
  { rewrite Hr, Hi.
    replace (pending + 64 + 0)%nat with (S pending + 63)%nat by lia.
    apply sbit_past, shifted_length. }
  split.
  - rewrite (pending_code_0 bits), shiftl1_mask, Hc. unfold pending_code.
    rewrite (window_past _ bits pending 63 (shifted_length _ _ _)).
    change (sbit ((b :: repeat c pending) ++ bits) 0) with b.
    pose proof (window_range bits 0 63 Hbits) as Hw.
    change (Z.of_nat 63) with 63 in Hw.
    assert (E : (2 * (b * 2 ^ 63 + window bits 0 63)) mod 2 ^ 64
                = 2 * window bits 0 63).
    { replace (2 * (b * 2 ^ 63 + window bits 0 63))
        with (2 * window bits 0 63 + b * 2 ^ 64) by lia.
      rewrite Z_mod_plus_full. apply Z.mod_small. lia. }
    rewrite E, lor_bit by (rewrite Er; now apply sbit_is_bit).
    rewrite (window_S bits 0 63), Er. reflexivity.
  - intros i. rewrite Hrest, Hi.
    replace (pending + 64 + S i)%nat with (S pending + (0 + 64 + i))%nat
      by lia.
    apply sbit_past, shifted_length.
Qed.

Lemma reads_underflow (pending : nat) (bits : list Z) (d : Decoder) :
  Forall is_bit bits ->
  reads pending bits d -> reads (S pending) bits (underflow_body d).
Proof.
  intros Hbits [Hc Hi].
  unfold underflow_body.
  cbn [underflow set_low set_high low high Decoder_coder].
  unfold Decoder_underflow.
  destruct (read_code_bit_sbit (input d)) as [Hr Hrest].
  destruct (read_code_bit (input d)) as [r rest]. cbn [fst snd] in Hr, Hrest.
  unfold reads. cbn [code input dec_low dec_high].
  assert (Er : r = sbit bits (S (S pending) + 62)).
  { rewrite Hr, Hi. f_equal. lia. }
  split.
  - pose proof (pending_code_range pending bits Hbits) as Hrange.
    rewrite <- Hc in Hrange.
    pose proof (sbit_range bits 0 Hbits) as H0.
    pose proof (sbit_range bits (S pending) Hbits) as H1.
    pose proof (window_range bits (S (S pending)) 62 Hbits) as Hw.
    change (Z.of_nat 62) with 62 in Hw.
    assert (Ecode : code d = sbit bits 0 * 2 ^ 63 + sbit bits (S pending) * 2 ^ 62
                             + window bits (S (S pending)) 62).
    { rewrite Hc. unfold pending_code.
      rewrite (window_head bits (S pending) 62).
      change (Z.of_nat 62) with 62. lia. }
    set (w := window bits (S (S pending)) 62) in *.
    assert (E1 : Z.land (code d) half_range = sbit bits 0 * 2 ^ 63).
    { rewrite half_range_eq, land_pow2 by lia.
      rewrite testbit_top by (change (63 + 1) with 64; lia).
      destruct (Z.leb_spec (2 ^ 63) (code d)); lia. }
    assert (E2 : Z.land (Z.shiftl (code d) 1) (Z.shiftr state_mask 1)
                 = 2 * w).
    { change (Z.shiftr state_mask 1) with (Z.ones 63).
      rewrite Z.land_ones, Z.shiftl_mul_pow2 by lia.
      replace (code d * 2 ^ 1)
        with (2 * w + (sbit bits 0 * 2 + sbit bits (S pending)) * 2 ^ 63)
        by lia.
      rewrite Z_mod_plus_full. apply Z.mod_small. lia. }
    rewrite E1, E2.
    assert (E3 : Z.lor (sbit bits 0 * 2 ^ 63) (2 * w)
                 = 2 * (sbit bits 0 * 2 ^ 62 + w)).
    { assert (sbit bits 0 = 0 \/ sbit bits 0 = 1) as [E|E] by lia; rewrite E.
      - rewrite Z.lor_0_l. lia.
      - rewrite Z.lor_comm. change (1 * 2 ^ 63) with (2 ^ 63).
        rewrite lor_pow2 by lia.
        rewrite testbit_top by (change (63 + 1) with 64; lia).
        destruct (Z.leb_spec (2 ^ 63) (2 * w)); lia. }
    rewrite E3, lor_bit by (rewrite Er; now apply sbit_is_bit).
    unfold pending_code.
    rewrite (window_S bits (S (S pending)) 62). fold w. rewrite Er. lia.
  - intros i. rewrite Hrest, Hi. f_equal. lia.
Qed.

(** ** The loops of [update] in the encoder and in the decoder *)

Lemma coupled_shift_cond (e : Encoder) (d : Decoder) :
  dec_low d = enc_low e -> dec_high d = enc_high e ->
  shift_cond d = shift_cond e.
Proof.
  intros El Eh. unfold shift_cond.
  cbn [low high Decoder_coder Encoder_coder]. now rewrite El, Eh.
Qed.

Lemma coupled_underflow_cond (e : Encoder) (d : Decoder) :
  dec_low d = enc_low e -> dec_high d = enc_high e ->
  underflow_cond d = underflow_cond e.
Proof.
  intros El Eh. unfold underflow_cond.
  cbn [low high Decoder_coder Encoder_coder]. now rewrite El, Eh.
Qed.

Lemma lxor_bit_1 (b : Z) : is_bit b -> Z.lxor b 1 = 1 - b.
Proof. intros [->| ->]; reflexivity. Qed.

(** What one iteration of the first loop appends to [encoded_data]. *)
Lemma Encoder_shift_body (e : Encoder) :
  ordered e -> shift_cond e = true ->
  exists b,
    ((b = 0 /\ high e < 2 ^ 63) \/ (b = 1 /\ 2 ^ 63 <= low e)) /\
    encoded_data (shift_body e)
    = encoded_data e ++ (b :: repeat (1 - b) (num_underflow e)) /\
    num_underflow (shift_body e) = O /\
    low (shift_body e) = 2 * low e - b * 2 ^ 64 /\
    high (shift_body e) = 2 * high e + 1 - b * 2 ^ 64.
Proof.
  intros Ho Hc. pose proof Ho as (Hl & Hlh & Hh).
  pose proof (shift_cond_true Encoder_laws e Ho Hc) as Hcases.
  assert (Hdata : encoded_data (shift_body e)
    = encoded_data e ++
      (Z.shiftr (low e) (NUM_STATE_BITS - 1)
       :: repeat (Z.lxor (Z.shiftr (low e) (NUM_STATE_BITS - 1)) 1)
            (num_underflow e))).
  { unfold shift_body, shift, set_low, set_high, low, Encoder_coder,
      Encoder_shift. cbn [encoded_data enc_low].
    rewrite <- app_assoc. reflexivity. }
  rewrite top_bit in Hdata by lia.
  destruct Hcases as [(Hhi & El & Eh)|(Hlo & El & Eh)].
  - exists 0. destruct (Z.leb_spec (2 ^ 63) (low e)); [lia|].
    split; [left; lia|]. split; [exact Hdata|]. split; [reflexivity|]. lia.
  - exists 1. destruct (Z.leb_spec (2 ^ 63) (low e)); [|lia].
    split; [right; lia|]. split; [exact Hdata|]. split; [reflexivity|]. lia.
Qed.

Lemma shift_loop_sim (fuel : nat) :
  forall e e' : Encoder,
    ordered e -> while_loop fuel shift_cond shift_body e = Ok e' ->
    exists out,
      encoded_data e' = encoded_data e ++ out /\ Forall is_bit out /\
      straddling e' /\
      (forall bits,
          fits (low e') (high e') (num_underflow e') bits ->
          fits (low e) (high e) (num_underflow e) (out ++ bits)) /\
      (forall bits d,
          Forall is_bit bits -> coupled e d (out ++ bits) ->
          exists d',
            while_loop fuel shift_cond shift_body d = Ok d' /\
            coupled e' d' bits).
Proof.
  induction fuel as [|fuel IH]; intros e e' Ho Hrun.
  - cbn [while_loop] in Hrun. destruct (shift_cond e) eqn:Hc; [discriminate|].
    injection Hrun as <-. exists []. rewrite app_nil_r.
    split; [reflexivity|]. split; [constructor|].
    split; [now apply shift_cond_false|]. split; [auto|].
    intros bits d _ Hcpl. exists d. split; [|exact Hcpl].
    destruct Hcpl as (El & Eh & _).
    cbn [while_loop]. rewrite (coupled_shift_cond e d El Eh), Hc. reflexivity.
  - cbn [while_loop] in Hrun. destruct (shift_cond e) eqn:Hc.
    + destruct (Encoder_shift_body e Ho Hc) as (b & Hb & Hdata & Hnu & El1 & Eh1).
      pose proof (shift_body_ordered Encoder_laws e Ho Hc) as Ho1.
      destruct (IH _ _ Ho1 Hrun) as (out & Hout & Hbits & Hst & Hfits & Hsim).
      assert (Hbit : is_bit b) by (unfold is_bit; lia).
      exists ((b :: repeat (1 - b) (num_underflow e)) ++ out).
      split; [rewrite Hout, Hdata, app_assoc; reflexivity|].
      split.
      { apply Forall_app. split; [|assumption].
        constructor; [assumption|]. apply Forall_forall.
        intros x Hx. apply repeat_spec in Hx. subst. unfold is_bit. lia. }
      split; [assumption|]. split.
      * intros bits Hf. rewrite <- app_assoc.
        destruct Ho as (Hl & Hlh & Hh).
        apply fits_shift; try assumption.
        rewrite <- El1, <- Eh1, <- Hnu. now apply Hfits.
      * intros bits d Hbs (El & Eh & Hr).
        rewrite <- app_assoc in Hr.
        assert (Hcpl1 : coupled (shift_body e) (shift_body d) (out ++ bits)).
        { split; [|split].
          - change (low (shift_body d) = low (shift_body e)).
            rewrite (low_shift_body Decoder_laws),
              (low_shift_body Encoder_laws).
            change (low d) with (dec_low d). rewrite El. reflexivity.
          - change (high (shift_body d) = high (shift_body e)).
            rewrite (high_shift_body Decoder_laws),
              (high_shift_body Encoder_laws).
            change (high d) with (dec_high d). rewrite Eh. reflexivity.
          - rewrite Hnu. apply (reads_shift b (1 - b) (num_underflow e));
              [assumption| |assumption].
            apply Forall_app. split; [|assumption].
            rewrite Forall_forall in *. auto. }
        destruct (Hsim bits _ Hbs Hcpl1) as (d' & Hrun' & Hcpl').
        exists d'. split; [|assumption].
        cbn [while_loop]. rewrite (coupled_shift_cond e d El Eh), Hc. exact Hrun'.
    + injection Hrun as <-. exists []. rewrite app_nil_r.
      split; [reflexivity|]. split; [constructor|].
      split; [now apply shift_cond_false|]. split; [auto|].
      intros bits d _ Hcpl. exists d. split; [|exact Hcpl].
      destruct Hcpl as (El & Eh & _).
      cbn [while_loop]. rewrite (coupled_shift_cond e d El Eh), Hc. reflexivity.
Qed.

Lemma underflow_loop_sim (fuel : nat) :
  forall e e' : Encoder,
    straddling e -> while_loop fuel underflow_cond underflow_body e = Ok e' ->
    encoded_data e' = encoded_data e /\
    normalized (low e') (high e') /\
    (forall bits,
        fits (low e') (high e') (num_underflow e') bits ->
        fits (low e) (high e) (num_underflow e) bits) /\
    (forall bits d,
        Forall is_bit bits -> coupled e d bits ->
        exists d',
          while_loop fuel underflow_cond underflow_body d = Ok d' /\
          coupled e' d' bits).
Proof.
  induction fuel as [|fuel IH]; intros e e' Hs Hrun.
  - cbn [while_loop] in Hrun. destruct (underflow_cond e) eqn:Hc; [discriminate|].
    injection Hrun as <-.
    split; [reflexivity|]. split; [now apply underflow_cond_false|].
    split; [auto|].
    intros bits d _ Hcpl. exists d. split; [|exact Hcpl].
    destruct Hcpl as (El & Eh & _).
    cbn [while_loop]. rewrite (coupled_underflow_cond e d El Eh), Hc. reflexivity.
  - cbn [while_loop] in Hrun. destruct (underflow_cond e) eqn:Hc.
    + destruct (underflow_cond_true Encoder_laws e Hs Hc)
        as (Hlo & Hhi & El1 & Eh1).
      pose proof (underflow_body_straddling Encoder_laws e Hs Hc) as Hs1.
      destruct (IH _ _ Hs1 Hrun) as (Hout & Hn & Hfits & Hsim).
      split; [exact Hout|]. split; [assumption|]. split.
      * intros bits Hf. destruct Hs as (Hl & Hh).
        apply fits_underflow; [lia|lia|].
        rewrite <- El1, <- Eh1. apply (Hfits bits Hf).
      * intros bits d Hbs (El & Eh & Hr).
        assert (Hcpl1 : coupled (underflow_body e) (underflow_body d) bits).
        { split; [|split].
          - change (low (underflow_body d) = low (underflow_body e)).
            rewrite (low_underflow_body Decoder_laws),
              (low_underflow_body Encoder_laws).
            change (low d) with (dec_low d). rewrite El. reflexivity.
          - change (high (underflow_body d) = high (underflow_body e)).
            assert (Ehd : high d = high e) by exact Eh.
            rewrite Eh1, <- Ehd. apply (high_underflow_body Decoder_laws).
            rewrite Ehd. destruct Hs as (Hl & Hh). lia.
          - apply (reads_underflow (num_underflow e)); assumption. }
        destruct (Hsim bits _ Hbs Hcpl1) as (d' & Hrun' & Hcpl').
        exists d'. split; [|assumption].
        cbn [while_loop]. rewrite (coupled_underflow_cond e d El Eh), Hc. exact Hrun'.
    + injection Hrun as <-.
      split; [reflexivity|]. split; [now apply underflow_cond_false|].
      split; [auto|].
      intros bits d _ Hcpl. exists d. split; [|exact Hcpl].
      destruct Hcpl as (El & Eh & _).
      cbn [while_loop]. rewrite (coupled_underflow_cond e d El Eh), Hc. reflexivity.
Qed.

(** ** One symbol through the encoder and through the decoder *)

Lemma decode_value (a b T R off : Z) :
  0 < T -> 0 < R -> a * R / T <= off -> off <= b * R / T - 1 ->
  a <= ((off + 1) * T - 1) / R < b.
Proof.
  intros HT HR Hlo Hhi. split.
  - apply Z.div_le_lower_bound; [assumption|].
    pose proof (Z.mul_succ_div_gt (a * R) T HT). nia.
  - apply Z.div_lt_upper_bound; [assumption|].
    pose proof (Z.mul_div_le (b * R) T HT). nia.
Qed.

Lemma fits_widen (lo hi lo' hi' : Z) (pending : nat) (bits : list Z) :
  lo' <= lo -> hi <= hi' ->
  fits lo hi pending bits -> fits lo' hi' pending bits.
Proof. intros Hl Hh (Hb & Hp & Hc). repeat split; try assumption; lia. Qed.

Lemma last_item_valid (cum_freqs : list Z) :
  valid_cdf cum_freqs -> last_item cum_freqs = Ok (last cum_freqs 0).
Proof. intros (Hne & _). destruct cum_freqs; [contradiction|reflexivity]. Qed.

Lemma encode_symbol_sim (fuel : nat) (cum_freqs : list Z) (symbol : nat)
  (e : Encoder) :
  (64 <= fuel)%nat ->
  valid_cdf cum_freqs -> (symbol < List.length cum_freqs)%nat ->
  normalized (low e) (high e) ->
  exists e' out,
    encode_symbol fuel cum_freqs symbol e = Ok e' /\
    normalized (low e') (high e') /\
    encoded_data e' = encoded_data e ++ out /\ Forall is_bit out /\
    (forall bits,
        fits (low e') (high e') (num_underflow e') bits ->
        fits (low e) (high e) (num_underflow e) (out ++ bits)) /\
    (forall bits d,
        fits (low e') (high e') (num_underflow e') bits ->
        coupled e d (out ++ bits) ->
        exists d',
          decode_symbol fuel cum_freqs d = Ok (symbol, d') /\
          coupled e' d' bits).
Proof.
  intros Hfuel Hv Hs Hn.
  pose proof (valid_cdf_bounds _ _ Hv Hs) as (Ha & Hab & HbT & HT).
  destruct (narrow_ordered Encoder_laws _ _ _ Hv Hs Hn)
    as (e1 & Hnar & Ho1 & Hlo1 & Hhi1).
  pose proof Hnar as Hnar'.
  rewrite (narrow_eq Encoder_laws _ _ _ Hv Hs) in Hnar'.
  injection Hnar' as He1.
  assert (Hnu1 : num_underflow e1 = num_underflow e) by (now subst e1).
  assert (Hdata1 : encoded_data e1 = encoded_data e) by (now subst e1).
  assert (El1 : low e1 = low e + sym_low cum_freqs symbol
                    * (high e - low e + 1) / last cum_freqs 0)
    by (now subst e1).
  assert (Eh1 : high e1 = low e + sym_high cum_freqs symbol
                    * (high e - low e + 1) / last cum_freqs 0 - 1)
    by (now subst e1).
  clear He1.
  destruct (shift_loop_terminates Encoder_laws fuel e1 Hfuel) as (e2 & E2).
  destruct (shift_loop_sim fuel e1 e2 Ho1 E2)
    as (out & Hout & Hbits & Hst2 & Hfits2 & Hsim2).
  destruct (underflow_loop_terminates Encoder_laws fuel e2 Hfuel)
    as (e3 & E3).
  destruct (underflow_loop_sim fuel e2 e3 Hst2 E3)
    as (Hdata3 & Hn3 & Hfits3 & Hsim3).
  assert (Hfits1 : forall bits,
    fits (low e3) (high e3) (num_underflow e3) bits ->
    fits (low e1) (high e1) (num_underflow e) (out ++ bits)).
  { intros bits Hf. rewrite <- Hnu1. apply Hfits2, Hfits3, Hf. }
  exists e3, out.
  split.
  { unfold encode_symbol, update. rewrite Hnar. cbn [bind].
    rewrite E2. cbn [bind]. exact E3. }
  split; [assumption|].
  split; [rewrite Hdata3, Hout, Hdata1; reflexivity|].
  split; [assumption|]. split.
  - intros bits Hf. apply (fits_widen (low e1) (high e1)); auto.
  - intros bits d Hf (El & Eh & Hr).
    pose proof (Hfits1 bits Hf) as (Hall & _ & Hc).
    destruct Hr as [Hcode Hinp].
    assert (Hbs : Forall is_bit bits).
    { apply Forall_app in Hall. tauto. }
    change (low e) with (enc_low e) in *.
    change (high e) with (enc_high e) in *.
    unfold normalized in Hn.
    rewrite half_range_eq, quarter_range_eq, full_range_eq in Hn.
    set (R := enc_high e - enc_low e + 1) in *.
    set (T := last cum_freqs 0) in *.
    assert (HR : T <= R) by (subst R; lia).
    assert (Hval : sym_low cum_freqs symbol
                   <= ((code d - dec_low d + 1) * T - 1) / R
                   < sym_high cum_freqs symbol).
    { apply decode_value; try lia; rewrite Hcode, El; lia. }
    pose proof (searchsorted_right_spec _ _ _ Hv Hs Hval) as Hsym.
    set (d1 := set_low
                 (low d + sym_low cum_freqs symbol * (high d - low d + 1) / T)
                 (set_high
                    (low d + sym_high cum_freqs symbol * (high d - low d + 1)
                             / T - 1) d)).
    assert (Hnd : narrow cum_freqs symbol d = Ok d1)
      by (apply (narrow_eq Decoder_laws); assumption).
    assert (Hcpl1 : coupled e1 d1 (out ++ bits)).
    { subst d1. unfold coupled.
      cbn [low high set_low set_high Decoder_coder dec_low dec_high].
      rewrite El, Eh. fold R.
      change (low e1) with (enc_low e1) in El1.
      change (high e1) with (enc_high e1) in Eh1.
      rewrite El1, Eh1, Hnu1.
      split; [reflexivity|]. split; [reflexivity|].
      split; [exact Hcode|exact Hinp]. }
    destruct (Hsim2 bits d1 Hbs Hcpl1) as (d2 & Ed2 & Hcpl2).
    destruct (Hsim3 bits d2 Hbs Hcpl2) as (d3 & Ed3 & Hcpl3).
    exists d3. split; [|assumption].
    unfold decode_symbol. rewrite (last_item_valid _ Hv). cbn [bind].
    rewrite El, Eh. fold R. fold T.
    destruct (Z.eqb_spec R 0) as [HR0|_]; [lia|].
    rewrite <- El. rewrite Hsym.
    unfold update. rewrite Hnd. cbn [bind]. rewrite Ed2. cbn [bind].
    rewrite Ed3. reflexivity.
Qed.

(** ** A whole stream *)

Lemma window_zeros (bits : list Z) (k n : nat) :
  (forall i, sbit bits (k + i) = 0) -> window bits k n = 0.
Proof.
  intros Hz. induction n as [|n IH]; [reflexivity|].
  rewrite window_S, IH, Hz. reflexivity.
Qed.

Lemma terminator_fits (lo hi : Z) (pending : nat) (bits : list Z) :
  normalized lo hi -> terminator bits -> fits lo hi pending bits.
Proof.
  intros Hn (Hb & H0 & Hz).
  unfold normalized in Hn.
  rewrite half_range_eq, quarter_range_eq, full_range_eq in Hn.
  split; [assumption|]. split.
  - intros j Hj. rewrite H0, Hz by lia. reflexivity.
  - unfold pending_code. rewrite H0, window_zeros; [lia|].
    intros i. apply Hz. lia.
Qed.

Lemma terminator_finish (k : nat) : terminator (1 :: repeat 0 k).
Proof.
  split; [|split].
  - constructor; [now right|]. apply Forall_forall.
    intros x Hx. apply repeat_spec in Hx. now left.
  - reflexivity.
  - intros j Hj. destruct j as [|j]; [lia|]. unfold sbit. cbn [nth].
    destruct (Nat.lt_ge_cases j k).
    + now rewrite nth_repeat_lt.
    + apply nth_overflow. now rewrite repeat_length.
Qed.

(** Encoding a list of pairs writes a stream that, closed by a
    terminator, names a point of the interval the encoder started from;
    a decoder in front of that stream returns the symbols one by one. *)
Lemma encode_symbols_sim (fuel : nat) (pairs : list (list Z * nat)) :
  (64 <= fuel)%nat -> Forall valid_pair pairs ->
  forall e : Encoder,
    normalized (low e) (high e) ->
    exists e' out,
      encode_symbols fuel pairs e = Ok e' /\
      normalized (low e') (high e') /\
      encoded_data e' = encoded_data e ++ out /\ Forall is_bit out /\
      forall tail, terminator tail ->
        fits (low e) (high e) (num_underflow e) (out ++ tail) /\
        forall d, coupled e d (out ++ tail) ->
          exists d',
            decode_symbols fuel (map fst pairs) d = Ok (map snd pairs, d') /\
            coupled e' d' tail.
Proof.
  intros Hfuel Hp.
  induction Hp as [|[cum_freqs symbol] pairs [Hv Hs] _ IH]; intros e Hn.
  - exists e, []. cbn [encode_symbols]. rewrite app_nil_r.
    split; [reflexivity|]. split; [assumption|]. split; [reflexivity|].
    split; [constructor|]. intros tail Ht. cbn [app]. split.
    + now apply terminator_fits.
    + intros d Hcpl. exists d. split; [reflexivity|assumption].
  - cbn [fst snd] in Hv, Hs.
    destruct (encode_symbol_sim fuel cum_freqs symbol e Hfuel Hv Hs Hn)
      as (e1 & out1 & Henc & Hn1 & Hdata1 & Hbits1 & Hfits1 & Hdec1).
    destruct (IH e1 Hn1) as (e' & out2 & Henc2 & Hn' & Hdata2 & Hbits2 & Hrest).
    exists e', (out1 ++ out2). cbn [encode_symbols]. rewrite Henc. cbn [bind].
    split; [assumption|]. split; [assumption|].
    split; [rewrite Hdata2, Hdata1, app_assoc; reflexivity|].
    split; [apply Forall_app; now split|].
    intros tail Ht. destruct (Hrest tail Ht) as (Hf2 & Hd2).
    rewrite <- app_assoc. split; [now apply Hfits1|].
    intros d Hcpl.
    destruct (Hdec1 _ d Hf2 Hcpl) as (d1 & Hds & Hcpl1).
    destruct (Hd2 d1 Hcpl1) as (d' & Hds' & Hcpl').
    exists d'. split; [|assumption].
    cbn [decode_symbols map fst snd]. rewrite Hds. cbn [bind snd fst].
    rewrite Hds'. reflexivity.
Qed.

Lemma coupled_init (bits : list Z) :
  coupled Encoder_init (Decoder_init bits) bits.
Proof.
  destruct (Decoder_init_reads bits) as (Hr & El & Eh).
  split; [exact El|]. split; [exact Eh|exact Hr].
Qed.

(** C2. Coder closure: for every list of (table, symbol) pairs whose
    tables are strictly increasing positive integers with total at most
    2^62 and whose symbols index their table, [encode_symbol] on every
    pair followed by [finish] returns a bit list, and a [Decoder] built
    from that list, asked [decode_symbol] with the same tables in the
    same order, returns exactly the symbols that were encoded. *)
Theorem coder_closure (fuel : nat) (pairs : list (list Z * nat)) :
  (64 <= fuel)%nat -> Forall valid_pair pairs ->
  exists e d,
    encode_symbols fuel pairs Encoder_init = Ok e /\
    decode_symbols fuel (map fst pairs)
      (Decoder_init (get_encoded (finish e)))
    = Ok (map snd pairs, d).
Proof.
  intros Hfuel Hp.
  destruct (encode_symbols_sim fuel pairs Hfuel Hp Encoder_init
              normalized_init)
    as (e & out & Henc & _ & Hdata & _ & Hrest).
  cbn [encoded_data Encoder_init app] in Hdata.
  destruct (Hrest [1] (terminator_finish 0)) as (_ & Hdec).
  destruct (Hdec (Decoder_init (out ++ [1])) (coupled_init _))
    as (d & Hds & _).
  exists e, d. split; [assumption|].
  unfold get_encoded, finish. cbn [encoded_data]. rewrite Hdata.
  exact Hds.
Qed.

Lemma valid_pair_example : Forall valid_pair [([3; 5; 8], 1%nat); ([1; 2; 3; 4], 2%nat)].
Proof.
  repeat constructor; cbn; try lia; try discriminate.
  all: rewrite quarter_range_eq; lia.
Qed.

Lemma coder_closure_witness :
  (64 <= 64)%nat /\
  Forall valid_pair [([3; 5; 8], 1%nat); ([1; 2; 3; 4], 2%nat)] /\
  exists e d,
    encode_symbols 64 [([3; 5; 8], 1%nat); ([1; 2; 3; 4], 2%nat)]
      Encoder_init = Ok e /\
    decode_symbols 64 [[3; 5; 8]; [1; 2; 3; 4]]
      (Decoder_init (get_encoded (finish e)))
    = Ok ([1%nat; 2%nat], d).
Proof.
  split; [lia|]. split; [exact valid_pair_example|].
  exact (coder_closure 64 [([3; 5; 8], 1%nat); ([1; 2; 3; 4], 2%nat)]
           (le_n 64) valid_pair_example).
Defined.

(** ** The decoder in front of any bit list *)


Lemma decode_value_inv (a b T R off : Z) :
  0 < T -> 0 < R -> a <= ((off + 1) * T - 1) / R < b ->
  a * R / T <= off <= b * R / T - 1.
Proof.
  intros HT HR [Hlo Hhi].
  pose proof (Z.mul_div_le ((off + 1) * T - 1) R HR).
  pose proof (Z.mul_succ_div_gt ((off + 1) * T - 1) R HR).
  split.
  - assert (a * R / T < off + 1); [|lia].
    apply Z.div_lt_upper_bound; [assumption|]. nia.
  - assert (off + 1 <= b * R / T); [|lia].
    apply Z.div_le_lower_bound; [assumption|]. nia.
Qed.

Lemma Decoder_shift_body_code (d : Decoder) :
  0 <= code d < 2 ^ 64 -> (forall i, is_bit (sbit (input d) i)) ->
  exists r, is_bit r /\
    code (shift_body d) = (2 * code d) mod 2 ^ 64 + r /\
    forall i, is_bit (sbit (input (shift_body d)) i).
Proof.
  intros Hc Hb.
  unfold shift_body. cbn [shift set_low set_high low high Decoder_coder].
  unfold Decoder_shift.
  destruct (read_code_bit_sbit (input d)) as [Hr Hrest].
  destruct (read_code_bit (input d)) as [r rest]. cbn [fst snd] in Hr, Hrest.
  cbn [code input dec_low dec_high].
  assert (Hbit : is_bit r) by (rewrite Hr; apply Hb).
  exists r. split; [assumption|]. split.
  - rewrite shiftl1_mask.
    assert (E : (2 * code d) mod 2 ^ 64 = 2 * (code d mod 2 ^ 63)).
    { change (2 ^ 64) with (2 * 2 ^ 63). now rewrite Zmult_mod_distr_l. }
    rewrite E. now apply lor_bit.
  - intros i. rewrite Hrest. apply Hb.
Qed.

Lemma Decoder_underflow_body_code (d : Decoder) :
  2 ^ 62 <= code d < 2 ^ 63 + 2 ^ 62 ->
  (forall i, is_bit (sbit (input d) i)) ->
  exists r, is_bit r /\
    code (underflow_body d) = 2 * code d - 2 ^ 63 + r /\
    forall i, is_bit (sbit (input (underflow_body d)) i).
Proof.
  intros Hc Hb.
  unfold underflow_body.
  cbn [underflow set_low set_high low high Decoder_coder].
  unfold Decoder_underflow.
  destruct (read_code_bit_sbit (input d)) as [Hr Hrest].
  destruct (read_code_bit (input d)) as [r rest]. cbn [fst snd] in Hr, Hrest.
  cbn [code input dec_low dec_high].
  assert (Hbit : is_bit r) by (rewrite Hr; apply Hb).
  exists r. split; [assumption|]. split; [|intros i; rewrite Hrest; apply Hb].
  rewrite half_range_eq, land_pow2 by lia.
  rewrite testbit_top by (change (63 + 1) with 64; lia).
  change (Z.shiftr state_mask 1) with (Z.ones 63).
  rewrite Z.land_ones, Z.shiftl_mul_pow2 by lia.
  destruct (Z.leb_spec (2 ^ 63) (code d)) as [Hge|Hlt].
  - assert (E : (code d * 2 ^ 1) mod 2 ^ 63 = 2 * (code d - 2 ^ 63)).
    { replace (code d * 2 ^ 1) with (2 * (code d - 2 ^ 63) + 2 * 2 ^ 63)
        by lia.
      rewrite Z_mod_plus_full. apply Z.mod_small. lia. }
    rewrite E, (Z.lor_comm (2 ^ 63)), lor_pow2 by lia.
    rewrite testbit_top by (change (63 + 1) with 64; lia).
    destruct (Z.leb_spec (2 ^ 63) (2 * (code d - 2 ^ 63))); [lia|].
    replace (2 * (code d - 2 ^ 63) + 2 ^ 63) with (2 * (code d - 2 ^ 62))
      by lia.
    rewrite lor_bit by assumption. lia.
  - assert (E : (code d * 2 ^ 1) mod 2 ^ 63 = 2 * (code d - 2 ^ 62)).
    { replace (code d * 2 ^ 1) with (2 * (code d - 2 ^ 62) + 1 * 2 ^ 63)
        by lia.
      rewrite Z_mod_plus_full. apply Z.mod_small. lia. }
    rewrite E, Z.lor_0_l, lor_bit by assumption. lia.
Qed.

Lemma shift_body_tracking (d : Decoder) :
  ordered d /\ tracking d -> shift_cond d = true ->
  ordered (shift_body d) /\ tracking (shift_body d).
Proof.
  intros [Ho [Hc Hb]] Hcond. pose proof Ho as (Hl & Hlh & Hh).
  split; [now apply (shift_body_ordered Decoder_laws)|].
  change (low d) with (dec_low d) in *. change (high d) with (dec_high d) in *.
  destruct (Decoder_shift_body_code d ltac:(lia) Hb)
    as (r & Hr & Ecode & Hb').
  split; [|assumption].
  change (dec_low (shift_body d)) with (low (shift_body d)).
  change (dec_high (shift_body d)) with (high (shift_body d)).
  rewrite Ecode.
  assert (0 <= r <= 1) by (destruct Hr; lia).
  destruct (shift_cond_true Decoder_laws d Ho Hcond)
    as [(Hhi & -> & ->)|(Hlo & -> & ->)];
    change (low d) with (dec_low d) in *;
    change (high d) with (dec_high d) in *.
  - rewrite Z.mod_small by lia. lia.
  - replace (2 * code d) with (2 * code d - 2 ^ 64 + 1 * 2 ^ 64) by lia.
    rewrite Z_mod_plus_full, Z.mod_small by lia. lia.
Qed.

Lemma underflow_body_tracking (d : Decoder) :
  straddling d /\ tracking d -> underflow_cond d = true ->
  straddling (underflow_body d) /\ tracking (underflow_body d).
Proof.
  intros [Hs [Hc Hb]] Hcond. pose proof Hs as (Hl & Hh).
  split; [now apply (underflow_body_straddling Decoder_laws)|].
  destruct (underflow_cond_true Decoder_laws d Hs Hcond)
    as (Hlo & Hhi & El & Eh).
  change (low d) with (dec_low d) in *. change (high d) with (dec_high d) in *.
  destruct (Decoder_underflow_body_code d ltac:(lia) Hb)
    as (r & Hr & Ecode & Hb').
  split; [|assumption].
  change (dec_low (underflow_body d)) with (low (underflow_body d)).
  change (dec_high (underflow_body d)) with (high (underflow_body d)).
  rewrite Ecode, El, Eh.
  assert (0 <= r <= 1) by (destruct Hr; lia). lia.
Qed.

Lemma decode_symbol_tracking (fuel : nat) (cum_freqs : list Z)
  (d : Decoder) :
  (64 <= fuel)%nat -> valid_cdf cum_freqs ->
  normalized (low d) (high d) -> tracking d ->
  exists symbol d',
    decode_symbol fuel cum_freqs d = Ok (symbol, d') /\
    (symbol < List.length cum_freqs)%nat /\
    normalized (low d') (high d') /\ tracking d'.
Proof.
  intros Hfuel Hv Hn [Hc Hb].
  pose proof Hv as (Hne & Hinc & Htot). rewrite quarter_range_eq in Htot.
  pose proof Hn as Hn'. unfold normalized in Hn'.
  rewrite half_range_eq, quarter_range_eq, full_range_eq in Hn'.
  change (low d) with (dec_low d) in *. change (high d) with (dec_high d) in *.
  set (R := dec_high d - dec_low d + 1) in *.
  set (T := last cum_freqs 0) in *.
  assert (HT : 0 < T).
  { assert (Hlen : (0 < List.length cum_freqs)%nat).
    { destruct cum_freqs; [contradiction|cbn; lia]. }
    pose proof (valid_cdf_bounds cum_freqs 0 Hv Hlen). subst T. lia. }
  assert (HR : T <= R) by (subst R; lia).
  set (v := ((code d - dec_low d + 1) * T - 1) / R).
  assert (Hv0 : 0 <= v < T).
  { subst v. split.
    - apply Z.div_pos; nia.
    - apply Z.div_lt_upper_bound; nia. }
  destruct (searchsorted_right_found 0 cum_freqs v Hinc Hv0)
    as (Hs & Hlo & Hhi).
  set (symbol := searchsorted_right cum_freqs v) in *.
  assert (Hval : sym_low cum_freqs symbol <= v < sym_high cum_freqs symbol)
    by (unfold sym_low, sym_high; lia).
  pose proof (decode_value_inv _ _ T R (code d - dec_low d)
                HT ltac:(lia) Hval) as Hoff.
  destruct (narrow_ordered Decoder_laws _ _ _ Hv Hs Hn)
    as (d1 & Hnar & Ho1 & _ & _).
  pose proof Hnar as Hnar'.
  rewrite (narrow_eq Decoder_laws _ _ _ Hv Hs) in Hnar'.
  injection Hnar' as He1.
  assert (Htr1 : tracking d1).
  { subst d1. unfold tracking.
    cbn [low high set_low set_high Decoder_coder dec_low dec_high code input].
    fold R. fold T. split; [lia|assumption]. }
  clear He1.
  destruct (shift_loop_terminates Decoder_laws fuel d1 Hfuel) as (d2 & E2).
  destruct (while_loop_inv (fun d => ordered d /\ tracking d)
              shift_cond shift_body shift_body_tracking _ _ _
              (conj Ho1 Htr1) E2) as ((Ho2 & Htr2) & Hc2).
  pose proof (shift_cond_false d2 Ho2 Hc2) as Hst2.
  destruct (underflow_loop_terminates Decoder_laws fuel d2 Hfuel)
    as (d3 & E3).
  destruct (while_loop_inv (fun d => straddling d /\ tracking d)
              underflow_cond underflow_body underflow_body_tracking _ _ _
              (conj Hst2 Htr2) E3) as ((Hst3 & Htr3) & Hc3).
  exists symbol, d3. split.
  - unfold decode_symbol. rewrite (last_item_valid _ Hv). cbn [bind].
    fold R. fold T.
    destruct (Z.eqb_spec R 0) as [HR0|_]; [lia|].
    fold v. fold symbol.
    unfold update. rewrite Hnar. cbn [bind]. rewrite E2. cbn [bind].
    rewrite E3. reflexivity.
  - split; [assumption|]. split; [|assumption].
    now apply underflow_cond_false.
Qed.

Lemma decode_symbols_tracking (fuel : nat) (tables : list (list Z)) :
  (64 <= fuel)%nat -> Forall valid_cdf tables ->
  forall d : Decoder,
    normalized (low d) (high d) -> tracking d ->
    exists symbols d',
      decode_symbols fuel tables d = Ok (symbols, d') /\
      normalized (low d') (high d') /\ tracking d'.
Proof.
  intros Hfuel Ht.
  induction Ht as [|cum_freqs tables Hv _ IH]; intros d Hn Htr.
  - exists [], d. now split.
  - destruct (decode_symbol_tracking fuel cum_freqs d Hfuel Hv Hn Htr)
      as (symbol & d1 & Hd & _ & Hn1 & Htr1).
    destruct (IH d1 Hn1 Htr1) as (symbols & d' & Hds & Hn' & Htr').
    exists (symbol :: symbols), d'. split; [|now split].
    cbn [decode_symbols]. rewrite Hd. cbn [bind fst snd]. rewrite Hds.
    reflexivity.
Qed.

Lemma Decoder_init_tracking (bits : list Z) :
  Forall is_bit bits ->
  normalized (low (Decoder_init bits)) (high (Decoder_init bits)) /\
  tracking (Decoder_init bits).
Proof.
  intros Hb. destruct (Decoder_init_reads bits) as ([Hc Hi] & El & Eh).
  change (low (Decoder_init bits)) with (dec_low (Decoder_init bits)).
  change (high (Decoder_init bits)) with (dec_high (Decoder_init bits)).
  rewrite El, Eh. split; [exact normalized_init|].
  unfold tracking. rewrite El, Eh, Hc.
  pose proof (pending_code_range 0 bits Hb).
  change state_mask with (2 ^ 64 - 1). split; [lia|].
  intros i. rewrite Hi. now apply sbit_is_bit.
Qed.

Lemma encode_symbols_update_all (fuel : nat) (pairs : list (list Z * nat))
  (e : Encoder) :
  encode_symbols fuel pairs e = update_all fuel pairs e.
Proof.
  revert e. induction pairs as [|[cum_freqs symbol] pairs IH]; intros e;
    [reflexivity|].
  cbn [encode_symbols update_all]. unfold encode_symbol.
  destruct (update fuel cum_freqs symbol e); cbn [bind]; auto.
Qed.

(** C5. Interval non-empty: from the initial state (low = 0,
    high = 2^64 - 1) of any coder, every sequence of [update] calls on
    strictly increasing positive tables of total at most 2^62 with symbols
    in range returns, and leaves [high >= low] and
    [high - low + 1 >= QUARTER / 2] (which is 2^61, hence also at least
    2^60); and a decoder built from any bit list keeps
    [low <= code <= high] after every [update] it makes, those of
    [decode_symbol]. *)
Theorem interval_invariant (fuel : nat) (pairs : list (list Z * nat))
  (bits : list Z) (tables : list (list Z)) :
  (64 <= fuel)%nat -> Forall valid_pair pairs ->
  Forall is_bit bits -> Forall valid_cdf tables ->
  (forall (St : Type) (C : ArithmeticCoderBase St) (s0 : St),
      coder_laws St -> low s0 = 0 -> high s0 = state_mask ->
      exists s,
        update_all fuel pairs s0 = Ok s /\
        low s <= high s /\
        quarter_range / 2 <= high s - low s + 1 /\
        2 ^ 60 <= high s - low s + 1) /\
  (exists e,
      encode_symbols fuel pairs Encoder_init = Ok e /\
      enc_low e <= enc_high e /\
      quarter_range / 2 <= enc_high e - enc_low e + 1) /\
  (exists symbols d,
      decode_symbols fuel tables (Decoder_init bits) = Ok (symbols, d) /\
      dec_low d <= code d <= dec_high d /\
      dec_low d <= dec_high d /\
      quarter_range / 2 <= dec_high d - dec_low d + 1).
Proof.
  intros Hfuel Hp Hb Ht.
  assert (Hgen : forall (St : Type) (C : ArithmeticCoderBase St) (s0 : St),
      coder_laws St -> low s0 = 0 -> high s0 = state_mask ->
      exists s,
        update_all fuel pairs s0 = Ok s /\
        low s <= high s /\
        quarter_range / 2 <= high s - low s + 1 /\
        2 ^ 60 <= high s - low s + 1).
  { intros St C s0 laws El Eh.
    destruct (update_all_normalized laws fuel pairs s0 Hfuel Hp)
      as (s & Hrun & Hn).
    { rewrite El, Eh. exact normalized_init. }
    exists s. split; [assumption|].
    apply normalized_gap in Hn. rewrite quarter_range_eq in Hn.
    change (quarter_range / 2) with (2 ^ 61). lia. }
  split; [exact Hgen|]. split.
  - destruct (Hgen Encoder Encoder_coder Encoder_init Encoder_laws
                eq_refl eq_refl) as (e & Hrun & Hle & Hq & _).
    exists e. rewrite encode_symbols_update_all. auto.
  - destruct (Decoder_init_tracking bits Hb) as [Hn Htr].
    destruct (decode_symbols_tracking fuel tables Hfuel Ht _ Hn Htr)
      as (symbols & d & Hrun & Hn' & [Hc _]).
    exists symbols, d. split; [assumption|]. split; [assumption|].
    apply normalized_gap in Hn'. rewrite quarter_range_eq in Hn'.
    change (low d) with (dec_low d) in Hn'.
    change (high d) with (dec_high d) in Hn'.
    change (quarter_range / 2) with (2 ^ 61). lia.
Qed.

Lemma valid_cdf_example : valid_cdf [3; 5; 8].
Proof.
  split; [discriminate|]. split; [cbn; lia|].
  cbn [last]. rewrite quarter_range_eq. lia.
Qed.

Lemma interval_invariant_witness :
  (exists e,
      encode_symbols 64 [([3; 5; 8], 1%nat); ([1; 2; 3; 4], 2%nat)]
        Encoder_init = Ok e /\
      enc_low e <= enc_high e /\
      quarter_range / 2 <= enc_high e - enc_low e + 1) /\
  (exists symbols d,
      decode_symbols 64 [[3; 5; 8]] (Decoder_init [1; 0; 1])
      = Ok (symbols, d) /\
      dec_low d <= code d <= dec_high d /\
      dec_low d <= dec_high d /\
      quarter_range / 2 <= dec_high d - dec_low d + 1).
Proof.
  apply (interval_invariant 64 [([3; 5; 8], 1%nat); ([1; 2; 3; 4], 2%nat)]
           [1; 0; 1] [[3; 5; 8]]).
  - apply le_n.
  - exact valid_pair_example.
  - repeat constructor; unfold is_bit; lia.
  - constructor; [exact valid_cdf_example|constructor].
Defined.

(** ** The near-convergence loop and the wording of section 4.1 *)



(** C3, as worded, fails: on the interval of symbol 1 of the table
    3, 5, 8 the second loop is entered, and the words the source assigns
    are not those of the wording ((low XOR HALF) << 1 and
    ((high XOR HALF) << 1) | 1, masked): the wording leaves low above
    high, and [update] built on it returns another state. *)
Lemma underflow_wording_counterexample :
  narrow [3; 5; 8] 1 Encoder_init = Ok near_convergence_state /\
  shift_cond near_convergence_state = false /\
  underflow_cond near_convergence_state = true /\
  low (underflow_body near_convergence_state) = 2 ^ 62 /\
  low (spec_underflow_body near_convergence_state) = 2 ^ 63 + 2 ^ 62 /\
  high (underflow_body near_convergence_state) = 2 ^ 63 + 2 ^ 62 - 1 /\
  high (spec_underflow_body near_convergence_state) = 2 ^ 62 - 1 /\
  update 64 [3; 5; 8] 1 Encoder_init = Ok (mkEncoder 0 state_mask [] 2) /\
  update 64 [3; 5; 8] 1 Encoder_init
  <> spec_update 64 [3; 5; 8] 1 Encoder_init.
Proof.
  repeat split; try (vm_compute; reflexivity).
  vm_compute. discriminate.
Qed.

Section NearConvergence.
Context {St : Type} `{ArithmeticCoderBase St}.
Hypothesis laws : coder_laws St.

Lemma spec_underflow_body_words (s : St) :
  2 ^ 62 <= low s < 2 ^ 63 -> 2 ^ 63 <= high s < 2 ^ 63 + 2 ^ 62 ->
  low (spec_underflow_body s) = 2 * low s /\
  high (spec_underflow_body s) = 2 * high s - 2 ^ 64 + 1.
Proof.
  intros Hl Hh. unfold spec_underflow_body.
  rewrite (low_set_high _ laws), (low_set_low _ laws),
    (high_set_high _ laws), (high_set_low _ laws),
    (low_underflow _ laws), (high_underflow _ laws).
  rewrite half_range_eq, !lxor_pow2 by lia.
  rewrite !(testbit_top _ 63) by (change (63 + 1) with 64; lia).
  destruct (Z.leb_spec (2 ^ 63) (low s)); [lia|].
  destruct (Z.leb_spec (2 ^ 63) (high s)); [|lia].
  split.
  - rewrite shiftl1_mask.
    replace (2 * (low s + 2 ^ 63)) with (2 * low s + 1 * 2 ^ 64) by lia.
    rewrite Z_mod_plus_full. apply Z.mod_small. lia.
  - rewrite Z.shiftl_mul_pow2 by lia.
    replace ((high s - 2 ^ 63) * 2 ^ 1) with (2 * (high s - 2 ^ 63)) by lia.
    rewrite lor_1_even, state_mask_ones, Z.land_ones by lia.
    rewrite Z.mod_small by lia. lia.
Qed.

(** C3, amended. The second loop of [update] goes on exactly while
    (low AND NOT high AND QUARTER) != 0 and stops with that test false.
    Entered with the top bits of low and high at 0 and 1, an iteration is
    the call of [underflow] followed by low = 2*low - HALF (the source's
    (low << 1) XOR HALF) and high = 2*high - HALF + 1 (the source's
    ((high XOR HALF) << 1) | HALF | 1): no mask is applied, the two words
    stay 64-bit words with top bits 0 and 1, and they are the words of
    the wording of section 4.1 with the top bit put back (cleared in low,
    set in high). *)
Theorem underflow_loop_step (fuel : nat) (s s' : St) :
  straddling s ->
  (underflow_cond s = true <->
   Z.land (Z.land (low s) (Z.lnot (high s))) quarter_range <> 0) /\
  (while_loop fuel underflow_cond underflow_body s = Ok s' ->
   underflow_cond s' = false) /\
  (underflow_cond s = true ->
   underflow_body s
   = set_high (2 * high s - half_range + 1)
       (set_low (2 * low s - half_range) (underflow s)) /\
   low (underflow_body s) = low (spec_underflow_body s) - half_range /\
   high (underflow_body s) = high (spec_underflow_body s) + half_range /\
   straddling (underflow_body s)).
Proof.
  intros Hs. split; [|split].
  - unfold underflow_cond.
    destruct (Z.eqb_spec
      (Z.land (Z.land (low s) (Z.lnot (high s))) quarter_range) 0)
      as [E|E]; cbn [negb]; split; intros Hx;
      [discriminate|contradiction|exact E|reflexivity].
  - intros Hrun.
    apply (while_loop_inv (fun _ => True) underflow_cond underflow_body
             (fun _ _ _ => I) fuel s s' I Hrun).
  - intros Hc.
    destruct (underflow_cond_true laws s Hs Hc) as (Hlo & Hhi & El & Eh).
    destruct Hs as (Hl & Hh).
    destruct (spec_underflow_body_words s ltac:(lia) ltac:(lia))
      as [Esl Esh].
    rewrite half_range_eq.
    split; [|split; [lia|split; [lia|]]].
    + unfold underflow_body in *.
      rewrite (high_set_high _ laws) in Eh.
      rewrite (low_set_high _ laws), (low_set_low _ laws) in El.
      rewrite Eh. f_equal. rewrite El. reflexivity.
    + unfold straddling. lia.
Qed.

End NearConvergence.

Lemma near_convergence_straddling : straddling near_convergence_state.
Proof. unfold straddling. cbn. lia. Qed.

Lemma underflow_loop_step_witness :
  straddling near_convergence_state /\
  underflow_cond near_convergence_state = true /\
  underflow_body near_convergence_state
  = mkEncoder (2 ^ 62) (2 ^ 63 + 2 ^ 62 - 1) [] 1.
Proof.
  split; [exact near_convergence_straddling|].
  split; [reflexivity|].
  destruct (underflow_loop_step Encoder_laws 64 near_convergence_state
              near_convergence_state near_convergence_straddling)
    as (_ & _ & Hbody).
  destruct (Hbody eq_refl) as (Heq & _).
  rewrite Heq. reflexivity.
Defined.


(** ** Bit packing *)

Lemma repeat_snoc {A : Type} (a : A) (k : nat) :
  repeat a (S k) = repeat a k ++ [a].
Proof. induction k as [|k IH]; [reflexivity|]. cbn in *. now rewrite <- IH. Qed.

Lemma pop_zeros_snoc (n : nat) (l : list Z) :
  pop_zeros (S n) (l ++ [0]) = pop_zeros n l.
Proof.
  cbn [pop_zeros]. destruct (l ++ [0]) as [|x l'] eqn:E.
  - now apply app_eq_nil in E.
  - rewrite <- E, last_last, removelast_last. reflexivity.
Qed.

(** Popping leaves what precedes the final run of zeros. *)
Lemma pop_zeros_spec (core : list Z) (k n : nat) :
  core = [] \/ last core 0 <> 0 -> (k <= n)%nat ->
  pop_zeros n (core ++ repeat 0 k) = core.
Proof.
  intros Hcore. revert n. induction k as [|k IH]; intros n Hn.
  - cbn [repeat]. rewrite app_nil_r. destruct n as [|n]; [reflexivity|].
    cbn [pop_zeros]. destruct core as [|x l]; [reflexivity|].
    destruct Hcore as [Hc|Hc]; [discriminate|].
    destruct (Z.eqb_spec (last (x :: l) 0) 0); [contradiction|reflexivity].
  - destruct n as [|n]; [lia|].
    rewrite repeat_snoc, app_assoc, pop_zeros_snoc. apply IH. lia.
Qed.

Lemma trailing_zeros_split (l : list Z) :
  exists core k,
    l = core ++ repeat 0 k /\ (core = [] \/ last core 0 <> 0).
Proof.
  induction l as [|x l IH] using rev_ind.
  - exists [], O. split; [reflexivity|now left].
  - destruct (Z.eq_dec x 0) as [->|Hx].
    + destruct IH as (core & k & -> & Hcore).
      exists core, (S k). split; [|assumption].
      now rewrite repeat_snoc, app_assoc.
    + exists (l ++ [x]), O. cbn [repeat]. rewrite app_nil_r.
      split; [reflexivity|]. right. now rewrite last_last.
Qed.

Lemma pad_zeros_spec (k : nat) :
  forall (n : nat) (bits : list Z),
    (k <= n)%nat ->
    ((List.length bits + k) mod 6 = 0)%nat ->
    (forall j, (j < k)%nat -> ((List.length bits + j) mod 6 <> 0)%nat) ->
    pad_zeros n bits = bits ++ repeat 0 k.
Proof.
  induction k as [|k IH]; intros n bits Hn Hk Hmin.
  - cbn [repeat]. rewrite app_nil_r. rewrite Nat.add_0_r in Hk.
    destruct n as [|n]; [reflexivity|]. cbn [pad_zeros].
    now rewrite Hk.
  - destruct n as [|n]; [lia|]. cbn [pad_zeros].
    pose proof (Hmin O ltac:(lia)) as H0. rewrite Nat.add_0_r in H0.
    destruct (Nat.eqb_spec (List.length bits mod 6) 0); [contradiction|].
    rewrite (IH n (bits ++ [0])).
    + rewrite <- app_assoc. reflexivity.
    + lia.
    + rewrite length_app. cbn [List.length].
      replace (List.length bits + 1 + k)%nat
        with (List.length bits + S k)%nat by lia. assumption.
    + intros j Hj. rewrite length_app. cbn [List.length].
      replace (List.length bits + 1 + j)%nat
        with (List.length bits + S j)%nat by lia. apply Hmin. lia.
Qed.

Lemma pad_zeros_exists (bits : list Z) :
  exists k, (k < 6)%nat /\ pad_zeros 6 bits = bits ++ repeat 0 k /\
    ((List.length bits + k) mod 6 = 0)%nat.
Proof.
  pose proof (Nat.mod_upper_bound (List.length bits) 6 ltac:(lia)) as Hr.
  pose proof (Nat.div_mod_eq (List.length bits) 6) as Hd.
  set (r := (List.length bits mod 6)%nat) in *.
  set (q := (List.length bits / 6)%nat) in *.
  assert (Hmod : forall m, (m < 6)%nat ->
            ((List.length bits + m) mod 6 = (r + m) mod 6)%nat).
  { intros m Hm. rewrite Hd.
    replace (6 * q + r + m)%nat with (r + m + q * 6)%nat by lia.
    apply Nat.Div0.mod_add. }
  exists ((6 - r) mod 6)%nat.
  assert (Hk : ((6 - r) mod 6 < 6)%nat) by (apply Nat.mod_upper_bound; lia).
  split; [assumption|].
  assert (Hzero : ((List.length bits + (6 - r) mod 6) mod 6 = 0)%nat).
  { rewrite Hmod by assumption.
    assert (r = 0 \/ r = 1 \/ r = 2 \/ r = 3 \/ r = 4 \/ r = 5)%nat
      as [E|[E|[E|[E|[E|E]]]]] by lia; rewrite E; reflexivity. }
  split; [|assumption].
  apply pad_zeros_spec; [lia|assumption|].
  intros j Hj. rewrite Hmod by lia.
  assert (r = 0 \/ r = 1 \/ r = 2 \/ r = 3 \/ r = 4 \/ r = 5)%nat
    as [E|[E|[E|[E|[E|E]]]]] by lia; rewrite E in *; cbn in Hj;
    try lia;
    assert (j = 0 \/ j = 1 \/ j = 2 \/ j = 3 \/ j = 4)%nat
      as [F|[F|[F|[F|F]]]] by lia; rewrite F in *; cbn; lia.
Qed.

(** [k] zeros are exactly what the padding loop adds to a list that is
    [k < 6] items short of a multiple of six. *)
Lemma pad_zeros_short (bits : list Z) (k m : nat) :
  (k < 6)%nat -> (List.length bits + k = 6 * m)%nat ->
  pad_zeros 6 bits = bits ++ repeat 0 k.
Proof.
  intros Hk Hlen. apply pad_zeros_spec; [lia| |].
  - rewrite Hlen, Nat.mul_comm. apply Nat.Div0.mod_mul.
  - intros j Hj Hmod.
    apply Nat.Div0.mod_divides in Hmod. destruct Hmod as [c Hc]. lia.
Qed.

Lemma map_result_map {A B C : Type} (f : B -> result C) (h : A -> B)
  (l : list A) :
  map_result f (map h l) = map_result (fun a => f (h a)) l.
Proof.
  induction l as [|a l IH]; [reflexivity|]. cbn [map map_result].
  now rewrite IH.
Qed.

Lemma range_by_six_mul (m : nat) :
  range_by_six (6 * m) = map (fun j => (6 * j)%nat) (seq 0 m).
Proof.
  unfold range_by_six. f_equal. f_equal.
  replace (6 * m + 5)%nat with (5 + m * 6)%nat by lia.
  rewrite Nat.div_add by lia. reflexivity.
Qed.

Lemma slices_of_groups {B : Type} (G : list Z -> result B)
  (groups : list (list Z)) :
  Forall (fun g => List.length g = 6%nat) groups ->
  forall (pre : list Z) (p : nat),
    List.length pre = (6 * p)%nat ->
    map_result (fun j => G (slice_six (pre ++ List.concat groups) (6 * j)))
      (seq p (List.length groups))
    = map_result G groups.
Proof.
  intros Hg. induction Hg as [|g groups Hlen _ IH]; intros pre p Hpre;
    [reflexivity|].
  cbn [List.length seq map_result List.concat].
  assert (Hslice : slice_six (pre ++ g ++ List.concat groups) (6 * p) = g).
  { unfold slice_six. rewrite <- Hpre, skipn_app, skipn_all, Nat.sub_diag.
    cbn [app skipn]. rewrite firstn_app, Hlen, Nat.sub_diag, firstn_O.
    rewrite app_nil_r. apply firstn_all2. lia. }
  rewrite Hslice.
  specialize (IH (pre ++ g) (S p)).
  rewrite <- app_assoc in IH. rewrite IH; [reflexivity|].
  rewrite length_app, Hpre, Hlen. lia.
Qed.

Lemma length_concat_six (groups : list (list Z)) :
  Forall (fun g => List.length g = 6%nat) groups ->
  List.length (List.concat groups) = (6 * List.length groups)%nat.
Proof.
  intros Hg. induction Hg as [|g groups Hlen _ IH]; [reflexivity|].
  cbn [List.concat List.length]. rewrite length_app, IH, Hlen. lia.
Qed.

(** The characters written for a list made of groups of six bits. *)
Lemma pack_groups (groups : list (list Z)) :
  Forall (fun g => List.length g = 6%nat) groups ->
  map_result
    (fun i => v <- group_value (slice_six (List.concat groups) i) ;; base64_char v)
    (range_by_six (List.length (List.concat groups)))
  = map_result (fun g => v <- group_value g ;; base64_char v) groups.
Proof.
  intros Hg. rewrite (length_concat_six _ Hg), range_by_six_mul.
  rewrite map_result_map.
  apply (slices_of_groups
           (fun g => v <- group_value g ;; base64_char v) groups Hg [] 0).
  reflexivity.
Qed.

(** *** One group of six bits and one character *)

Lemma below_64 (P : nat -> bool) :
  forallb P (seq 0 64) = true -> forall v, (v < 64)%nat -> P v = true.
Proof.
  intros H v Hv. rewrite forallb_forall in H. apply H, in_seq. lia.
Qed.

Lemma group_value_format (v : nat) :
  (v < 64)%nat -> group_value (format_06b v) = Ok (Z.of_nat v).
Proof.
  intros Hv.
  pose proof (below_64
    (fun v => match group_value (format_06b v) with
              | Ok z => z =? Z.of_nat v
              | Raise _ => false
              end) ltac:(vm_compute; reflexivity) v Hv) as H.
  cbv beta in H. destruct (group_value (format_06b v)); [|discriminate].
  apply Z.eqb_eq in H. now subst.
Qed.

Lemma str_index_get (c : ascii) (s : string) (v : nat) :
  str_index c s = Some v -> String.get v s = Some c.
Proof.
  revert v. induction s as [|a s IH]; intros v H; [discriminate|].
  cbn [str_index] in H. destruct (Ascii.eqb_spec c a) as [->|Hne].
  - injection H as <-. reflexivity.
  - destruct (str_index c s) as [w|]; [|discriminate].
    injection H as <-. cbn [String.get]. now apply IH.
Qed.

Lemma str_index_bound (c : ascii) (s : string) (v : nat) :
  str_index c s = Some v -> (v < String.length s)%nat.
Proof.
  revert v. induction s as [|a s IH]; intros v H; [discriminate|].
  cbn [str_index] in H. cbn [String.length].
  destruct (Ascii.eqb c a).
  - injection H as <-. lia.
  - destruct (str_index c s) as [w|]; [|discriminate].
    injection H as <-. specialize (IH w eq_refl). lia.
Qed.

Lemma get_str_index (v : nat) :
  (v < 64)%nat ->
  exists c, String.get v BASE64 = Some c /\ str_index c BASE64 = Some v.
Proof.
  intros Hv.
  pose proof (below_64
    (fun v => match String.get v BASE64 with
              | Some c => match str_index c BASE64 with
                          | Some w => Nat.eqb w v
                          | None => false
                          end
              | None => false
              end) ltac:(vm_compute; reflexivity) v Hv) as H.
  cbv beta in H. destruct (String.get v BASE64) as [c|]; [|discriminate].
  exists c. split; [reflexivity|].
  destruct (str_index c BASE64) as [w|]; [|discriminate].
  apply Nat.eqb_eq in H. now subst.
Qed.

Lemma format_06b_length (v : nat) : List.length (format_06b v) = 6%nat.
Proof. reflexivity. Qed.

Lemma format_06b_bits (v : nat) : Forall is_bit (format_06b v).
Proof.
  unfold format_06b. apply Forall_forall. intros b Hb.
  apply in_map_iff in Hb. destruct Hb as (i & <- & _).
  destruct (Z.testbit (Z.of_nat v) i); [now right|now left].
Qed.

(** Every group of six bits is the binary writing of an index. *)
Lemma group_is_format (g : list Z) :
  List.length g = 6%nat -> Forall is_bit g ->
  exists v, (v < 64)%nat /\ g = format_06b v.
Proof.
  intros Hlen Hb.
  destruct g as [|a [|b [|c [|d [|e [|f [|x g]]]]]]]; try discriminate.
  repeat match goal with
         | H : Forall _ (_ :: _) |- _ => inversion_clear H
         end.
  exists (Z.to_nat (32 * a + 16 * b + 8 * c + 4 * d + 2 * e + f)).
  repeat match goal with
         | H : is_bit _ |- _ => destruct H as [->| ->]
         end; split; try (cbn; lia); reflexivity.
Qed.

(** The character written for the group of an index, and back. *)
Lemma group_char (v : nat) :
  (v < 64)%nat ->
  exists c,
    (x <- group_value (format_06b v) ;; base64_char x) = Ok c /\
    str_index c BASE64 = Some v.
Proof.
  intros Hv. destruct (get_str_index v Hv) as (c & Hget & Hidx).
  exists c. split; [|assumption].
  rewrite (group_value_format v Hv). cbn [bind]. unfold base64_char.
  rewrite Nat2Z.id, Hget. reflexivity.
Qed.

Lemma char_group (c : ascii) (v : nat) :
  str_index c BASE64 = Some v ->
  (x <- group_value (format_06b v) ;; base64_char x) = Ok c.
Proof.
  intros Hidx.
  pose proof (str_index_bound _ _ _ Hidx) as Hv.
  change (String.length BASE64) with 64%nat in Hv.
  rewrite (group_value_format v Hv). cbn [bind]. unfold base64_char.
  rewrite Nat2Z.id, (str_index_get _ _ _ Hidx). reflexivity.
Qed.

Lemma groups_of (m : nat) :
  forall l : list Z,
    List.length l = (6 * m)%nat ->
    exists groups,
      l = List.concat groups /\
      Forall (fun g => List.length g = 6%nat) groups.
Proof.
  induction m as [|m IH]; intros l Hlen.
  - exists []. destruct l; [now split|discriminate].
  - destruct (IH (skipn 6 l)) as (groups & Hc & Hg).
    { rewrite length_skipn. lia. }
    exists (firstn 6 l :: groups). split.
    + cbn [List.concat]. rewrite <- Hc. symmetry. apply firstn_skipn.
    + constructor; [|assumption]. rewrite length_firstn. lia.
Qed.

(** Reading back the characters written for groups of six bits. *)
Lemma unpack_groups (groups : list (list Z)) :
  Forall (fun g => List.length g = 6%nat) groups ->
  Forall is_bit (List.concat groups) ->
  exists chars,
    map_result (fun g => v <- group_value g ;; base64_char v) groups
    = Ok chars /\
    base64_to_bits (string_of_list_ascii chars) = Ok (List.concat groups) /\
    List.length chars = List.length groups.
Proof.
  intros Hg. induction Hg as [|g groups Hlen _ IH]; intros Hb.
  - exists []. repeat split.
  - cbn [List.concat] in Hb. apply Forall_app in Hb. destruct Hb as [Hbg Hb].
    destruct (IH Hb) as (chars & Hmap & Hback & Hl).
    destruct (group_is_format g Hlen Hbg) as (v & Hv & ->).
    destruct (group_char v Hv) as (c & Hc & Hidx).
    exists (c :: chars). cbn [map_result]. rewrite Hc. cbn [bind].
    rewrite Hmap. cbn [bind]. split; [reflexivity|]. split.
    + cbn [string_of_list_ascii base64_to_bits]. rewrite Hidx, Hback.
      reflexivity.
    + cbn [List.length]. now rewrite Hl.
Qed.

(** The groups and characters of a string over the alphabet. *)
Lemma unpack_indexes (x : string) (bits : list Z) :
  base64_to_bits x = Ok bits ->
  exists indexes,
    bits = List.concat (map format_06b indexes) /\
    Forall2 (fun c v => str_index c BASE64 = Some v)
      (list_ascii_of_string x) indexes.
Proof.
  revert bits. induction x as [|c x IH]; intros bits H.
  - injection H as <-. exists []. split; [reflexivity|constructor].
  - cbn [base64_to_bits] in H.
    destruct (str_index c BASE64) as [v|] eqn:Hidx; [|discriminate].
    destruct (base64_to_bits x) as [rest|]; [|discriminate].
    injection H as <-. destruct (IH rest eq_refl) as (indexes & -> & HF).
    exists (v :: indexes). split; [reflexivity|].
    cbn [list_ascii_of_string]. now constructor.
Qed.

Lemma pack_indexes (chars : list ascii) (indexes : list nat) :
  Forall2 (fun c v => str_index c BASE64 = Some v) chars indexes ->
  map_result (fun g => v <- group_value g ;; base64_char v)
    (map format_06b indexes)
  = Ok chars.
Proof.
  intros HF. induction HF as [|c v chars indexes Hidx _ IH];
    [reflexivity|].
  cbn [map map_result]. rewrite (char_group c v Hidx). cbn [bind].
  rewrite IH. reflexivity.
Qed.

Lemma formats_are_groups (indexes : list nat) :
  Forall (fun g => List.length g = 6%nat) (map format_06b indexes).
Proof.
  apply Forall_forall. intros g Hg. apply in_map_iff in Hg.
  destruct Hg as (v & <- & _). reflexivity.
Qed.

(** The bits of an index other than 0 end, before fewer than six zeros,
    in a 1. *)
Lemma format_06b_nonzero (v : nat) :
  (v < 64)%nat -> v <> O ->
  exists core k,
    format_06b v = core ++ repeat 0 k /\ core <> [] /\
    last core 0 <> 0 /\ (List.length core + k = 6)%nat.
Proof.
  intros Hv Hnz.
  destruct (trailing_zeros_split (format_06b v)) as (core & k & E & Hcore).
  assert (Hlen : (List.length core + k = 6)%nat).
  { rewrite <- (format_06b_length v), E, length_app, repeat_length.
    reflexivity. }
  exists core, k. split; [assumption|].
  destruct Hcore as [->|Hlast].
  - exfalso. assert (k = 6%nat) by (cbn [List.length] in Hlen; lia).
    subst k. cbn [app] in E.
    pose proof (group_value_format v Hv) as Hval. rewrite E in Hval.
    assert (Hz : group_value (repeat 0 6) = Ok 0) by reflexivity.
    rewrite Hz in Hval. injection Hval as Hval. lia.
  - split; [|split; assumption].
    intros ->. now apply Hlast.
Qed.

(** *** Packing and unpacking *)

Lemma last_app_nonempty (pre core : list Z) (d : Z) :
  core <> [] -> last (pre ++ core) d = last core d.
Proof.
  intros Hne. destruct (exists_last Hne) as (l & a & ->).
  now rewrite app_assoc, !last_last.
Qed.

Lemma string_of_list_ascii_snoc (l : list ascii) (c : ascii) :
  string_of_list_ascii (l ++ [c])
  = (string_of_list_ascii l ++ String c EmptyString)%string.
Proof.
  induction l as [|a l IH]; [reflexivity|].
  cbn [app string_of_list_ascii String.append]. now rewrite IH.
Qed.

Lemma Forall2_singleton_r {A B : Type} (R : A -> B -> Prop) (l : list A)
  (b : B) :
  Forall2 R l [b] -> exists a, l = [a] /\ R a b.
Proof.
  intros H. inversion H as [|a b' l' bs' Hab Hrest]; subst.
  inversion Hrest; subst. now exists a.
Qed.

(** What [bits_to_base64] writes for a list [core] followed by zeros,
    and what [base64_to_bits] reads back. *)
Lemma pack_unpack (core : list Z) (k : nat) :
  Forall is_bit core -> core = [] \/ last core 0 <> 0 ->
  exists pad s,
    (pad < 6)%nat /\ ((List.length core + pad) mod 6 = 0)%nat /\
    bits_to_base64 (core ++ repeat 0 k) = Ok s /\
    (6 * String.length s = List.length core + pad)%nat /\
    base64_to_bits s = Ok (core ++ repeat 0 pad).
Proof.
  intros Hb Hcore. unfold bits_to_base64.
  rewrite pop_zeros_spec
    by (try assumption; rewrite length_app, repeat_length; lia).
  destruct (pad_zeros_exists core) as (pad & Hpad & -> & Hmod).
  exists pad.
  assert (Hlen : List.length (core ++ repeat 0 pad)
                 = (List.length core + pad)%nat)
    by (now rewrite length_app, repeat_length).
  apply Nat.Div0.mod_divides in Hmod. destruct Hmod as (m & Hm).
  destruct (groups_of m (core ++ repeat 0 pad)) as (groups & Hc & Hg);
    [lia|].
  assert (Hbits : Forall is_bit (core ++ repeat 0 pad)).
  { apply Forall_app. split; [assumption|]. apply Forall_forall.
    intros x Hx. apply repeat_spec in Hx. now left. }
  rewrite Hc in *. rewrite (pack_groups groups Hg).
  destruct (unpack_groups groups Hg Hbits) as (chars & Hmap & Hback & Hl).
  exists (string_of_list_ascii chars). rewrite Hmap. cbn [bind].
  split; [assumption|]. split; [rewrite Hm, Nat.mul_comm;
                                apply Nat.Div0.mod_mul|].
  split; [reflexivity|]. split; [|assumption].
  assert (Hsl : String.length (string_of_list_ascii chars)
                = List.length chars).
  { clear. induction chars as [|c l IH]; [reflexivity|].
    cbn [string_of_list_ascii String.length List.length]. now rewrite IH. }
  rewrite Hsl, Hl, <- Hlen. symmetry. now apply length_concat_six.
Qed.

(** C6, as worded, fails: the bits of "BA" stripped of their trailing
    zeros end in a 1, and packing them gives "B". *)
Lemma alphabet_closure_counterexample :
  base64_to_bits "BA"%string = Ok [0; 0; 0; 0; 0; 1; 0; 0; 0; 0; 0; 0] /\
  last (pop_zeros 12 [0; 0; 0; 0; 0; 1; 0; 0; 0; 0; 0; 0]) 0 = 1 /\
  bits_to_base64 [0; 0; 0; 0; 0; 1; 0; 0; 0; 0; 0; 0] = Ok "B"%string /\
  "B"%string <> "BA"%string.
Proof. repeat split; try reflexivity. discriminate. Qed.

(** C6, amended. [bits_to_base64] strips the trailing zero bits, pads
    with fewer than six zeros to a multiple of six and writes one
    character per group of six bits, most significant bit first, so that
    [base64_to_bits] reads the stripped and padded bits back; and for
    every string [x] over the alphabet that does not end with the
    character A (the empty string included),
    [bits_to_base64 (base64_to_bits x)] is [x]. *)
Theorem alphabet_closure :
  (forall bits, Forall is_bit bits ->
     exists core k pad s,
       bits = core ++ repeat 0 k /\ (core = [] \/ last core 0 = 1) /\
       (pad < 6)%nat /\ ((List.length core + pad) mod 6 = 0)%nat /\
       bits_to_base64 bits = Ok s /\
       (6 * String.length s = List.length core + pad)%nat /\
       base64_to_bits s = Ok (core ++ repeat 0 pad)) /\
  (forall x bits,
     base64_to_bits x = Ok bits ->
     (forall y, x <> (y ++ "A")%string) ->
     bits_to_base64 bits = Ok x).
Proof.
  split.
  - intros bits Hb.
    destruct (trailing_zeros_split bits) as (core & k & -> & Hcore).
    apply Forall_app in Hb. destruct Hb as [Hb _].
    destruct (pack_unpack core k Hb Hcore)
      as (pad & s & Hpad & Hmod & Hpack & Hlen & Hback).
    exists core, k, pad, s. split; [reflexivity|]. split.
    { destruct Hcore as [->|Hlast]; [now left|right].
      assert (Hne : core <> []) by (intros ->; now apply Hlast).
      destruct (exists_last Hne) as (l & a & ->).
      rewrite last_last in *. apply Forall_app in Hb.
      destruct Hb as [_ Ha]. inversion_clear Ha as [|? ? [E|E] _];
        [contradiction|assumption]. }
    repeat split; assumption.
  - intros x bits Hx Hend.
    destruct (unpack_indexes x bits Hx) as (indexes & -> & HF).
    rewrite <- (string_of_list_ascii_of_string x) in Hend |- *.
    set (chars := list_ascii_of_string x) in *. clearbody chars. clear Hx.
    induction indexes as [|v0 indexes _] using rev_ind.
    + inversion HF. reflexivity.
    + apply Forall2_app_inv_r in HF.
      destruct HF as (cs & cl & HF & Hl & ->).
      apply Forall2_singleton_r in Hl. destruct Hl as (c & -> & Hidx).
      rename v0 into v.
      pose proof (str_index_bound _ _ _ Hidx) as Hv.
      change (String.length BASE64) with 64%nat in Hv.
      assert (Hnz : v <> O).
      { intros ->. apply str_index_get in Hidx. cbn in Hidx.
        injection Hidx as <-.
        apply (Hend (string_of_list_ascii cs)).
        apply string_of_list_ascii_snoc. }
      destruct (format_06b_nonzero v Hv Hnz)
        as (core & k & Hfmt & Hne & Hlast & Hlen).
      pose proof (formats_are_groups (indexes ++ [v])) as Hg.
      pose proof (pack_groups _ Hg) as Hpack.
      assert (Hsplit : List.concat (map format_06b (indexes ++ [v]))
                = (List.concat (map format_06b indexes) ++ core)
                  ++ repeat 0 k).
      { rewrite map_app, concat_app. cbn [map List.concat].
        rewrite app_nil_r, Hfmt, app_assoc. reflexivity. }
      unfold bits_to_base64.
      assert (Hpop : pop_zeros
                (List.length (List.concat (map format_06b (indexes ++ [v]))))
                (List.concat (map format_06b (indexes ++ [v])))
              = List.concat (map format_06b indexes) ++ core).
      { rewrite Hsplit at 2. apply pop_zeros_spec.
        - right. now rewrite last_app_nonempty.
        - rewrite Hsplit, length_app, repeat_length. lia. }
      rewrite Hpop.
      rewrite (pad_zeros_short _ k (S (List.length indexes))).
      * rewrite <- Hsplit, Hpack.
        rewrite (pack_indexes (cs ++ [c]) (indexes ++ [v])).
        -- reflexivity.
        -- apply Forall2_app; [assumption|]. now repeat constructor.
      * destruct core; [contradiction|cbn [List.length] in Hlen; lia].
      * rewrite length_app,
          (length_concat_six _ (formats_are_groups indexes)),
          length_map. lia.
Qed.

Lemma alphabet_closure_witness :
  (exists core k pad s,
      [1; 0; 0; 0; 1; 0; 0] = core ++ repeat 0 k /\
      (core = [] \/ last core 0 = 1) /\
      (pad < 6)%nat /\ ((List.length core + pad) mod 6 = 0)%nat /\
      bits_to_base64 [1; 0; 0; 0; 1; 0; 0] = Ok s /\
      (6 * String.length s = List.length core + pad)%nat /\
      base64_to_bits s = Ok (core ++ repeat 0 pad)) /\
  bits_to_base64 [1; 0; 0; 0; 1; 0; 0; 1; 0; 0; 1; 0; 1; 1; 1; 1; 1; 1]
  = Ok "iS/"%string.
Proof.
  split.
  - apply (proj1 alphabet_closure).
    repeat constructor; unfold is_bit; lia.
  - apply (proj2 alphabet_closure "iS/"%string).
    + reflexivity.
    + intros y Hy. destruct y as [|a [|b [|c y]]]; try discriminate.
      destruct y; discriminate.
Defined.


(** ** Interactive mode *)

Lemma in_BASE64_alphabet (c : ascii) : in_BASE64 c = true <-> alphabet c.
Proof.
  unfold alphabet.
  destruct c as [[] [] [] [] [] [] [] []]; vm_compute; split; intros H;
    try reflexivity; try discriminate; try lia.
Qed.

(** C10. In interactive mode a non-empty line made only of characters of
    the 64-symbol alphabet is decompressed and not compressed; the empty
    line and every line with a character outside the alphabet are
    compressed.  So a plain text made only of alphabet characters is
    never compressed interactively. *)
Theorem interactive_dispatch (line : string) :
  (line <> EmptyString ->
   (forall c, In c (list_ascii_of_string line) -> alphabet c) ->
   interactive_turn line = Decompress line) /\
  (line = EmptyString -> interactive_turn line = Compress line) /\
  (forall c, In c (list_ascii_of_string line) -> ~ alphabet c ->
   interactive_turn line = Compress line).
Proof.
  unfold interactive_turn. split; [|split].
  - intros Hne Hall.
    destruct (String.eqb_spec line EmptyString) as [E|_]; [contradiction|].
    cbn [negb andb].
    assert (Hf : forallb in_BASE64 (list_ascii_of_string line) = true).
    { apply forallb_forall. intros c Hc. apply in_BASE64_alphabet. auto. }
    now rewrite Hf.
  - intros ->. reflexivity.
  - intros c Hc Hout.
    assert (Hf : forallb in_BASE64 (list_ascii_of_string line) = false).
    { destruct (forallb in_BASE64 (list_ascii_of_string line)) eqn:E;
        [|reflexivity].
      rewrite forallb_forall in E. specialize (E c Hc).
      apply in_BASE64_alphabet in E. contradiction. }
    rewrite Hf, andb_false_r. reflexivity.
Qed.

Lemma interactive_dispatch_witness :
  interactive_turn "hello"%string = Decompress "hello"%string /\
  interactive_turn "hello world"%string = Compress "hello world"%string.
Proof.
  split.
  - apply (proj1 (interactive_dispatch "hello"%string)); [discriminate|].
    intros c Hc. apply in_BASE64_alphabet.
    cbn in Hc. repeat (destruct Hc as [<-|Hc]; [reflexivity|]).
    contradiction.
  - apply (proj2 (proj2 (interactive_dispatch "hello world"%string))
             " "%char).
    + cbn. tauto.
    + intros H. apply in_BASE64_alphabet in H. discriminate.
Defined.


(** ** The window overlap argument *)

Lemma endswith_percent_append (s : string) :
  endswith_percent (s ++ "%")%string = true /\
  drop_last (s ++ "%")%string = s.
Proof.
  induction s as [|c s [IH1 IH2]]; [split; reflexivity|].
  cbn [String.append endswith_percent drop_last].
  destruct (s ++ "%")%string eqn:E.
  - destruct s; discriminate.
  - split; [assumption|]. now rewrite IH2.
Qed.

Section Overlap.
Variable P : PyFloat.
Hypothesis laws : PyFloat_laws P.
Variable n_ctx : Z.
Hypothesis n_ctx_range : 1 <= n_ctx <= 2 ^ 53.

Lemma percent_overlap_range (percent : float P) :
  float_le P (float_of_int P 0) percent = true ->
  float_le P percent (float_of_int P 100) = true ->
  0 <= int_of_float P
         (float_mul P (float_div P percent (float_of_int P 100))
            (float_of_int P (n_ctx - 1)))
    < n_ctx.
Proof.
  intros H0 H100.
  destruct (div_100_unit P laws percent H0 H100) as [Hq0 Hq1].
  destruct (mul_unit P laws _ (n_ctx - 1) ltac:(lia) Hq0 Hq1) as [Hm0 Hm1].
  pose proof (int_of_float_range P laws _ (n_ctx - 1) ltac:(lia) Hm0 Hm1).
  lia.
Qed.

(** C8. Overlap parsing: a percentage is accepted exactly when it lies
    in [0, 100]; an integer O < 0 is replaced by O + W, W the context
    length, and an integer is accepted exactly when the value so
    normalised satisfies 0 <= O < W; every overlap that parsing returns,
    and so every overlap passed to compress and decompress, lies in
    [0, W). *)
Theorem overlap_parsing :
  (forall s percent,
      float_of_string P s = Some percent ->
      ((exists o, parse_overlap P (s ++ "%")%string n_ctx = WindowOverlap o)
       <-> (float_le P (float_of_int P 0) percent = true /\
            float_le P percent (float_of_int P 100) = true)) /\
      ((forall o, parse_overlap P (s ++ "%")%string n_ctx <> WindowOverlap o)
       <-> parse_overlap P (s ++ "%")%string n_ctx = ParserError)) /\
  (forall s O,
      endswith_percent s = false -> int_of_string P s = Some O ->
      let normalised := if O <? 0 then O + n_ctx else O in
      (O < 0 -> normalised = O + n_ctx) /\
      (0 <= normalised < n_ctx ->
       parse_overlap P s n_ctx = WindowOverlap normalised) /\
      (~ 0 <= normalised < n_ctx -> parse_overlap P s n_ctx = ParserError)) /\
  (forall s o, parse_overlap P s n_ctx = WindowOverlap o -> 0 <= o < n_ctx).
Proof.
  split; [|split].
  - intros s percent Hs. unfold parse_overlap.
    destruct (endswith_percent_append s) as [-> ->]. rewrite Hs.
    destruct (float_le P (float_of_int P 0) percent);
      destruct (float_le P percent (float_of_int P 100)); cbn [andb negb];
      (split; [split|split]);
      try (intros (o & Ho); discriminate);
      try (intros [? ?]; discriminate);
      try (intros _; eauto; fail);
      try (intros; discriminate);
      try reflexivity;
      try (intros H; exfalso; eapply H; reflexivity).
  - intros s O Hend Hs normalised. unfold parse_overlap.
    rewrite Hend, Hs. fold normalised. split; [|split].
    + intros HO. subst normalised.
      destruct (Z.ltb_spec O 0); [reflexivity|lia].
    + intros Hr.
      destruct (Z.leb_spec 0 normalised); [|lia].
      destruct (Z.ltb_spec normalised n_ctx); [|lia]. reflexivity.
    + intros Hr.
      destruct (Z.leb_spec 0 normalised);
        destruct (Z.ltb_spec normalised n_ctx); cbn [andb negb];
        try reflexivity. lia.
  - intros s o. unfold parse_overlap.
    destruct (endswith_percent s).
    + destruct (float_of_string P (drop_last s)) as [percent|];
        [|discriminate].
      destruct (float_le P (float_of_int P 0) percent) eqn:H0;
        destruct (float_le P percent (float_of_int P 100)) eqn:H100;
        cbn [andb negb]; try discriminate.
      intros Ho. injection Ho as <-.
      now apply percent_overlap_range.
    + destruct (int_of_string P s) as [O|]; [|discriminate].
      set (normalised := if O <? 0 then O + n_ctx else O).
      destruct (Z.leb_spec 0 normalised);
        destruct (Z.ltb_spec normalised n_ctx); cbn [andb negb];
        try discriminate.
      intros Ho. injection Ho as <-. lia.
Qed.

End Overlap.

Lemma rational_float_laws : PyFloat_laws rational_float.
Proof.
  constructor; cbn [float float_of_int float_le float_div float_mul
                    int_of_float rational_float].
  - intros [a b] H0 H100.
    rewrite !Qle_bool_iff in *.
    unfold Qle, Qdiv, Qmult, Qinv, inject_Z in *.
    cbn [Qnum Qden] in *. rewrite ?Pos2Z.inj_mul. lia.
  - intros [a b] n Hn H0 H1.
    rewrite !Qle_bool_iff in *.
    unfold Qle, Qdiv, Qmult, Qinv, inject_Z in *.
    cbn [Qnum Qden] in *. rewrite ?Pos2Z.inj_mul. nia.
  - intros [a b] n Hn H0 H1.
    rewrite !Qle_bool_iff in *.
    unfold Qle, inject_Z in *. cbn [Qnum Qden] in *.
    rewrite Z.quot_div_nonneg by lia. split.
    + apply Z.div_pos; lia.
    + apply Z.div_le_upper_bound; lia.
Qed.

Lemma overlap_parsing_witness :
  parse_overlap rational_float "50%"%string 512 = WindowOverlap 255 /\
  parse_overlap rational_float "-12"%string 512 = WindowOverlap 500 /\
  (0 <= 500 < 512).
Proof.
  assert (Hn : 1 <= 512 <= 2 ^ 53) by lia.
  destruct (overlap_parsing rational_float rational_float_laws 512 Hn)
    as (_ & Hint & Hrange).
  split; [reflexivity|].
  destruct (Hint "-12"%string (-12) eq_refl eq_refl) as (_ & Hok & _).
  split; [apply Hok; cbn; lia|].
  apply (Hrange "-12"%string). apply Hok. cbn. lia.
Defined.

(** ** The coder inside the predictive loop *)

Lemma encode_symbols_app (fuel : nat) (l1 l2 : list (list Z * nat))
  (e : Encoder) :
  encode_symbols fuel (l1 ++ l2) e
  = (e1 <- encode_symbols fuel l1 e ;; encode_symbols fuel l2 e1).
Proof.
  revert e. induction l1 as [|[c s] l1 IH]; intros e; [reflexivity|].
  cbn [app encode_symbols].
  destruct (encode_symbol fuel c s e); cbn [bind]; auto.
Qed.

Lemma insync_init (fuel : nat) (pairs : list (list Z * nat)) (e' : Encoder)
  (tail : list Z) :
  encode_symbols fuel pairs Encoder_init = Ok e' -> terminator tail ->
  insync fuel pairs (Decoder_init (encoded_data e' ++ tail)).
Proof.
  intros Henc Ht.
  exists Encoder_init, e', (encoded_data e'), tail.
  split; [exact normalized_init|]. split; [assumption|].
  split; [assumption|]. split; [reflexivity|]. apply coupled_init.
Qed.

Lemma insync_step (fuel : nat) (cum_freqs : list Z) (symbol : nat)
  (pairs : list (list Z * nat)) (d : Decoder) :
  (64 <= fuel)%nat ->
  valid_pair (cum_freqs, symbol) -> Forall valid_pair pairs ->
  insync fuel ((cum_freqs, symbol) :: pairs) d ->
  exists d',
    decode_symbol fuel cum_freqs d = Ok (symbol, d') /\
    insync fuel pairs d'.
Proof.
  intros Hfuel [Hv Hs] Hp (e & e' & out & tail & Hn & Ht & Henc & Hdata & Hc).
  cbn [fst snd] in Hv, Hs.
  destruct (encode_symbol_sim fuel cum_freqs symbol e Hfuel Hv Hs Hn)
    as (e1 & out1 & Henc1 & Hn1 & Hdata1 & Hbits1 & _ & Hdec1).
  cbn [encode_symbols] in Henc. rewrite Henc1 in Henc. cbn [bind] in Henc.
  destruct (encode_symbols_sim fuel pairs Hfuel Hp e1 Hn1)
    as (e2 & out2 & Henc2 & _ & Hdata2 & _ & Hrest).
  rewrite Henc in Henc2. injection Henc2 as <-.
  assert (Hout : out = out1 ++ out2).
  { rewrite Hdata1, <- app_assoc in Hdata2. rewrite Hdata in Hdata2.
    now apply app_inv_head in Hdata2. }
  subst out. rewrite <- app_assoc in Hc.
  destruct (Hrest tail Ht) as (Hf2 & _).
  destruct (Hdec1 _ d Hf2 Hc) as (d1 & Hd1 & Hc1).
  exists d1. split; [assumption|].
  now exists e1, e', out2, tail.
Qed.

(** [update] never runs out of fuel. *)
Lemma encode_symbol_ends (fuel : nat) (cum_freqs : list Z) (symbol : nat)
  (e : Encoder) :
  (64 <= fuel)%nat -> ends (encode_symbol fuel cum_freqs symbol e).
Proof.
  intros Hfuel. unfold encode_symbol, update.
  destruct (narrow cum_freqs symbol e) as [e1|err] eqn:Hn; cbn [bind].
  - destruct (shift_loop_terminates Encoder_laws fuel e1 Hfuel) as (e2 & ->).
    cbn [bind].
    destruct (underflow_loop_terminates Encoder_laws fuel e2 Hfuel)
      as (e3 & ->).
    split; discriminate.
  - unfold narrow in Hn.
    destruct (last_item cum_freqs) as [t|err1] eqn:E1; cbn [bind] in Hn.
    + destruct (index cum_freqs symbol) as [h|err2] eqn:E2; cbn [bind] in Hn.
      * destruct (t =? 0).
        -- injection Hn as <-. split; discriminate.
        -- destruct symbol as [|p]; cbn [bind] in Hn; [discriminate|].
           destruct (index cum_freqs p) as [l|err3] eqn:E3; cbn [bind] in Hn;
             [discriminate|].
           injection Hn as <-. unfold index in E3.
           destruct (nth_error cum_freqs p); [discriminate|].
           injection E3 as <-. split; discriminate.
      * injection Hn as <-. unfold index in E2.
        destruct (nth_error cum_freqs symbol); [discriminate|].
        injection E2 as <-. split; discriminate.
    + injection Hn as <-. unfold last_item in E1.
      destruct cum_freqs; [|discriminate].
      injection E1 as <-. split; discriminate.
Qed.

(** ** [compress] ends *)

Lemma ends_bind {A B : Type} (r : result A) (k : A -> result B) :
  ends r -> (forall a, r = Ok a -> ends (k a)) -> ends (bind r k).
Proof.
  intros [H1 H2] Hk. destruct r as [a|e]; cbn [bind].
  - now apply Hk.
  - split; congruence.
Qed.

Lemma ends_Ok {A : Type} (a : A) : ends (Ok a).
Proof. split; discriminate. Qed.

Lemma ends_Raise {A B : Type} (e : error) :
  ends (@Raise A e) -> ends (@Raise B e).
Proof.
  intros [H1 H2]. split; intros H; injection H as ->;
    [apply H1|apply H2]; reflexivity.
Qed.

Lemma map_result_ends {A B : Type} (f : A -> result B) (l : list A) :
  (forall a, ends (f a)) -> ends (map_result f l).
Proof.
  intros Hf. induction l as [|a l IH]; [apply ends_Ok|].
  cbn [map_result]. apply ends_bind; [apply Hf|]. intros b _.
  apply ends_bind; [assumption|]. intros bs _. apply ends_Ok.
Qed.

Lemma bits_to_base64_ends (bits : list Z) : ends (bits_to_base64 bits).
Proof.
  unfold bits_to_base64. apply ends_bind; [|intros; apply ends_Ok].
  apply map_result_ends. intros i. apply ends_bind.
  - unfold group_value. destruct (forallb _ _); split; discriminate.
  - intros v _. unfold base64_char.
    destruct (String.get (Z.to_nat v) BASE64); split; discriminate.
Qed.

Lemma slice_length (l : list nat) (a b : nat) :
  (List.length (slice l a b) <= b - a)%nat.
Proof. unfold slice. rewrite length_firstn. lia. Qed.

Section CompressEnds.
Variable model : Llama.
Variable fuel : nat.
Variable interrupted : nat -> bool.
Variable window_overlap : nat.
Variable tokens : list nat.
Hypothesis fuel_64 : (64 <= fuel)%nat.

Lemma compress_process_logits_ends (context : list nat)
  (logits : Logits model) (st : CompressState) :
  ends (compress_process_logits model fuel interrupted tokens context
          logits st) /\
  forall r,
    compress_process_logits model fuel interrupted tokens context logits st
    = Ok r ->
    (next_token_idx st < next_token_idx (snd r))%nat.
Proof.
  unfold compress_process_logits.
  set (idx := if interrupted (List.length (encoded_symbols st))
                 && (next_token_idx st <? List.length tokens - 1)%nat
              then (List.length tokens - 1)%nat else next_token_idx st).
  assert (Hidx : (next_token_idx st <= idx)%nat).
  { subst idx. destruct (interrupted _); cbn [andb]; [|lia].
    destruct (Nat.ltb_spec (next_token_idx st) (List.length tokens - 1));
      lia. }
  destruct (nth_error tokens idx) as [t|]; [|split; [split|]; discriminate].
  pose proof (encode_symbol_ends fuel
                (compute_cdf model logits) t (encoder st) fuel_64) as He.
  destruct (encode_symbol fuel (compute_cdf model logits) t (encoder st))
    as [enc|err]; cbn [bind].
  - split; [apply ends_Ok|]. intros r Hr. injection Hr as <-.
    cbn [snd next_token_idx]. lia.
  - split; [now apply (ends_Raise err He)|discriminate].
Qed.

Lemma compress_generate_loop_ends (room : nat) :
  forall (context : list nat) (st : CompressState),
    (List.length context + room = n_ctx model)%nat ->
    ends (generate_loop model
            (compress_process_logits model fuel interrupted tokens)
            (compress_should_stop model) room context st) /\
    forall st',
      generate_loop model
        (compress_process_logits model fuel interrupted tokens)
        (compress_should_stop model) room context st = Ok st' ->
      (next_token_idx st < next_token_idx st')%nat.
Proof.
  induction room as [|room IH]; intros context st Hroom;
    cbn [generate_loop];
    destruct (compress_process_logits_ends context (eval model context) st)
      as [Hends Hidx];
    destruct (compress_process_logits model fuel interrupted tokens context
                (eval model context) st) as [r|err]; cbn [bind].
  - specialize (Hidx r eq_refl). unfold compress_should_stop.
    destruct ((argmax model (fst r) =? token_eos model)%nat
              || (List.length context =? n_ctx model)%nat) eqn:Hstop.
    + split; [apply ends_Ok|]. intros st' H. injection H as <-. assumption.
    + apply orb_false_iff in Hstop. destruct Hstop as [_ Hfull].
      apply Nat.eqb_neq in Hfull. lia.
  - split; [now apply (ends_Raise err Hends)|discriminate].
  - specialize (Hidx r eq_refl). unfold compress_should_stop.
    destruct ((argmax model (fst r) =? token_eos model)%nat
              || (List.length context =? n_ctx model)%nat) eqn:Hstop.
    + split; [apply ends_Ok|]. intros st' H. injection H as <-. assumption.
    + destruct (IH (context ++ [argmax model (fst r)]) (snd r)) as [He Hi].
      { rewrite length_app. cbn [List.length]. lia. }
      split; [assumption|]. intros st' H. specialize (Hi st' H). lia.
  - split; [now apply (ends_Raise err Hends)|discriminate].
Qed.

Hypothesis overlap_fits : (window_overlap < n_ctx model)%nat.

Lemma compress_window_ends (st : CompressState) :
  ends (compress_window model fuel interrupted window_overlap tokens st) /\
  forall st',
    compress_window model fuel interrupted window_overlap tokens st = Ok st' ->
    (next_token_idx st < next_token_idx st')%nat.
Proof.
  unfold compress_window, generate.
  set (prefix := token_bos model
                 :: slice tokens (next_token_idx st - window_overlap)
                      (next_token_idx st)).
  assert (Hlen : (List.length prefix <= n_ctx model)%nat).
  { subst prefix. cbn [List.length].
    pose proof (slice_length tokens (next_token_idx st - window_overlap)
                  (next_token_idx st)). lia. }
  destruct (Nat.ltb_spec (n_ctx model) (List.length prefix)); [lia|].
  apply compress_generate_loop_ends. lia.
Qed.

Lemma compress_loop_ends (n : nat) :
  forall st : CompressState,
    (List.length tokens <= n + next_token_idx st)%nat ->
    ends (compress_loop model fuel interrupted window_overlap tokens n st) /\
    forall st',
      compress_loop model fuel interrupted window_overlap tokens n st
      = Ok st' ->
      (List.length tokens <= next_token_idx st')%nat.
Proof.
  induction n as [|n IH]; intros st Hn; cbn [compress_loop];
    destruct (Nat.ltb_spec (next_token_idx st) (List.length tokens))
      as [Hlt|Hge];
    try (split; [apply ends_Ok|]; intros st' H; injection H as <-; lia).
  - lia.
  - destruct (compress_window_ends st) as [Hends Hidx].
    destruct (compress_window model fuel interrupted window_overlap tokens st)
      as [st1|err]; cbn [bind]; [|split; [assumption|discriminate]].
    specialize (Hidx st1 eq_refl). apply IH. lia.
Qed.

End CompressEnds.

(** C9. For every text and every overlap below the context length, the
    outer loop of [compress] ends: a call of [generate] runs the logits
    processor before it asks the stopping criterion, so every turn of the
    loop that returns leaves [next_token_idx] larger than it found it,
    and with as many turns as there are tokens, the appended EOS
    included, the loop is left with [next_token_idx] at the token count
    or beyond, and [compress] ends with a result or a Python
    exception. *)
Theorem compress_terminates (model : Llama) (fuel : nat)
  (interrupted : nat -> bool) (uncompressed : string)
  (window_overlap : nat) :
  (window_overlap < n_ctx model)%nat ->
  (64 <= fuel)%nat ->
  (List.length (tokenize model uncompressed) + 1 <= fuel)%nat ->
  let tokens := tokenize model uncompressed ++ [token_eos model] in
  (forall st st',
      compress_window model fuel interrupted window_overlap tokens st
      = Ok st' ->
      (next_token_idx st < next_token_idx st')%nat) /\
  ends (compress_loop model fuel interrupted window_overlap tokens fuel
          (mkCompressState 0 Encoder_init [])) /\
  (forall st',
      compress_loop model fuel interrupted window_overlap tokens fuel
        (mkCompressState 0 Encoder_init []) = Ok st' ->
      (List.length tokens <= next_token_idx st')%nat) /\
  ends (compress model fuel interrupted uncompressed window_overlap).
Proof.
  intros HO Hfuel Hlen tokens.
  assert (Hn : (List.length tokens
                <= fuel + next_token_idx (mkCompressState 0 Encoder_init []))%nat).
  { subst tokens. rewrite length_app. cbn [List.length next_token_idx]. lia. }
  destruct (compress_loop_ends model fuel interrupted window_overlap tokens
              Hfuel HO fuel _ Hn) as [Hends Hexit].
  split.
  { intros st st'.
    apply (compress_window_ends model fuel interrupted window_overlap tokens
             Hfuel HO). }
  split; [assumption|]. split; [assumption|].
  unfold compress, compress_tokens. fold tokens.
  apply ends_bind; [|intros; apply ends_Ok].
  apply ends_bind; [assumption|]. intros st _.
  apply ends_bind; [apply bits_to_base64_ends|]. intros; apply ends_Ok.
Qed.

(** ** [compress] against the list of coded pairs *)

Lemma firstn_snoc_nth (l : list nat) (i d : nat) :
  (i < List.length l)%nat -> firstn (S i) l = firstn i l ++ [nth i l d].
Proof.
  revert i. induction l as [|a l IH]; intros i Hi; [cbn in Hi; lia|].
  destruct i as [|i]; [reflexivity|].
  cbn [List.length] in Hi. cbn [firstn nth app].
  f_equal. apply IH. lia.
Qed.

Lemma tokens_nth_error_lt (model : Llama) (text_tokens : list nat)
  (i : nat) :
  (i < List.length text_tokens)%nat ->
  nth_error (text_tokens ++ [token_eos model]) i
  = Some (nth i text_tokens O).
Proof.
  intros Hi. rewrite nth_error_app1 by assumption.
  now apply nth_error_nth'.
Qed.

Lemma tokens_nth_error_eos (model : Llama) (text_tokens : list nat) :
  nth_error (text_tokens ++ [token_eos model]) (List.length text_tokens)
  = Some (token_eos model).
Proof.
  rewrite nth_error_app2 by lia. now rewrite Nat.sub_diag.
Qed.

Section Coded.
Variable model : Llama.
Variable text_tokens : list nat.
Variable cut : nat.
Hypothesis cut_le : (cut <= List.length text_tokens)%nat.

Lemma coded_tokens_length :
  List.length (coded_tokens model text_tokens cut) = S cut.
Proof.
  unfold coded_tokens. rewrite length_app, length_firstn. cbn. lia.
Qed.

Lemma coded_tokens_nth_lt (i : nat) :
  (i < cut)%nat ->
  nth i (coded_tokens model text_tokens cut) O = nth i text_tokens O.
Proof.
  intros Hi. unfold coded_tokens.
  rewrite app_nth1 by (rewrite length_firstn; lia).
  rewrite <- (firstn_skipn cut text_tokens) at 2.
  rewrite app_nth1 by (rewrite length_firstn; lia). reflexivity.
Qed.

Lemma coded_tokens_nth_cut :
  nth cut (coded_tokens model text_tokens cut) O = token_eos model.
Proof.
  unfold coded_tokens.
  rewrite app_nth2 by (rewrite length_firstn; lia).
  rewrite length_firstn.
  replace (cut - Nat.min cut (List.length text_tokens))%nat with O by lia.
  reflexivity.
Qed.

Lemma coded_tokens_firstn (i : nat) :
  (i <= cut)%nat ->
  firstn i (coded_tokens model text_tokens cut) = firstn i text_tokens.
Proof.
  intros Hi. unfold coded_tokens.
  rewrite firstn_app, length_firstn.
  replace (i - Nat.min cut (List.length text_tokens))%nat with O by lia.
  cbn [firstn]. rewrite app_nil_r, firstn_firstn.
  f_equal. lia.
Qed.

(** The context [compress] gives [generate] at the start of a window. *)
Lemma compress_prefix (window_overlap i : nat) :
  (i <= cut)%nat ->
  token_bos model
  :: slice (text_tokens ++ [token_eos model]) (i - window_overlap) i
  = window_context model window_overlap
      (firstn i (coded_tokens model text_tokens cut)).
Proof.
  intros Hi. unfold window_context, slice. f_equal.
  rewrite coded_tokens_firstn by assumption.
  rewrite length_firstn.
  replace (Nat.min i (List.length text_tokens)) with i by lia.
  rewrite skipn_firstn_comm, skipn_app, firstn_app, length_skipn.
  replace (i - (i - window_overlap)
           - (List.length text_tokens - (i - window_overlap)))%nat
    with O by lia.
  rewrite firstn_O. now rewrite app_nil_r.
Qed.

End Coded.

Section CodedValid.
Variable model : Llama.
Hypothesis contract : Llama_contract model.
Variable window_overlap : nat.
Variable text_tokens : list nat.
Hypothesis text_tokens_valid :
  Forall (fun t => (t < n_vocab model)%nat /\ t <> token_eos model)
    text_tokens.
Variable cut : nat.
Hypothesis cut_le : (cut <= List.length text_tokens)%nat.

Lemma text_token_valid (i : nat) :
  (i < List.length text_tokens)%nat ->
  (nth i text_tokens O < n_vocab model)%nat /\
  nth i text_tokens O <> token_eos model.
Proof.
  intros Hi. rewrite Forall_forall in text_tokens_valid.
  apply text_tokens_valid. now apply nth_In.
Qed.

Lemma coded_token_in_vocab (i : nat) :
  (i <= cut)%nat ->
  (nth i (coded_tokens model text_tokens cut) O < n_vocab model)%nat.
Proof.
  intros Hi. destruct (Nat.eq_dec i cut) as [->|Hne].
  - rewrite coded_tokens_nth_cut by assumption.
    apply (eos_in_vocab model contract).
  - rewrite coded_tokens_nth_lt by lia. apply text_token_valid. lia.
Qed.

Lemma coded_pairs_valid (n : nat) :
  forall i context,
    (i + n <= S cut)%nat ->
    Forall valid_pair
      (coded_pairs model window_overlap
         (coded_tokens model text_tokens cut) n i context).
Proof.
  induction n as [|n IH]; intros i context Hn; [constructor|].
  cbn [coded_pairs]. constructor; [|apply IH; lia].
  split; cbn [fst snd].
  - apply (cdf_valid model contract).
  - rewrite (cdf_length model contract). apply coded_token_in_vocab. lia.
Qed.

End CodedValid.

Section CompressCoded.
Variable model : Llama.
Hypothesis contract : Llama_contract model.
Variable fuel : nat.
Hypothesis fuel_64 : (64 <= fuel)%nat.
Variable interrupted : nat -> bool.
Variable window_overlap : nat.
Hypothesis overlap_fits : (window_overlap < n_ctx model)%nat.
Variable text_tokens : list nat.
Hypothesis text_tokens_valid :
  Forall (fun t => (t < n_vocab model)%nat /\ t <> token_eos model)
    text_tokens.
Variable cut : nat.
Hypothesis cut_le : (cut <= List.length text_tokens)%nat.
Hypothesis before_cut : forall j, (j < cut)%nat -> interrupted j = false.
Hypothesis at_cut :
  (cut < List.length text_tokens)%nat -> interrupted cut = true.

(** One call of the logits processor of [compress]. *)
Lemma compress_process_logits_coded (context : list nat)
  (logits : Logits model) (st : CompressState) :
  (next_token_idx st <= cut)%nat ->
  encoded_symbols st
  = firstn (next_token_idx st) (coded_tokens model text_tokens cut) ->
  normalized (low (encoder st)) (high (encoder st)) ->
  exists enc idx,
    let token := nth (next_token_idx st)
                   (coded_tokens model text_tokens cut) O in
    compress_process_logits model fuel interrupted
      (text_tokens ++ [token_eos model]) context logits st
    = Ok (set_inf model token logits,
          mkCompressState idx enc
            (firstn (S (next_token_idx st))
               (coded_tokens model text_tokens cut))) /\
    encode_symbol fuel (compute_cdf model logits) token (encoder st)
    = Ok enc /\
    normalized (low enc) (high enc) /\
    ((next_token_idx st < cut)%nat -> idx = S (next_token_idx st)) /\
    (next_token_idx st = cut ->
     idx = List.length (text_tokens ++ [token_eos model])).
Proof.
  intros Hi Hlog Hn.
  set (i := next_token_idx st) in *.
  set (coded := coded_tokens model text_tokens cut) in *.
  assert (Hloglen : List.length (encoded_symbols st) = i).
  { rewrite Hlog, length_firstn. subst coded.
    rewrite coded_tokens_length by assumption. lia. }
  assert (Hlen : List.length (text_tokens ++ [token_eos model])
                 = S (List.length text_tokens)).
  { rewrite length_app. cbn. lia. }
  assert (Hnext : firstn (S i) coded = encoded_symbols st ++ [nth i coded O]).
  { rewrite Hlog. apply firstn_snoc_nth. subst coded.
    rewrite coded_tokens_length by assumption. lia. }
  assert (Henc : exists enc,
    encode_symbol fuel (compute_cdf model logits) (nth i coded O)
      (encoder st) = Ok enc /\ normalized (low enc) (high enc)).
  { destruct (encode_symbol_sim fuel (compute_cdf model logits)
                (nth i coded O) (encoder st) fuel_64
                (cdf_valid model contract logits))
      as (enc & _ & He & Hne & _); [|assumption|now exists enc].
    rewrite (cdf_length model contract).
    apply coded_token_in_vocab; assumption. }
  destruct Henc as (enc & Henc & Hnenc).
  unfold compress_process_logits. fold i. rewrite Hloglen, Hlen.
  replace (S (List.length text_tokens) - 1)%nat
    with (List.length text_tokens) by lia.
  destruct (Nat.eq_dec i cut) as [Eic|Hne].
  - (* the last symbol: EOS *)
    assert (Htok : nth i coded O = token_eos model).
    { rewrite Eic. apply coded_tokens_nth_cut. assumption. }
    exists enc, (S (List.length text_tokens)).
    assert (Hidx : (if interrupted i && (i <? List.length text_tokens)%nat
                    then List.length text_tokens else i)
                   = List.length text_tokens).
    { destruct (Nat.ltb_spec i (List.length text_tokens)) as [Hlt|Hge].
      - rewrite Eic, at_cut by lia. reflexivity.
      - rewrite andb_false_r. lia. }
    rewrite Hidx, tokens_nth_error_eos.
    cbv zeta. rewrite Htok in *. rewrite Henc. cbn [bind].
    rewrite Hnext.
    split; [reflexivity|]. split; [reflexivity|]. split; [assumption|].
    split; [lia|reflexivity].
  - assert (Hlt : (i < cut)%nat) by lia.
    assert (Htok : nth i coded O = nth i text_tokens O).
    { apply coded_tokens_nth_lt; assumption. }
    exists enc, (S i).
    rewrite (before_cut i Hlt). cbn [andb].
    rewrite tokens_nth_error_lt by lia.
    cbv zeta. rewrite Htok in *. rewrite Henc. cbn [bind].
    rewrite Hnext.
    split; [reflexivity|]. split; [reflexivity|]. split; [assumption|].
    split; [reflexivity|lia].
Qed.

(** One call of [generate] by [compress]: either the window ends before
    the last coded symbol and what is left to encode is the list of
    pairs of the next window, or EOS has been encoded. *)
Lemma compress_generate_loop_coded (room : nat) :
  forall (context : list nat) (st : CompressState),
    (next_token_idx st <= cut)%nat ->
    encoded_symbols st
    = firstn (next_token_idx st) (coded_tokens model text_tokens cut) ->
    normalized (low (encoder st)) (high (encoder st)) ->
    (List.length context + room = n_ctx model)%nat ->
    exists st',
      generate_loop model
        (compress_process_logits model fuel interrupted
           (text_tokens ++ [token_eos model]))
        (compress_should_stop model) room context st = Ok st' /\
      normalized (low (encoder st')) (high (encoder st')) /\
      (((next_token_idx st < next_token_idx st' <= cut)%nat /\
        encoded_symbols st'
        = firstn (next_token_idx st')
            (coded_tokens model text_tokens cut) /\
        forall r,
          encode_symbols fuel
            (coded_pairs model window_overlap
               (coded_tokens model text_tokens cut)
               (S cut - next_token_idx st') (next_token_idx st')
               (window_context model window_overlap
                  (firstn (next_token_idx st')
                     (coded_tokens model text_tokens cut))))
            (encoder st') = r ->
          encode_symbols fuel
            (coded_pairs model window_overlap
               (coded_tokens model text_tokens cut)
               (S cut - next_token_idx st) (next_token_idx st) context)
            (encoder st) = r)
       \/
       (next_token_idx st'
        = List.length (text_tokens ++ [token_eos model]) /\
        encoded_symbols st' = coded_tokens model text_tokens cut /\
        encode_symbols fuel
          (coded_pairs model window_overlap
             (coded_tokens model text_tokens cut)
             (S cut - next_token_idx st) (next_token_idx st) context)
          (encoder st) = Ok (encoder st'))).
Proof.
  induction room as [|room IH]; intros context st Hi Hlog Hn Hroom;
    destruct (compress_process_logits_coded context (eval model context) st
                Hi Hlog Hn) as (enc & idx & Hproc & Henc & Hnenc & Hlt & Heq);
    cbv zeta in Hproc, Henc;
    set (i := next_token_idx st) in *;
    set (coded := coded_tokens model text_tokens cut) in *;
    set (token := nth i coded O) in *;
    cbn [generate_loop]; rewrite Hproc; cbn [bind fst snd];
    unfold compress_should_stop;
    rewrite (argmax_set_inf model contract token)
      by (apply coded_token_in_vocab; assumption);
    replace (S cut - i)%nat with (S (cut - i)) by lia;
    cbn [coded_pairs encode_symbols]; fold coded; fold token;
    rewrite Henc; cbn [bind];
    destruct (Nat.eq_dec i cut) as [Eic|Hne].
  - (* room 0, EOS *)
    assert (Htok : token = token_eos model)
      by (subst token; rewrite Eic; now apply coded_tokens_nth_cut).
    rewrite Htok, Nat.eqb_refl. cbn [orb].
    eexists. split; [reflexivity|]. cbn [encoder next_token_idx
                                          encoded_symbols].
    split; [assumption|]. right.
    split; [now apply Heq|]. split.
    + subst coded. rewrite Eic.
      rewrite <- (coded_tokens_length model text_tokens cut cut_le).
      apply firstn_all.
    + rewrite Eic, Nat.sub_diag. reflexivity.
  - (* room 0, full context *)
    assert (Hfull : (List.length context =? n_ctx model)%nat = true)
      by (apply Nat.eqb_eq; lia).
    rewrite Hfull, orb_true_r.
    eexists. split; [reflexivity|]. cbn [encoder next_token_idx
                                          encoded_symbols].
    split; [assumption|]. left. rewrite (Hlt ltac:(lia)).
    split; [lia|]. split; [reflexivity|].
    intros r Hr. replace (cut - i)%nat with (S cut - S i)%nat by lia.
    exact Hr.
  - (* EOS *)
    assert (Htok : token = token_eos model)
      by (subst token; rewrite Eic; now apply coded_tokens_nth_cut).
    rewrite Htok, Nat.eqb_refl. cbn [orb].
    eexists. split; [reflexivity|]. cbn [encoder next_token_idx
                                          encoded_symbols].
    split; [assumption|]. right.
    split; [now apply Heq|]. split.
    + subst coded. rewrite Eic.
      rewrite <- (coded_tokens_length model text_tokens cut cut_le).
      apply firstn_all.
    + rewrite Eic, Nat.sub_diag. reflexivity.
  - assert (Hilt : (i < cut)%nat) by lia.
    assert (Hnoteos : (token =? token_eos model)%nat = false).
    { apply Nat.eqb_neq. subst token coded.
      rewrite coded_tokens_nth_lt by assumption.
      apply text_token_valid; [assumption|lia]. }
    rewrite Hnoteos. cbn [orb]. rewrite (Hlt Hilt).
    destruct (Nat.eqb_spec (List.length context) (n_ctx model))
      as [Hfull|Hnotfull].
    + eexists. split; [reflexivity|]. cbn [encoder next_token_idx
                                            encoded_symbols].
      split; [assumption|]. left.
      split; [lia|]. split; [reflexivity|].
      intros r Hr. replace (cut - i)%nat with (S cut - S i)%nat by lia.
      exact Hr.
    + destruct (IH (context ++ [token])
                  (mkCompressState (S i) enc (firstn (S i) coded)))
        as (st' & Hrun & Hn' & Hcases).
      { cbn [next_token_idx]. lia. }
      { reflexivity. }
      { assumption. }
      { rewrite length_app. cbn [List.length]. lia. }
      exists st'. split; [exact Hrun|]. split; [assumption|].
      cbn [next_token_idx encoder] in Hcases.
      replace (S cut - S i)%nat with (cut - i)%nat in Hcases by lia.
      destruct Hcases as [(Hidx & Hlog' & Hrel)|(Hidx & Hlog' & Hrel)].
      * left. split; [lia|]. split; [assumption|exact Hrel].
      * right. split; [assumption|]. split; assumption.
Qed.

Lemma compress_loop_coded (n : nat) :
  forall st : CompressState,
    (next_token_idx st <= cut)%nat ->
    encoded_symbols st
    = firstn (next_token_idx st) (coded_tokens model text_tokens cut) ->
    normalized (low (encoder st)) (high (encoder st)) ->
    (S cut <= n + next_token_idx st)%nat ->
    exists st',
      compress_loop model fuel interrupted window_overlap
        (text_tokens ++ [token_eos model]) n st = Ok st' /\
      encoded_symbols st' = coded_tokens model text_tokens cut /\
      encode_symbols fuel
        (coded_pairs model window_overlap
           (coded_tokens model text_tokens cut)
           (S cut - next_token_idx st) (next_token_idx st)
           (window_context model window_overlap
              (firstn (next_token_idx st)
                 (coded_tokens model text_tokens cut))))
        (encoder st) = Ok (encoder st').
Proof.
  induction n as [|n IH]; intros st Hi Hlog Hn Hfuel; [lia|].
  assert (Hlen : List.length (text_tokens ++ [token_eos model])
                 = S (List.length text_tokens)).
  { rewrite length_app. cbn. lia. }
  cbn [compress_loop]. rewrite Hlen.
  destruct (Nat.ltb_spec (next_token_idx st) (S (List.length text_tokens)));
    [|lia].
  unfold compress_window, generate.
  rewrite (compress_prefix model text_tokens cut cut_le window_overlap
             (next_token_idx st) Hi).
  set (prefix := window_context model window_overlap
                   (firstn (next_token_idx st)
                      (coded_tokens model text_tokens cut))).
  assert (Hplen : (List.length prefix <= n_ctx model)%nat).
  { subst prefix. unfold window_context. cbn [List.length].
    rewrite length_skipn. lia. }
  destruct (Nat.ltb_spec (n_ctx model) (List.length prefix)); [lia|].
  destruct (compress_generate_loop_coded
              (n_ctx model - List.length prefix) prefix st Hi Hlog Hn
              ltac:(lia))
    as (st1 & Hrun & Hn1 & Hcases).
  rewrite Hrun. cbn [bind].
  destruct Hcases as [(Hidx & Hlog1 & Hrel)|(Hidx & Hlog1 & Hrel)].
  - destruct (IH st1 ltac:(lia) Hlog1 Hn1 ltac:(lia))
      as (st' & Hloop & Hlog' & Henc').
    exists st'. split; [assumption|]. split; [assumption|].
    apply Hrel. exact Henc'.
  - exists st1. split; [|split; assumption].
    destruct n; cbn [compress_loop]; rewrite Hidx, Nat.ltb_irrefl;
      reflexivity.
Qed.

(** [compress] on the token list: the encoder it finishes is the one
    that encoded the coded pairs, and the string it returns unpacks to
    the bits written, the 1 of [finish] and fewer than six zeros. *)
Lemma compress_tokens_coded :
  (S (List.length text_tokens) <= fuel)%nat ->
  exists st compressed pad,
    compress_tokens model fuel interrupted text_tokens window_overlap
    = Ok (st, compressed) /\
    encoded_symbols st = coded_tokens model text_tokens cut /\
    encode_symbols fuel
      (coded_pairs model window_overlap
         (coded_tokens model text_tokens cut) (S cut) 0
         [token_bos model])
      Encoder_init = Ok (encoder st) /\
    base64_to_bits compressed
    = Ok (encoded_data (encoder st) ++ 1 :: repeat 0 pad).
Proof.
  intros Hfuel.
  destruct (compress_loop_coded fuel (mkCompressState 0 Encoder_init []))
    as (st & Hloop & Hlog & Henc).
  { cbn. lia. }
  { reflexivity. }
  { exact normalized_init. }
  { cbn [next_token_idx]. lia. }
  cbn [next_token_idx encoder] in Henc.
  rewrite Nat.sub_0_r in Henc.
  change (window_context model window_overlap
            (firstn 0 (coded_tokens model text_tokens cut)))
    with [token_bos model] in Henc.
  destruct (encode_symbols_sim fuel _ fuel_64
              (coded_pairs_valid model contract window_overlap text_tokens
                 text_tokens_valid cut cut_le (S cut) 0 [token_bos model]
                 ltac:(lia))
              Encoder_init normalized_init)
    as (e' & out & Henc' & _ & Hdata & Hbits & _).
  rewrite Henc in Henc'. injection Henc' as <-.
  cbn [encoded_data Encoder_init app] in Hdata.
  destruct (pack_unpack (encoded_data (encoder st) ++ [1]) 0)
    as (pad & s & _ & _ & Hpack & _ & Hback).
  { apply Forall_app. split; [now rewrite Hdata|].
    constructor; [now right|constructor]. }
  { right. rewrite last_last. discriminate. }
  cbn [repeat] in Hpack. rewrite app_nil_r in Hpack.
  exists st, s, pad. unfold compress_tokens. rewrite Hloop. cbn [bind].
  unfold get_encoded, finish. cbn [encoded_data]. rewrite Hpack.
  cbn [bind]. split; [reflexivity|]. split; [assumption|].
  split; [assumption|]. rewrite Hback, <- app_assoc. reflexivity.
Qed.

End CompressCoded.

(** ** [decompress] against the list of coded pairs *)

Lemma string_append_nil_r (s : string) : (s ++ "")%string = s.
Proof. induction s as [|c s IH]; [reflexivity|]. cbn. now rewrite IH. Qed.

Lemma string_append_assoc (a b c : string) :
  ((a ++ b) ++ c)%string = (a ++ (b ++ c))%string.
Proof. induction a as [|x a IH]; [reflexivity|]. cbn. now rewrite IH. Qed.

Lemma text_of_tokens_snoc (model : Llama) (first : bool) (l : list nat)
  (t : nat) :
  text_of_tokens model first (l ++ [t])
  = (text_of_tokens model first l
     ++ piece model (first && (List.length l =? 0)%nat) t)%string.
Proof.
  revert first. induction l as [|a l IH]; intros first.
  - cbn [app text_of_tokens List.length Nat.eqb String.append].
    now rewrite andb_true_r, string_append_nil_r.
  - cbn [app text_of_tokens List.length Nat.eqb].
    rewrite IH, andb_false_r. cbn [andb].
    now rewrite string_append_assoc.
Qed.

Section DecompressCoded.
Variable model : Llama.
Hypothesis contract : Llama_contract model.
Variable fuel : nat.
Hypothesis fuel_64 : (64 <= fuel)%nat.
Variable window_overlap : nat.
Hypothesis overlap_fits : (window_overlap < n_ctx model)%nat.
Variable text_tokens : list nat.
Hypothesis text_tokens_valid :
  Forall (fun t => (t < n_vocab model)%nat /\ t <> token_eos model)
    text_tokens.
Variable cut : nat.
Hypothesis cut_le : (cut <= List.length text_tokens)%nat.

(** One call of [generate] by [decompress]: either the window ends with
    the decoder in front of the pairs of the next window, or EOS has
    been decoded and the text is complete. *)
Lemma decompress_generate_loop_coded (room : nat) :
  forall (context : list nat) (st : DecompressState),
    (List.length (tokens_so_far st) <= cut)%nat ->
    tokens_so_far st
    = firstn (List.length (tokens_so_far st))
        (coded_tokens model text_tokens cut) ->
    done st = false ->
    decompressed st = text_of_tokens model true (tokens_so_far st) ->
    (List.length context + room = n_ctx model)%nat ->
    insync fuel
      (coded_pairs model window_overlap (coded_tokens model text_tokens cut)
         (S cut - List.length (tokens_so_far st))
         (List.length (tokens_so_far st)) context)
      (decoder st) ->
    exists st',
      generate_loop model (decompress_process_logits model fuel)
        (decompress_should_stop model) room context st = Ok st' /\
      ((done st' = false /\
        (List.length (tokens_so_far st)
         < List.length (tokens_so_far st') <= cut)%nat /\
        tokens_so_far st'
        = firstn (List.length (tokens_so_far st'))
            (coded_tokens model text_tokens cut) /\
        decompressed st' = text_of_tokens model true (tokens_so_far st') /\
        insync fuel
          (coded_pairs model window_overlap
             (coded_tokens model text_tokens cut)
             (S cut - List.length (tokens_so_far st'))
             (List.length (tokens_so_far st'))
             (window_context model window_overlap (tokens_so_far st')))
          (decoder st'))
       \/
       (done st' = true /\
        decompressed st'
        = text_of_tokens model true (firstn cut text_tokens))).
Proof.
  induction room as [|room IH];
    intros context [toks text d dn] Hp Htoks Hdone Htext Hroom Hsync;
    cbn [tokens_so_far decompressed decoder done] in *; subst dn;
    set (p := List.length toks) in *;
    set (coded := coded_tokens model text_tokens cut) in *;
    replace (S cut - p)%nat with (S (cut - p)) in Hsync by lia;
    cbn [coded_pairs] in Hsync;
    set (token := nth p coded O) in *;
    (pose proof (coded_pairs_valid model contract window_overlap text_tokens
                   text_tokens_valid cut cut_le (S (cut - p)) p context
                   ltac:(lia)) as Hvalid);
    cbn [coded_pairs] in Hvalid; fold coded in Hvalid; fold token in Hvalid;
    apply Forall_cons_iff in Hvalid; destruct Hvalid as [Hv1 Hvrest];
    destruct (insync_step fuel _ _ _ d fuel_64 Hv1 Hvrest Hsync)
      as (d1 & Hdec & Hsync1);
    cbn [generate_loop]; unfold decompress_process_logits;
    cbn [decoder tokens_so_far decompressed done];
    rewrite Hdec; cbn [bind fst snd];
    destruct (Nat.eq_dec p cut) as [Epc|Hne].
  - assert (Htok : token = token_eos model)
      by (subst token; rewrite Epc; now apply coded_tokens_nth_cut).
    rewrite Htok, Nat.eqb_refl. cbn [bind fst snd].
    unfold decompress_should_stop.
    rewrite (argmax_set_inf model contract)
      by apply (eos_in_vocab model contract).
    rewrite Nat.eqb_refl. cbn [done orb tokens_so_far decompressed decoder].
    eexists. split; [reflexivity|]. right.
    cbn [done decompressed]. split; [reflexivity|].
    rewrite Htext, Htoks. fold p. rewrite Epc. subst coded.
    now rewrite coded_tokens_firstn by lia.
  - assert (Hplt : (p < cut)%nat) by lia.
    assert (Hnoteos : token <> token_eos model).
    { subst token coded. rewrite coded_tokens_nth_lt by assumption.
      apply (text_token_valid model text_tokens text_tokens_valid). lia. }
    apply Nat.eqb_neq in Hnoteos. rewrite Hnoteos. cbn [bind fst snd].
    unfold decompress_should_stop.
    rewrite (argmax_set_inf model contract)
      by (apply (coded_token_in_vocab model contract); assumption + lia).
    rewrite Hnoteos.
    cbn [done orb tokens_so_far decompressed decoder].
    assert (Hfull : (List.length context =? n_ctx model)%nat = true)
      by (apply Nat.eqb_eq; lia).
    rewrite Hfull.
    eexists. split; [reflexivity|]. left.
    cbn [done tokens_so_far decompressed decoder].
    assert (Hnext : toks ++ [token] = firstn (S p) coded).
    { rewrite Htoks at 1. symmetry. apply firstn_snoc_nth. subst coded.
      rewrite coded_tokens_length by assumption. lia. }
    rewrite length_app. cbn [List.length]. fold p.
    replace (p + 1)%nat with (S p) by lia.
    split; [reflexivity|]. split; [lia|]. split; [exact Hnext|]. split.
    + rewrite text_of_tokens_snoc, Htext. reflexivity.
    + rewrite Hnoteos, Hfull in Hsync1. cbn [orb] in Hsync1.
      replace (S cut - S p)%nat with (cut - p)%nat by lia.
      rewrite Hnext. exact Hsync1.
  - assert (Htok : token = token_eos model)
      by (subst token; rewrite Epc; now apply coded_tokens_nth_cut).
    rewrite Htok, Nat.eqb_refl. cbn [bind fst snd].
    unfold decompress_should_stop.
    rewrite (argmax_set_inf model contract)
      by apply (eos_in_vocab model contract).
    rewrite Nat.eqb_refl. cbn [done orb tokens_so_far decompressed decoder].
    eexists. split; [reflexivity|]. right.
    cbn [done decompressed]. split; [reflexivity|].
    rewrite Htext, Htoks. fold p. rewrite Epc. subst coded.
    now rewrite coded_tokens_firstn by lia.
  - assert (Hplt : (p < cut)%nat) by lia.
    assert (Hnoteos : token <> token_eos model).
    { subst token coded. rewrite coded_tokens_nth_lt by assumption.
      apply (text_token_valid model text_tokens text_tokens_valid). lia. }
    apply Nat.eqb_neq in Hnoteos. rewrite Hnoteos. cbn [bind fst snd].
    unfold decompress_should_stop.
    rewrite (argmax_set_inf model contract)
      by (apply (coded_token_in_vocab model contract); assumption + lia).
    rewrite Hnoteos.
    cbn [done orb tokens_so_far decompressed decoder].
    assert (Hnext : toks ++ [token] = firstn (S p) coded).
    { rewrite Htoks at 1. symmetry. apply firstn_snoc_nth. subst coded.
      rewrite coded_tokens_length by assumption. lia. }
    assert (Hlen1 : List.length (toks ++ [token]) = S p).
    { rewrite length_app. cbn [List.length]. fold p. lia. }
    rewrite Hnoteos in Hsync1. cbn [orb] in Hsync1.
    destruct (Nat.eqb_spec (List.length context) (n_ctx model))
      as [Hfull|Hnotfull].
    + eexists. split; [reflexivity|]. left.
      cbn [done tokens_so_far decompressed decoder]. rewrite Hlen1.
      split; [reflexivity|]. split; [lia|]. split; [exact Hnext|]. split.
      * rewrite text_of_tokens_snoc, Htext. reflexivity.
      * replace (S cut - S p)%nat with (cut - p)%nat by lia.
        rewrite Hnext. exact Hsync1.
    + destruct (IH (context ++ [token])
                  (mkDecompressState (toks ++ [token])
                     (text ++ piece model (p =? 0)%nat token) d1 false))
        as (st' & Hrun & Hcases);
        cbn [tokens_so_far decompressed decoder done]; rewrite ?Hlen1.
      { lia. }
      { exact Hnext. }
      { reflexivity. }
      { rewrite text_of_tokens_snoc, Htext. reflexivity. }
      { rewrite length_app. cbn [List.length]. lia. }
      { replace (S cut - S p)%nat with (cut - p)%nat by lia. exact Hsync1. }
      exists st'. split; [exact Hrun|].
      cbn [tokens_so_far] in Hcases. rewrite Hlen1 in Hcases.
      destruct Hcases as [(Hd & Hl & Ht & Hx & Hs)|Hfin].
      * left. split; [assumption|]. split; [lia|]. repeat split; assumption.
      * right. assumption.
Qed.

Lemma decompress_loop_coded (n : nat) :
  forall st : DecompressState,
    (List.length (tokens_so_far st) <= cut)%nat ->
    tokens_so_far st
    = firstn (List.length (tokens_so_far st))
        (coded_tokens model text_tokens cut) ->
    done st = false ->
    decompressed st = text_of_tokens model true (tokens_so_far st) ->
    insync fuel
      (coded_pairs model window_overlap (coded_tokens model text_tokens cut)
         (S cut - List.length (tokens_so_far st))
         (List.length (tokens_so_far st))
         (window_context model window_overlap (tokens_so_far st)))
      (decoder st) ->
    (S cut <= n + List.length (tokens_so_far st))%nat ->
    exists st',
      decompress_loop model fuel window_overlap n st = Ok st' /\
      decompressed st' = text_of_tokens model true (firstn cut text_tokens).
Proof.
  induction n as [|n IH]; intros st Hp Htoks Hdone Htext Hsync Hfuel; [lia|].
  cbn [decompress_loop]. rewrite Hdone. cbn [negb].
  unfold decompress_window, generate.
  change (token_bos model
          :: skipn (List.length (tokens_so_far st) - window_overlap)
               (tokens_so_far st))
    with (window_context model window_overlap (tokens_so_far st)).
  set (prefix := window_context model window_overlap (tokens_so_far st)) in *.
  assert (Hplen : (List.length prefix <= n_ctx model)%nat).
  { subst prefix. unfold window_context. cbn [List.length].
    rewrite length_skipn. lia. }
  destruct (Nat.ltb_spec (n_ctx model) (List.length prefix)); [lia|].
  destruct (decompress_generate_loop_coded
              (n_ctx model - List.length prefix) prefix st Hp Htoks Hdone
              Htext ltac:(lia) Hsync)
    as (st1 & Hrun & Hcases).
  rewrite Hrun. cbn [bind].
  destruct Hcases as [(Hd & Hl & Ht & Hx & Hs)|(Hd & Hx)].
  - apply IH; try assumption; lia.
  - exists st1. split; [|assumption].
    destruct n; cbn [decompress_loop]; rewrite Hd; reflexivity.
Qed.

(** [decompress] on a string that unpacks to the stream written for the
    coded pairs. *)
Lemma decompress_coded (compressed : string) (e : Encoder) (pad : nat) :
  (S (List.length text_tokens) <= fuel)%nat ->
  encode_symbols fuel
    (coded_pairs model window_overlap (coded_tokens model text_tokens cut)
       (S cut) 0 [token_bos model])
    Encoder_init = Ok e ->
  base64_to_bits compressed = Ok (encoded_data e ++ 1 :: repeat 0 pad) ->
  decompress model fuel compressed window_overlap
  = Ok (text_of_tokens model true (firstn cut text_tokens)).
Proof.
  intros Hfuel Henc Hbits. unfold decompress. rewrite Hbits. cbn [bind].
  destruct (decompress_loop_coded fuel
              (mkDecompressState [] EmptyString
                 (Decoder_init (encoded_data e ++ 1 :: repeat 0 pad)) false))
    as (st' & Hloop & Htext); cbn [tokens_so_far decompressed decoder done
                                   List.length].
  - lia.
  - reflexivity.
  - reflexivity.
  - reflexivity.
  - rewrite Nat.sub_0_r.
    change (window_context model window_overlap []) with [token_bos model].
    apply insync_init; [assumption|apply terminator_finish].
  - lia.
  - rewrite Hloop. cbn [bind]. now rewrite Htext.
Qed.

End DecompressCoded.


(** ** Round trip and interruption *)



(** *** The collaborator over bytes keeps the contract *)

Lemma cumsum_increasing (freqs : list Z) :
  Forall (fun f => 0 < f) freqs ->
  forall acc, increasing_from acc (cumsum acc freqs).
Proof.
  intros H. induction H as [|f freqs Hf _ IH]; intros acc; [exact I|].
  cbn [cumsum increasing_from]. split; [lia|apply IH].
Qed.

Lemma cumsum_last (bound : Z) (freqs : list Z) :
  0 <= bound -> Forall (fun f => f <= bound) freqs ->
  forall acc,
    last (cumsum acc freqs) acc
    <= acc + bound * Z.of_nat (List.length freqs).
Proof.
  intros Hb H. induction H as [|f freqs Hf _ IH]; intros acc.
  - cbn. lia.
  - cbn [cumsum List.length]. specialize (IH (acc + f)).
    destruct (cumsum (acc + f) freqs) as [|c l] eqn:E.
    + cbn [last]. lia.
    + change (last ((acc + f) :: c :: l) acc) with (last (c :: l) acc).
      rewrite (last_cons_default c l acc (acc + f)). lia.
Qed.

Lemma cumsum_length (freqs : list Z) (acc : Z) :
  List.length (cumsum acc freqs) = List.length freqs.
Proof.
  revert acc. induction freqs as [|f freqs IH]; intros acc; [reflexivity|].
  cbn [cumsum List.length]. now rewrite IH.
Qed.

Lemma byte_model_text (text : string) (first : bool) :
  text_of_tokens byte_model first
    (map nat_of_ascii (list_ascii_of_string text)) = text.
Proof.
  revert first. induction text as [|c text IH]; intros first;
    [reflexivity|].
  cbn [list_ascii_of_string map text_of_tokens]. rewrite IH.
  unfold piece.
  change (tokenizer_adds_space_prefix byte_model) with false.
  rewrite andb_false_r.
  cbn [detokenize byte_model map string_of_list_ascii].
  rewrite ascii_nat_embedding. reflexivity.
Qed.

Lemma byte_model_contract : Llama_contract byte_model.
Proof.
  constructor.
  - intros logits. cbn [compute_cdf byte_model].
    set (freqs := map (fun t => if (t =? hd O (fst logits))%nat
                                then 1000 else 1) (seq 0 258)).
    assert (Hpos : Forall (fun f => 0 < f) freqs).
    { subst freqs. apply Forall_forall. intros f Hf.
      apply in_map_iff in Hf. destruct Hf as (t & <- & _).
      destruct (t =? hd O (fst logits))%nat; lia. }
    assert (Hle : Forall (fun f => f <= 1000) freqs).
    { subst freqs. apply Forall_forall. intros f Hf.
      apply in_map_iff in Hf. destruct Hf as (t & <- & _).
      destruct (t =? hd O (fst logits))%nat; lia. }
    assert (Hlen : List.length freqs = 258%nat).
    { subst freqs. now rewrite length_map, length_seq. }
    split; [|split].
    + intros E. apply (f_equal (@List.length Z)) in E.
      rewrite cumsum_length, Hlen in E. discriminate.
    + now apply cumsum_increasing.
    + pose proof (cumsum_last 1000 freqs ltac:(lia) Hle 0) as H.
      rewrite Hlen in H. rewrite quarter_range_eq. lia.
  - intros logits. cbn [compute_cdf byte_model n_vocab].
    now rewrite cumsum_length, length_map, length_seq.
  - reflexivity.
  - cbn. lia.
  - intros text. cbn [tokenize byte_model n_vocab token_eos].
    apply Forall_forall. intros t Ht. apply in_map_iff in Ht.
    destruct Ht as (c & <- & _).
    pose proof (nat_ascii_bounded c). lia.
  - intros text. apply byte_model_text.
Qed.



Lemma compress_terminates_witness :
  ends (compress byte_model 64 (fun n => (3 <=? n)%nat)
          "hello world"%string 2).
Proof.
  apply (compress_terminates byte_model 64 (fun n => (3 <=? n)%nat)
           "hello world"%string 2).
  - cbn. lia.
  - lia.
  - cbn. lia.
Defined.
Lemma while_loop_more_fuel {St : Type} (cond : St -> bool) (body : St -> St)
  (fuel fuel' : nat) (s s' : St) :
  while_loop fuel cond body s = Ok s' -> (fuel <= fuel')%nat ->
  while_loop fuel' cond body s = Ok s'.
Proof.
  revert fuel' s. induction fuel as [|fuel IH]; intros fuel' s Hrun Hle.
  - cbn [while_loop] in Hrun. destruct (cond s) eqn:E; [discriminate|].
    now rewrite (while_loop_false _ _ _ _ E).
  - cbn [while_loop] in Hrun. destruct (cond s) eqn:E.
    + destruct fuel' as [|fuel']; [lia|].
      rewrite (while_loop_true _ _ _ _ E). apply IH; [assumption|lia].
    + now rewrite (while_loop_false _ _ _ _ E).
Qed.


(** * Further properties of the coder *)

Section UpdateRaises.
Context {St : Type} `{ArithmeticCoderBase St}.
Hypothesis laws : coder_laws St.

Lemma narrow_out_of_range (cum_freqs : list Z) (symbol : nat) (s : St) :
  (List.length cum_freqs <= symbol)%nat ->
  narrow cum_freqs symbol s = Raise IndexError.
Proof.
  intros Hlen. unfold narrow.
  destruct cum_freqs as [|c l]; [reflexivity|].
  cbn [last_item bind]. unfold index.
  apply nth_error_None in Hlen. rewrite Hlen. reflexivity.
Qed.

Lemma narrow_zero_total (cum_freqs : list Z) (symbol : nat) (s : St) :
  (symbol < List.length cum_freqs)%nat ->
  last cum_freqs 0 = 0 ->
  narrow cum_freqs symbol s = Raise ZeroDivisionError.
Proof.
  intros Hlen Hlast. unfold narrow.
  destruct cum_freqs as [|c l]; [cbn in Hlen; lia|].
  cbn [last_item bind]. rewrite (index_nth _ _ Hlen). cbn [bind].
  rewrite Hlast. reflexivity.
Qed.

Lemma narrow_returns (cum_freqs : list Z) (symbol : nat) (s : St) :
  (symbol < List.length cum_freqs)%nat ->
  last cum_freqs 0 <> 0 ->
  exists s1, narrow cum_freqs symbol s = Ok s1.
Proof.
  intros Hlen Hlast. unfold narrow.
  destruct cum_freqs as [|c l]; [cbn in Hlen; lia|].
  cbn [last_item bind]. rewrite (index_nth _ _ Hlen). cbn [bind].
  apply Z.eqb_neq in Hlast. rewrite Hlast.
  destruct symbol as [|p]; cbn [bind]; [eauto|].
  rewrite (index_nth (c :: l) p) by lia. cbn [bind]. eauto.
Qed.

End UpdateRaises.

(** X1. [update] halts on every state and every table, and its
    exceptions are those of its first four lines: [IndexError] when the
    symbol is not an index of the table (the empty table included),
    [ZeroDivisionError] when it is and the last entry is 0; otherwise it
    returns, each loop taking at most 64 turns. *)
Theorem update_raises {St : Type} `{ArithmeticCoderBase St}
  (laws : coder_laws St) (fuel : nat) (cum_freqs : list Z) (symbol : nat)
  (s : St) :
  (64 <= fuel)%nat ->
  ((List.length cum_freqs <= symbol)%nat ->
   update fuel cum_freqs symbol s = Raise IndexError) /\
  ((symbol < List.length cum_freqs)%nat -> last cum_freqs 0 = 0 ->
   update fuel cum_freqs symbol s = Raise ZeroDivisionError) /\
  ((symbol < List.length cum_freqs)%nat -> last cum_freqs 0 <> 0 ->
   exists s', update fuel cum_freqs symbol s = Ok s' /\
     update 64 cum_freqs symbol s = Ok s').
Proof.
  intros Hfuel. unfold update. split; [|split].
  - intros Hlen. now rewrite (narrow_out_of_range _ _ _ Hlen).
  - intros Hlen Hlast. now rewrite (narrow_zero_total _ _ _ Hlen Hlast).
  - intros Hlen Hlast.
    destruct (narrow_returns cum_freqs symbol s Hlen Hlast) as (s1 & ->).
    cbn [bind].
    destruct (shift_loop_terminates laws 64 s1 (le_n _)) as (s2 & H2).
    destruct (underflow_loop_terminates laws 64 s2 (le_n _)) as (s3 & H3).
    exists s3.
    rewrite (while_loop_more_fuel _ _ _ _ _ _ H2 Hfuel), H2. cbn [bind].
    rewrite (while_loop_more_fuel _ _ _ _ _ _ H3 Hfuel), H3. now split.
Qed.

Lemma update_raises_witness :
  update 64 [3; 5; 8] 3 Encoder_init = Raise IndexError /\
  update 64 [0; 0] 1 Encoder_init = Raise ZeroDivisionError /\
  exists e, update 64 [3; 5; 8] 1 Encoder_init = Ok e.
Proof.
  split; [|split].
  - apply (update_raises Encoder_laws 64 [3; 5; 8] 3 Encoder_init (le_n _)).
    cbn. lia.
  - apply (update_raises Encoder_laws 64 [0; 0] 1 Encoder_init (le_n _)).
    + cbn. lia.
    + reflexivity.
  - destruct (update_raises Encoder_laws 64 [3; 5; 8] 1 Encoder_init (le_n _))
      as (_ & _ & H).
    destruct H as (e & He & _); [cbn; lia|cbn; lia|].
    exists e. exact He.
Defined.
(** ** What a symbol costs *)

(** Every turn of the first loop of [update] doubles the width of the
    encoder's interval and produces one bit. *)
Lemma Encoder_shift_doubles (e : Encoder) :
  ordered e -> shift_cond e = true ->
  bits_produced (shift_body e) = S (bits_produced e) /\
  high (shift_body e) - low (shift_body e) + 1
  = 2 * (high e - low e + 1).
Proof.
  intros Hord Hcond.
  destruct (Encoder_shift_body e Hord Hcond)
    as (b & _ & Hdata & Hnu & Hlow & Hhigh).
  split.
  - unfold bits_produced. rewrite Hdata, Hnu, length_app.
    cbn [List.length]. rewrite repeat_length. lia.
  - rewrite Hlow, Hhigh. lia.
Qed.

(** So does every turn of the second loop, the bit being owed. *)
Lemma Encoder_underflow_doubles (e : Encoder) :
  straddling e -> underflow_cond e = true ->
  bits_produced (underflow_body e) = S (bits_produced e) /\
  high (underflow_body e) - low (underflow_body e) + 1
  = 2 * (high e - low e + 1).
Proof.
  intros Hstr Hcond.
  destruct (underflow_cond_true Encoder_laws e Hstr Hcond)
    as (_ & _ & Hlow & Hhigh).
  split.
  - unfold bits_produced. destruct e as [lo hi data nu]. cbn. lia.
  - rewrite Hlow, Hhigh. lia.
Qed.

Lemma shift_loop_doubles (fuel : nat) (e e' : Encoder) :
  ordered e ->
  while_loop fuel shift_cond shift_body e = Ok e' ->
  straddling e' /\
  exists k : nat,
    bits_produced e' = (bits_produced e + k)%nat /\
    high e' - low e' + 1 = 2 ^ Z.of_nat k * (high e - low e + 1).
Proof.
  intros Hord Hrun.
  destruct (while_loop_inv
              (fun s : Encoder =>
                 ordered s /\
                 exists k : nat,
                   bits_produced s = (bits_produced e + k)%nat /\
                   high s - low s + 1
                   = 2 ^ Z.of_nat k * (high e - low e + 1))
              shift_cond shift_body) with (fuel := fuel) (s := e) (s' := e')
    as ((Hord' & Hk) & Hcond); try assumption.
  - intros s (Hs & k & Hbits & Hwidth) Hc.
    destruct (Encoder_shift_doubles s Hs Hc) as (Hb & Hw).
    split; [apply (shift_body_ordered Encoder_laws); assumption|].
    exists (S k). split; [lia|].
    rewrite Hw, Hwidth, Nat2Z.inj_succ, Z.pow_succ_r by lia. ring.
  - split; [assumption|]. exists O. split; [lia|].
    change (2 ^ Z.of_nat 0) with 1. ring.
  - split; [|assumption]. now apply shift_cond_false.
Qed.

Lemma underflow_loop_doubles (fuel : nat) (e e' : Encoder) :
  straddling e ->
  while_loop fuel underflow_cond underflow_body e = Ok e' ->
  normalized (low e') (high e') /\
  exists k : nat,
    bits_produced e' = (bits_produced e + k)%nat /\
    high e' - low e' + 1 = 2 ^ Z.of_nat k * (high e - low e + 1).
Proof.
  intros Hstr Hrun.
  destruct (while_loop_inv
              (fun s : Encoder =>
                 straddling s /\
                 exists k : nat,
                   bits_produced s = (bits_produced e + k)%nat /\
                   high s - low s + 1
                   = 2 ^ Z.of_nat k * (high e - low e + 1))
              underflow_cond underflow_body)
    with (fuel := fuel) (s := e) (s' := e')
    as ((Hstr' & Hk) & Hcond); try assumption.
  - intros s (Hs & k & Hbits & Hwidth) Hc.
    destruct (Encoder_underflow_doubles s Hs Hc) as (Hb & Hw).
    split; [apply (underflow_body_straddling Encoder_laws); assumption|].
    exists (S k). split; [lia|].
    rewrite Hw, Hwidth, Nat2Z.inj_succ, Z.pow_succ_r by lia. ring.
  - split; [assumption|]. exists O. split; [lia|].
    change (2 ^ Z.of_nat 0) with 1. ring.
  - split; [|assumption]. now apply underflow_cond_false.
Qed.

(** X2. The cost of a symbol.  From a state between two calls, with a
    table that meets the invariants, [encode_symbol] produces [k] bits
    (written or owed as underflow bits), where [k] is the number of
    doublings that take the width of the symbol's share of the interval
    to the width of the new interval, which lies above 2^62 and is at
    most 2^64. *)
Theorem encode_symbol_bits (fuel : nat) (cum_freqs : list Z) (symbol : nat)
  (e : Encoder) :
  (64 <= fuel)%nat ->
  valid_cdf cum_freqs ->
  (symbol < List.length cum_freqs)%nat ->
  normalized (low e) (high e) ->
  let range := enc_high e - enc_low e + 1 in
  let total := last cum_freqs 0 in
  let share :=
    sym_high cum_freqs symbol * range / total
    - sym_low cum_freqs symbol * range / total in
  exists (e' : Encoder) (k : nat),
    encode_symbol fuel cum_freqs symbol e = Ok e' /\
    bits_produced e' = (bits_produced e + k)%nat /\
    enc_high e' - enc_low e' + 1 = 2 ^ Z.of_nat k * share /\
    2 ^ 62 < 2 ^ Z.of_nat k * share <= 2 ^ 64 /\
    (k <= 64)%nat.
Proof.
  intros Hfuel Hcdf Hsym Hnorm range total share.
  destruct (update_normalized Encoder_laws fuel cum_freqs symbol e
              Hfuel Hcdf Hsym Hnorm) as (e' & Hrun & Hnorm').
  destruct (narrow_ordered Encoder_laws cum_freqs symbol e Hcdf Hsym Hnorm)
    as (e1 & Hnarrow & Hord1 & _ & _).
  pose proof (narrow_eq Encoder_laws cum_freqs symbol e Hcdf Hsym) as Heq.
  rewrite Hnarrow in Heq. injection Heq as Heq.
  assert (Hwidth1 : high e1 - low e1 + 1 = share
                    /\ bits_produced e1 = bits_produced e).
  { subst e1. destruct e as [lo hi data nu]. unfold bits_produced.
    cbn [low high set_low set_high Encoder_coder enc_low enc_high
         encoded_data num_underflow].
    subst share range total.
    cbn [enc_low enc_high]. split; [lia|reflexivity]. }
  destruct Hwidth1 as (Hwidth1 & Hbits1).
  unfold update in Hrun. rewrite Hnarrow in Hrun. cbn [bind] in Hrun.
  destruct (while_loop fuel shift_cond shift_body e1) as [e2|] eqn:H2;
    cbn [bind] in Hrun; [|discriminate].
  destruct (shift_loop_doubles fuel e1 e2 Hord1 H2)
    as (Hstr2 & k2 & Hbits2 & Hwidth2).
  destruct (underflow_loop_doubles fuel e2 e' Hstr2 Hrun)
    as (_ & k3 & Hbits3 & Hwidth3).
  assert (Hfinal : enc_high e' - enc_low e' + 1
                   = 2 ^ Z.of_nat (k2 + k3) * share).
  { change (high e' - low e' + 1 = 2 ^ Z.of_nat (k2 + k3) * share).
    rewrite Hwidth3, Hwidth2, Hwidth1, Nat2Z.inj_add, Z.pow_add_r by lia.
    ring. }
  pose proof (normalized_gap _ _ Hnorm') as (_ & Hgap).
  rewrite quarter_range_eq in Hgap.
  assert (Hhi : enc_high e' - enc_low e' + 1 <= 2 ^ 64).
  { destruct Hnorm' as (Hlo & Hhi & _). rewrite full_range_eq in Hhi.
    change (low e') with (enc_low e') in *.
    change (high e') with (enc_high e') in *. lia. }
  change (high e' - low e' + 1) with (enc_high e' - enc_low e' + 1) in Hgap.
  exists e', (k2 + k3)%nat.
  split.
  { unfold encode_symbol, update. rewrite Hnarrow. cbn [bind].
    rewrite H2. cbn [bind]. exact Hrun. }
  split; [lia|]. split; [exact Hfinal|].
  split; [lia|].
  assert (Hshare : 1 <= share).
  { assert (0 < 2 ^ Z.of_nat (k2 + k3)) by (apply Z.pow_pos_nonneg; lia).
    nia. }
  destruct (Nat.le_gt_cases (k2 + k3) 64) as [Hk|Hk]; [exact Hk|exfalso].
  assert (2 ^ 65 <= 2 ^ Z.of_nat (k2 + k3))
    by (apply Z.pow_le_mono_r; lia).
  assert (2 ^ 64 < 2 ^ 65) by (apply Z.pow_lt_mono_r; lia).
  nia.
Qed.

Lemma encode_symbol_bits_witness :
  exists (e' : Encoder) (k : nat),
    encode_symbol 64 [3; 5; 8] 1 Encoder_init = Ok e' /\
    bits_produced e' = (bits_produced Encoder_init + k)%nat.
Proof.
  destruct (encode_symbol_bits 64 [3; 5; 8] 1 Encoder_init (le_n _)
              valid_cdf_example ltac:(cbn; lia) normalized_init)
    as (e' & k & Hrun & Hbits & _).
  exists e', k. split; assumption.
Defined.


(** ** The decoder and the zeros that end a stream *)

Lemma while_loop_same {St : Type} (R : St -> St -> Prop)
  (cond : St -> bool) (body : St -> St) :
  (forall s1 s2, R s1 s2 -> cond s1 = cond s2) ->
  (forall s1 s2, R s1 s2 -> R (body s1) (body s2)) ->
  forall fuel s1 s2, R s1 s2 ->
    same_result R (while_loop fuel cond body s1)
      (while_loop fuel cond body s2).
Proof.
  intros Hcond Hbody fuel.
  induction fuel as [|fuel IH]; intros s1 s2 HR; cbn [while_loop];
    rewrite <- (Hcond _ _ HR); destruct (cond s1); cbn; auto.
Qed.

Lemma same_result_bind {A B : Type} (R : A -> A -> Prop)
  (Q : B -> B -> Prop) (r1 r2 : result A) (k1 k2 : A -> result B) :
  same_result R r1 r2 ->
  (forall a1 a2, R a1 a2 -> same_result Q (k1 a1) (k2 a2)) ->
  same_result Q (bind r1 k1) (bind r2 k2).
Proof.
  intros Hr Hk. destruct r1 as [a1|e1], r2 as [a2|e2]; cbn in *;
    try contradiction; auto.
Qed.

Lemma same_stream_read (inp1 inp2 : list Z) :
  (forall i, sbit inp1 i = sbit inp2 i) ->
  fst (read_code_bit inp1) = fst (read_code_bit inp2) /\
  forall i, sbit (snd (read_code_bit inp1)) i
            = sbit (snd (read_code_bit inp2)) i.
Proof.
  intros Hs.
  destruct (read_code_bit_sbit inp1) as (H1 & H1').
  destruct (read_code_bit_sbit inp2) as (H2 & H2').
  split; [now rewrite H1, H2|].
  intros i. now rewrite H1', H2'.
Qed.

Lemma same_stream_shift_body (d1 d2 : Decoder) :
  same_stream d1 d2 -> same_stream (shift_body d1) (shift_body d2).
Proof.
  intros (Hlo & Hhi & Hcode & Hs).
  destruct (same_stream_read _ _ Hs) as (Hb & Hrest).
  destruct d1 as [lo1 hi1 inp1 c1], d2 as [lo2 hi2 inp2 c2].
  cbn [dec_low dec_high code input] in *. subst lo2 hi2 c2.
  unfold same_stream, shift_body.
  cbn [shift set_low set_high low high Decoder_coder].
  unfold Decoder_shift. cbn [dec_low dec_high code input].
  destruct (read_code_bit inp1) as [b1 r1] eqn:E1.
  destruct (read_code_bit inp2) as [b2 r2] eqn:E2.
  cbn [fst snd dec_low dec_high code input] in *. subst b2.
  repeat split; auto.
Qed.

Lemma same_stream_underflow_body (d1 d2 : Decoder) :
  same_stream d1 d2 ->
  same_stream (underflow_body d1) (underflow_body d2).
Proof.
  intros (Hlo & Hhi & Hcode & Hs).
  destruct (same_stream_read _ _ Hs) as (Hb & Hrest).
  destruct d1 as [lo1 hi1 inp1 c1], d2 as [lo2 hi2 inp2 c2].
  cbn [dec_low dec_high code input] in *. subst lo2 hi2 c2.
  unfold same_stream, underflow_body.
  cbn [underflow set_low set_high low high Decoder_coder].
  unfold Decoder_underflow. cbn [dec_low dec_high code input].
  destruct (read_code_bit inp1) as [b1 r1] eqn:E1.
  destruct (read_code_bit inp2) as [b2 r2] eqn:E2.
  cbn [fst snd dec_low dec_high code input] in *. subst b2.
  repeat split; auto.
Qed.

Lemma same_stream_narrow (cum_freqs : list Z) (symbol : nat)
  (d1 d2 : Decoder) :
  same_stream d1 d2 ->
  same_result same_stream (narrow cum_freqs symbol d1)
    (narrow cum_freqs symbol d2).
Proof.
  intros (Hlo & Hhi & Hcode & Hs).
  destruct d1 as [lo1 hi1 inp1 c1], d2 as [lo2 hi2 inp2 c2].
  cbn [dec_low dec_high code input] in *. subst lo2 hi2 c2.
  unfold narrow.
  destruct (last_item cum_freqs) as [total|]; cbn [bind same_result];
    [|reflexivity].
  destruct (index cum_freqs symbol) as [symhigh|]; cbn [bind same_result];
    [|reflexivity].
  destruct (total =? 0); [reflexivity|].
  destruct (match symbol with O => Ok 0 | S p => index cum_freqs p end)
    as [symlow|]; cbn [bind same_result]; [|reflexivity].
  unfold same_stream.
  cbn [set_low set_high low high Decoder_coder dec_low dec_high code input].
  repeat split; auto.
Qed.

Lemma same_stream_update (fuel : nat) (cum_freqs : list Z) (symbol : nat)
  (d1 d2 : Decoder) :
  same_stream d1 d2 ->
  same_result same_stream (update fuel cum_freqs symbol d1)
    (update fuel cum_freqs symbol d2).
Proof.
  intros Hsame. unfold update.
  apply (same_result_bind same_stream);
    [now apply same_stream_narrow|].
  intros a1 a2 Ha.
  apply (same_result_bind same_stream).
  - apply while_loop_same; [|apply same_stream_shift_body|assumption].
    intros s1 s2 (Hlo & Hhi & _). unfold shift_cond.
    cbn [low high Decoder_coder]. now rewrite Hlo, Hhi.
  - intros b1 b2 Hb.
    apply while_loop_same; [|apply same_stream_underflow_body|assumption].
    intros s1 s2 (Hlo & Hhi & _). unfold underflow_cond.
    cbn [low high Decoder_coder]. now rewrite Hlo, Hhi.
Qed.

Lemma same_stream_decode_symbol (fuel : nat) (cum_freqs : list Z)
  (d1 d2 : Decoder) :
  same_stream d1 d2 ->
  same_result (fun r1 r2 => fst r1 = fst r2 /\ same_stream (snd r1) (snd r2))
    (decode_symbol fuel cum_freqs d1) (decode_symbol fuel cum_freqs d2).
Proof.
  intros Hsame. pose proof Hsame as (Hlo & Hhi & Hcode & _).
  unfold decode_symbol. rewrite Hlo, Hhi, Hcode.
  destruct (last_item cum_freqs) as [total|]; cbn [bind same_result];
    [|reflexivity].
  destruct (dec_high d2 - dec_low d2 + 1 =? 0); [reflexivity|].
  apply (same_result_bind same_stream);
    [now apply same_stream_update|].
  intros a1 a2 Ha. cbn. now split.
Qed.

Lemma same_stream_decode_symbols (fuel : nat) (tables : list (list Z)) :
  forall d1 d2, same_stream d1 d2 ->
    same_result (fun r1 r2 => fst r1 = fst r2)
      (decode_symbols fuel tables d1) (decode_symbols fuel tables d2).
Proof.
  induction tables as [|cum_freqs tables IH]; intros d1 d2 Hsame;
    cbn [decode_symbols]; [reflexivity|].
  apply (same_result_bind
           (fun r1 r2 => fst r1 = fst r2 /\ same_stream (snd r1) (snd r2)));
    [now apply same_stream_decode_symbol|].
  intros r1 r2 (Hsym & Hs).
  apply (same_result_bind (fun r1 r2 => fst r1 = fst r2)); [now apply IH|].
  intros r1' r2' Hrest. cbn. now rewrite Hsym, Hrest.
Qed.

Lemma sbit_trailing_zeros (bits : list Z) (k i : nat) :
  sbit (bits ++ repeat 0 k) i = sbit bits i.
Proof.
  unfold sbit. destruct (Nat.lt_ge_cases i (List.length bits)) as [Hi|Hi].
  - now rewrite app_nth1.
  - rewrite app_nth2, nth_repeat by assumption.
    now rewrite nth_overflow.
Qed.

Lemma Decoder_init_same (bits bits' : list Z) :
  (forall i, sbit bits' i = sbit bits i) ->
  same_stream (Decoder_init bits') (Decoder_init bits).
Proof.
  intros Hs. unfold Decoder_init.
  pose proof (read_code_window (Z.to_nat NUM_STATE_BITS) bits' 0 0 bits Hs)
    as (Hc' & Hr').
  pose proof (read_code_window (Z.to_nat NUM_STATE_BITS) bits 0 0 bits
                (fun _ => eq_refl)) as (Hc & Hr).
  destruct (read_code (Z.to_nat NUM_STATE_BITS) bits' 0) as [c' rest'].
  destruct (read_code (Z.to_nat NUM_STATE_BITS) bits 0) as [c rest].
  cbn [fst snd] in *. unfold same_stream.
  cbn [dec_low dec_high code input].
  repeat split; [congruence|]. intros i. now rewrite Hr', Hr.
Qed.

(** X3. Zeros at the end of the bit list never change what the decoder
    returns: with or without them the same symbols are decoded, or the
    same exception is raised, whatever the tables.  This is what lets
    [bits_to_base64] strip the zeros that end the stream and pad it with
    others. *)
Theorem decoder_ignores_trailing_zeros (fuel : nat)
  (tables : list (list Z)) (bits : list Z) (k : nat) :
  decoded_symbols fuel tables (bits ++ repeat 0 k)
  = decoded_symbols fuel tables bits.
Proof.
  unfold decoded_symbols.
  pose proof (same_stream_decode_symbols fuel tables _ _
                (Decoder_init_same bits (bits ++ repeat 0 k)
                   (sbit_trailing_zeros bits k))) as H.
  destruct (decode_symbols fuel tables (Decoder_init (bits ++ repeat 0 k)))
    as [r1|e1],
    (decode_symbols fuel tables (Decoder_init bits)) as [r2|e2];
    cbn in *; try contradiction; congruence.
Qed.

(** *** A stream of zeros *)

Lemma zero_reading_tracking (d : Decoder) : zero_reading d -> tracking d.
Proof.
  intros (Hlo & Hcode & Hs & Hnorm).
  destruct (normalized_gap _ _ Hnorm) as (Hle & _).
  change (low d) with (dec_low d) in Hle.
  change (high d) with (dec_high d) in Hle.
  split; [lia|]. intros i. left. apply Hs.
Qed.

Lemma zero_reading_shift_body (d : Decoder) :
  dec_low d = 0 /\ code d = 0 /\ (forall i, sbit (input d) i = 0) ->
  dec_low (shift_body d) = 0 /\ code (shift_body d) = 0 /\
  (forall i, sbit (input (shift_body d)) i = 0).
Proof.
  intros (Hlo & Hcode & Hs).
  destruct (read_code_bit_sbit (input d)) as (Hb & Hrest).
  split.
  { change (dec_low (shift_body d)) with (low (shift_body d)).
    rewrite (low_shift_body Decoder_laws).
    change (low d) with (dec_low d). now rewrite Hlo. }
  destruct d as [lo hi inp c]. cbn [dec_low dec_high code input] in *.
  subst lo c. unfold shift_body.
  cbn [shift set_low set_high low high Decoder_coder].
  unfold Decoder_shift. cbn [dec_low dec_high code input].
  destruct (read_code_bit inp) as [b rest] eqn:E.
  cbn [fst snd code input] in *.
  split.
  - rewrite Hb, Hs, Z.shiftl_0_l, Z.land_0_l. reflexivity.
  - intros i. now rewrite Hrest.
Qed.

Lemma zero_reading_decode_symbol (fuel : nat) (cum_freqs : list Z)
  (d : Decoder) :
  (64 <= fuel)%nat -> valid_cdf cum_freqs -> zero_reading d ->
  exists d', decode_symbol fuel cum_freqs d = Ok (O, d') /\
    zero_reading d'.
Proof.
  intros Hfuel Hcdf Hzero.
  pose proof Hzero as (Hlo & Hcode & Hs & Hnorm).
  destruct (decode_symbol_tracking fuel cum_freqs d Hfuel Hcdf Hnorm
              (zero_reading_tracking d Hzero))
    as (symbol & d' & Hrun & _ & Hnorm' & _).
  assert (Hlen : (0 < List.length cum_freqs)%nat).
  { destruct Hcdf as (Hne & _). destruct cum_freqs; [congruence|cbn; lia]. }
  destruct (valid_cdf_bounds cum_freqs O Hcdf Hlen) as (_ & Hpos & Htot).
  destruct (normalized_gap _ _ Hnorm) as (_ & Hgap).
  rewrite quarter_range_eq in Hgap.
  change (low d) with (dec_low d) in Hgap.
  change (high d) with (dec_high d) in Hgap.
  cbn [sym_low] in Hpos.
  assert (Hdec : decode_symbol fuel cum_freqs d
                 = (self <- update fuel cum_freqs 0 d ;; Ok (O, self))).
  { unfold decode_symbol.
    rewrite (last_item_valid _ Hcdf). cbn [bind].
    destruct (dec_high d - dec_low d + 1 =? 0) eqn:E;
      [apply Z.eqb_eq in E; lia|].
    rewrite Hcode, Hlo.
    replace (((0 - 0 + 1) * last cum_freqs 0 - 1) / (dec_high d - 0 + 1))
      with 0 by (symmetry; apply Z.div_small; lia).
    rewrite (searchsorted_right_spec cum_freqs O 0 Hcdf Hlen)
      by (cbn [sym_low]; lia).
    reflexivity. }
  rewrite Hdec in Hrun. rewrite Hdec. clear Hdec.
  destruct (update fuel cum_freqs 0 d) as [d1|] eqn:Hup;
    cbn [bind] in Hrun; [|discriminate].
  injection Hrun as _ <-. exists d1. split; [reflexivity|].
  unfold update in Hup.
  rewrite (narrow_eq Decoder_laws cum_freqs O d Hcdf Hlen) in Hup.
  cbn [bind] in Hup.
  destruct (while_loop fuel shift_cond shift_body _) as [d2|] eqn:H2;
    cbn [bind] in Hup; [|discriminate].
  apply (while_loop_inv
           (fun s : Decoder =>
              dec_low s = 0 /\ code s = 0 /\
              (forall i, sbit (input s) i = 0))
           shift_cond shift_body
           (fun s Hz _ => zero_reading_shift_body s Hz)) in H2.
  2:{ destruct d as [lo hi inp c]. cbn [dec_low dec_high code input] in *.
      cbn [set_low set_high low high Decoder_coder dec_low dec_high code
           input sym_low].
      repeat split; auto. subst lo. rewrite Z.mul_0_l. reflexivity. }
  destruct H2 as (Hz2 & _).
  apply (while_loop_inv
           (fun s : Decoder =>
              dec_low s = 0 /\ code s = 0 /\
              (forall i, sbit (input s) i = 0))
           underflow_cond underflow_body) in Hup; [|  |exact Hz2].
  - destruct Hup as ((Hlo1 & Hcode1 & Hs1) & _).
    split; [assumption|]. split; [assumption|].
    split; [assumption|exact Hnorm'].
  - intros s (Hlos & _) Hc. rewrite underflow_cond_spec in Hc.
    change (low s) with (dec_low s) in Hc. rewrite Hlos in Hc.
    discriminate.
Qed.

Lemma zero_reading_decode_symbols (fuel : nat) (tables : list (list Z)) :
  (64 <= fuel)%nat -> Forall valid_cdf tables ->
  forall d, zero_reading d ->
    exists d', decode_symbols fuel tables d
               = Ok (repeat O (List.length tables), d') /\
      zero_reading d'.
Proof.
  intros Hfuel Hvalid.
  induction Hvalid as [|cum_freqs tables Hcdf _ IH]; intros d Hzero.
  - exists d. now split.
  - destruct (zero_reading_decode_symbol fuel cum_freqs d Hfuel Hcdf Hzero)
      as (d1 & Hrun & Hzero1).
    destruct (IH d1 Hzero1) as (d' & Hrest & Hzero').
    exists d'. cbn [decode_symbols List.length repeat].
    rewrite Hrun. cbn [bind fst snd]. rewrite Hrest. now split.
Qed.

Lemma Decoder_init_zero_reading (k : nat) :
  zero_reading (Decoder_init (repeat 0 k)).
Proof.
  assert (Hz : forall i, sbit (repeat 0 k) i = 0)
    by (intros i; apply nth_repeat).
  destruct (Decoder_init_reads (repeat 0 k)) as ((Hcode & Hinp) & Hlo & Hhi).
  split; [assumption|]. split; [|split].
  - rewrite Hcode. unfold pending_code.
    rewrite Hz, (window_zeros _ 1 63) by (intros; apply Hz). reflexivity.
  - intros i. rewrite Hinp. apply Hz.
  - change (low (Decoder_init (repeat 0 k)))
      with (dec_low (Decoder_init (repeat 0 k))).
    change (high (Decoder_init (repeat 0 k)))
      with (dec_high (Decoder_init (repeat 0 k))).
    rewrite Hlo, Hhi. apply normalized_init.
Qed.


(** * Further properties of the packing *)

Lemma base64_to_bits_accepted (s : string) :
  forallb in_BASE64 (list_ascii_of_string s) = true ->
  exists bits, base64_to_bits s = Ok bits /\
    List.length bits = (6 * String.length s)%nat /\ Forall is_bit bits.
Proof.
  induction s as [|c s IH];
    cbn [list_ascii_of_string forallb base64_to_bits String.length].
  - intros _. exists []. repeat split. constructor.
  - intros Hall. apply andb_prop in Hall. destruct Hall as (Hc & Hs).
    unfold in_BASE64 in Hc.
    destruct (str_index c BASE64) as [v|]; [|discriminate].
    destruct (IH Hs) as (bits & -> & Hlen & Hbits). cbn [bind].
    exists (format_06b v ++ bits). split; [reflexivity|]. split.
    + rewrite length_app, format_06b_length, Hlen. lia.
    + apply Forall_app. split; [apply format_06b_bits|assumption].
Qed.

Lemma base64_to_bits_refused (s : string) :
  forallb in_BASE64 (list_ascii_of_string s) = false ->
  base64_to_bits s = Raise ValueError.
Proof.
  induction s as [|c s IH];
    cbn [list_ascii_of_string forallb base64_to_bits]; [discriminate|].
  intros Hall. unfold in_BASE64 in Hall.
  destruct (str_index c BASE64) as [v|]; [|reflexivity].
  cbn [andb] in Hall. now rewrite (IH Hall).
Qed.

Lemma base64_to_bits_in_BASE64 (s : string) (bits : list Z) :
  base64_to_bits s = Ok bits ->
  forallb in_BASE64 (list_ascii_of_string s) = true.
Proof.
  intros Hrun.
  destruct (forallb in_BASE64 (list_ascii_of_string s)) eqn:E;
    [reflexivity|].
  rewrite (base64_to_bits_refused s E) in Hrun. discriminate.
Qed.

(** X5. [base64_to_bits] returns exactly on the strings whose
    characters all pass the test [char in BASE64] that [main] makes
    before it calls [decompress]: it then gives six bits per character,
    and on any other string it raises the [ValueError] of
    [BASE64.index]. *)
Theorem base64_to_bits_domain (s : string) :
  (forallb in_BASE64 (list_ascii_of_string s) = true ->
   exists bits, base64_to_bits s = Ok bits /\
     List.length bits = (6 * String.length s)%nat /\ Forall is_bit bits) /\
  (forallb in_BASE64 (list_ascii_of_string s) = false ->
   base64_to_bits s = Raise ValueError).
Proof.
  split; [apply base64_to_bits_accepted|apply base64_to_bits_refused].
Qed.

Lemma base64_to_bits_domain_witness :
  (exists bits, base64_to_bits "Qg"%string = Ok bits /\
     List.length bits = 12%nat /\ Forall is_bit bits) /\
  base64_to_bits "Q=="%string = Raise ValueError.
Proof.
  split.
  - apply (base64_to_bits_domain "Qg"%string). reflexivity.
  - apply (base64_to_bits_domain "Q=="%string). reflexivity.
Defined.

(** X6. Zeros at the end of the bit list never change the string
    [bits_to_base64] returns, nor the exception it raises. *)
Theorem bits_to_base64_trailing_zeros (bits : list Z) (k : nat) :
  bits_to_base64 (bits ++ repeat 0 k) = bits_to_base64 bits.
Proof.
  destruct (trailing_zeros_split bits) as (core & j & -> & Hcore).
  rewrite <- app_assoc, <- repeat_app.
  unfold bits_to_base64.
  rewrite !pop_zeros_spec; try assumption; try reflexivity;
    rewrite length_app, repeat_length; lia.
Qed.
(** * Further properties of the predictive loops *)

(** The call of the logits processor at which the interrupt flag is
    first seen, among the first [n]. *)
Lemma first_interrupt (interrupted : nat -> bool) (n : nat) :
  exists cut, (cut <= n)%nat /\
    (forall j, (j < cut)%nat -> interrupted j = false) /\
    ((cut < n)%nat -> interrupted cut = true).
Proof.
  induction n as [|n (cut & Hle & Hbefore & Hat)].
  - exists O. split; [lia|]. split; intros; lia.
  - destruct (Nat.eq_dec cut n) as [->|Hne].
    + destruct (interrupted n) eqn:E.
      * exists n. split; [lia|]. split; [assumption|auto].
      * exists (S n). split; [lia|]. split; [|lia].
        intros j Hj. destruct (Nat.eq_dec j n) as [->|Hjn];
          [assumption|apply Hbefore; lia].
    + exists cut. split; [lia|]. split; [assumption|].
      intros _. apply Hat. lia.
Qed.

Lemma compress_tokens_packed (model : Llama) (fuel : nat)
  (interrupted : nat -> bool) (text_tokens : list nat)
  (window_overlap : nat) (st : CompressState) (compressed : string) :
  compress_tokens model fuel interrupted text_tokens window_overlap
  = Ok (st, compressed) ->
  bits_to_base64 (get_encoded (finish (encoder st))) = Ok compressed.
Proof.
  unfold compress_tokens. intros Hc.
  destruct (compress_loop model fuel interrupted window_overlap
              (text_tokens ++ [token_eos model]) fuel
              (mkCompressState 0 Encoder_init [])) as [st0|];
    cbn [bind] in Hc; [|discriminate].
  destruct (bits_to_base64 (get_encoded (finish (encoder st0))))
    as [c|] eqn:E; cbn [bind] in Hc; [|discriminate].
  injection Hc as <- <-. exact E.
Qed.

Lemma interactive_turn_ciphertext (line : string) (bits : list Z) :
  base64_to_bits line = Ok bits -> bits <> [] ->
  line <> EmptyString /\
  forallb in_BASE64 (list_ascii_of_string line) = true /\
  interactive_turn line = Decompress line.
Proof.
  intros Hbits Hne.
  assert (Hline : line <> EmptyString).
  { intros ->. cbn in Hbits. congruence. }
  pose proof (base64_to_bits_in_BASE64 line bits Hbits) as Hall.
  repeat split; try assumption.
  unfold interactive_turn. rewrite Hall.
  destruct (String.eqb_spec line EmptyString); [contradiction|reflexivity].
Qed.

Section AnyInterrupt.
Variable model : Llama.
Hypothesis contract : Llama_contract model.
Variable fuel : nat.
Hypothesis fuel_64 : (64 <= fuel)%nat.
Variable interrupted : nat -> bool.
Variable window_overlap : nat.
Hypothesis overlap_fits : (window_overlap < n_ctx model)%nat.
Variable uncompressed : string.
Hypothesis fuel_tokens :
  (List.length (tokenize model uncompressed) + 1 <= fuel)%nat.

(** Whatever the interrupt flag does, [compress] is the encoding of the
    tokens up to the call where the flag is first seen. *)
Lemma compress_cut :
  exists (cut : nat) (st : CompressState) (compressed : string)
    (pad : nat),
    (cut <= List.length (tokenize model uncompressed))%nat /\
    (forall j, (j < cut)%nat -> interrupted j = false) /\
    ((cut < List.length (tokenize model uncompressed))%nat ->
     interrupted cut = true) /\
    compress_tokens model fuel interrupted (tokenize model uncompressed)
      window_overlap = Ok (st, compressed) /\
    encoded_symbols st
    = firstn cut (tokenize model uncompressed) ++ [token_eos model] /\
    compress model fuel interrupted uncompressed window_overlap
    = Ok compressed /\
    encode_symbols fuel
      (coded_pairs model window_overlap
         (coded_tokens model (tokenize model uncompressed) cut)
         (S cut) 0 [token_bos model]) Encoder_init = Ok (encoder st) /\
    base64_to_bits compressed
    = Ok (encoded_data (encoder st) ++ 1 :: repeat 0 pad).
Proof.
  destruct (first_interrupt interrupted
              (List.length (tokenize model uncompressed)))
    as (cut & Hle & Hbefore & Hat).
  destruct (compress_tokens_coded model contract fuel fuel_64 interrupted
              window_overlap overlap_fits (tokenize model uncompressed)
              (tokenize_in_vocab model contract uncompressed)
              cut Hle Hbefore Hat ltac:(lia))
    as (st & compressed & pad & Hc & Hlog & Henc & Hbits).
  exists cut, st, compressed, pad.
  repeat split; try assumption.
  unfold compress. now rewrite Hc.
Qed.

End AnyInterrupt.






(** ** A text shorter than the context *)

Lemma coded_pairs_one_window (model : Llama) (overlap1 overlap2 : nat)
  (text_tokens : list nat) (cut : nat) :
  Forall (fun t => (t < n_vocab model)%nat /\ t <> token_eos model)
    text_tokens ->
  (cut <= List.length text_tokens)%nat ->
  (cut < n_ctx model)%nat ->
  forall n i context,
    List.length context = S i -> (i + n <= S cut)%nat ->
    coded_pairs model overlap1 (coded_tokens model text_tokens cut) n i
      context
    = coded_pairs model overlap2 (coded_tokens model text_tokens cut) n i
        context.
Proof.
  intros Hvalid Hcut Hctx.
  induction n as [|n IH]; intros i context Hlen Hn; [reflexivity|].
  cbn [coded_pairs]. f_equal.
  destruct n as [|n]; [reflexivity|].
  assert (Hi : (i < cut)%nat) by lia.
  rewrite (coded_tokens_nth_lt model text_tokens cut Hcut i Hi).
  destruct (text_token_valid model text_tokens Hvalid i ltac:(lia))
    as (_ & Hne).
  apply Nat.eqb_neq in Hne. rewrite Hne, Hlen.
  assert (Hfull : (S i =? n_ctx model)%nat = false)
    by (apply Nat.eqb_neq; lia).
  rewrite Hfull. cbn [orb].
  apply IH; [rewrite length_app; cbn [List.length]; lia|lia].
Qed.



(** ** Ciphertext without a stream *)

Lemma base64_to_bits_zeros (compressed : string) :
  (forall c, In c (list_ascii_of_string compressed) -> c = "A"%char) ->
  base64_to_bits compressed
  = Ok (repeat 0 (6 * String.length compressed)).
Proof.
  induction compressed as [|c s IH]; intros HA; [reflexivity|].
  cbn [base64_to_bits].
  rewrite (HA c) by (cbn [list_ascii_of_string]; now left).
  change (str_index "A"%char BASE64) with (Some O).
  rewrite IH by (intros c' Hc'; apply HA; cbn [list_ascii_of_string];
                 now right).
  cbn [bind String.length].
  change (format_06b 0) with (repeat 0 6).
  rewrite <- repeat_app. f_equal. f_equal. lia.
Qed.

Section ZeroStream.
Variable model : Llama.
Hypothesis contract : Llama_contract model.
Variable fuel : nat.
Hypothesis fuel_64 : (64 <= fuel)%nat.
Variable window_overlap : nat.
Hypothesis overlap_fits : (window_overlap < n_ctx model)%nat.
Hypothesis eos_not_0 : token_eos model <> O.

Lemma token_0_in_vocab : (0 < n_vocab model)%nat.
Proof.
  pose proof (cdf_valid model contract (eval model [])) as (Hne & _).
  rewrite <- (cdf_length model contract (eval model [])).
  destruct (compute_cdf model (eval model [])); [congruence|cbn; lia].
Qed.

Lemma decompress_generate_loop_zeros (room : nat) :
  forall (context : list nat) (st : DecompressState),
    zero_reading (decoder st) -> done st = false ->
    (List.length context + room)%nat = n_ctx model ->
    exists st',
      generate_loop model (decompress_process_logits model fuel)
        (decompress_should_stop model) room context st = Ok st' /\
      zero_reading (decoder st') /\ done st' = false.
Proof.
  induction room as [|room IH]; intros context st Hzero Hdone Hlen.
  all: cbn [generate_loop]; unfold decompress_process_logits.
  all: destruct (zero_reading_decode_symbol fuel
                   (compute_cdf model (eval model context)) (decoder st)
                   fuel_64 (cdf_valid model contract _) Hzero)
         as (d' & -> & Hzero').
  all: cbn [bind fst snd].
  all: assert (Hne : (0 =? token_eos model)%nat = false)
         by (apply Nat.eqb_neq; auto).
  all: rewrite Hne; cbn [bind fst snd]; unfold decompress_should_stop.
  all: rewrite (argmax_set_inf model contract 0 _ token_0_in_vocab), Hne.
  all: cbn [done orb]; rewrite Hdone; cbn [orb].
  - replace (List.length context) with (n_ctx model) by lia.
    rewrite Nat.eqb_refl. eexists. split; [reflexivity|].
    cbn [decoder done]. now split.
  - assert (Hfull : (List.length context =? n_ctx model)%nat = false)
      by (apply Nat.eqb_neq; lia).
    rewrite Hfull. apply IH.
    + exact Hzero'.
    + reflexivity.
    + rewrite length_app. cbn [List.length]. lia.
Qed.

Lemma decompress_window_zeros (st : DecompressState) :
  zero_reading (decoder st) -> done st = false ->
  exists st',
    decompress_window model fuel window_overlap st = Ok st' /\
    zero_reading (decoder st') /\ done st' = false.
Proof.
  intros Hzero Hdone. unfold decompress_window, generate.
  set (context := token_bos model :: _).
  assert (Hlen : (List.length context <= n_ctx model)%nat).
  { subst context. cbn [List.length]. rewrite length_skipn. lia. }
  destruct (n_ctx model <? List.length context)%nat eqn:E;
    [apply Nat.ltb_lt in E; lia|].
  apply decompress_generate_loop_zeros; try assumption. lia.
Qed.

Lemma decompress_loop_zeros (n : nat) :
  forall st, zero_reading (decoder st) -> done st = false ->
    decompress_loop model fuel window_overlap n st = Raise OutOfFuel.
Proof.
  induction n as [|n IH]; intros st Hzero Hdone; cbn [decompress_loop];
    rewrite Hdone; cbn [negb]; [reflexivity|].
  destruct (decompress_window_zeros st Hzero Hdone)
    as (st' & -> & Hzero' & Hdone').
  cbn [bind]. now apply IH.
Qed.

End ZeroStream.


(** * Further properties of the encoder and of [main] *)

(** X12. The bits of a finished stream are never revised: the bit list
    after the symbols of [pairs1] is a prefix of the bit list after
    those of [pairs1 ++ pairs2], and holds bits 0 and 1 only. *)
Theorem encoder_append_only (fuel : nat)
  (pairs1 pairs2 : list (list Z * nat)) :
  (64 <= fuel)%nat ->
  Forall valid_pair pairs1 -> Forall valid_pair pairs2 ->
  exists (e1 e2 : Encoder) (out : list Z),
    encode_symbols fuel pairs1 Encoder_init = Ok e1 /\
    encode_symbols fuel (pairs1 ++ pairs2) Encoder_init = Ok e2 /\
    get_encoded e2 = get_encoded e1 ++ out /\
    Forall is_bit (get_encoded e2).
Proof.
  intros Hfuel Hv1 Hv2.
  destruct (encode_symbols_sim fuel pairs1 Hfuel Hv1 Encoder_init
              normalized_init)
    as (e1 & out1 & Hrun1 & Hnorm1 & Hdata1 & Hbits1 & _).
  destruct (encode_symbols_sim fuel pairs2 Hfuel Hv2 e1 Hnorm1)
    as (e2 & out2 & Hrun2 & _ & Hdata2 & Hbits2 & _).
  exists e1, e2, out2.
  split; [assumption|]. split; [|split].
  - rewrite encode_symbols_app, Hrun1. exact Hrun2.
  - exact Hdata2.
  - unfold get_encoded. rewrite Hdata2, Hdata1.
    apply Forall_app. split; [|assumption].
    apply Forall_app. split; [constructor|assumption].
Qed.

Lemma encoder_append_only_witness :
  exists (e1 e2 : Encoder) (out : list Z),
    encode_symbols 64 [([3; 5; 8], 1%nat)] Encoder_init = Ok e1 /\
    encode_symbols 64 [([3; 5; 8], 1%nat); ([1; 2; 3; 4], 2%nat)]
      Encoder_init = Ok e2 /\
    get_encoded e2 = get_encoded e1 ++ out.
Proof.
  pose proof valid_pair_example as Hv.
  apply Forall_cons_iff in Hv. destruct Hv as (Hv1 & Hv2).
  destruct (encoder_append_only 64 [([3; 5; 8], 1%nat)]
              [([1; 2; 3; 4], 2%nat)] (le_n _)
              (Forall_cons _ Hv1 (Forall_nil _)) Hv2)
    as (e1 & e2 & out & H1 & H2 & H3 & _).
  exists e1, e2, out. repeat split; assumption.
Defined.

(** X13. For an overlap given as an integer [O], the range that the
    error message of [main] names is exact: the argument is accepted
    exactly when [-n_ctx <= O <= n_ctx - 1], and the overlap is then
    [O mod n_ctx], a negative count being taken from the context
    length. *)
Theorem integer_overlap_range (P : PyFloat) (n_ctx : Z) (s : string)
  (O : Z) :
  1 <= n_ctx ->
  endswith_percent s = false ->
  int_of_string P s = Some O ->
  (- n_ctx <= O <= n_ctx - 1 ->
   parse_overlap P s n_ctx = WindowOverlap (O mod n_ctx)) /\
  (~ (- n_ctx <= O <= n_ctx - 1) ->
   parse_overlap P s n_ctx = ParserError).
Proof.
  intros Hctx Hpercent Hint. unfold parse_overlap.
  rewrite Hpercent, Hint.
  destruct (O <? 0) eqn:Eneg;
    [apply Z.ltb_lt in Eneg|apply Z.ltb_ge in Eneg].
  - split; intros Hrange.
    + assert (E1 : (0 <=? O + n_ctx) = true) by (apply Z.leb_le; lia).
      assert (E2 : (O + n_ctx <? n_ctx) = true) by (apply Z.ltb_lt; lia).
      rewrite E1, E2. cbn [andb negb]. f_equal.
      apply (Z.mod_unique O n_ctx (-1)); lia.
    + destruct (0 <=? O + n_ctx) eqn:E1; [|reflexivity].
      apply Z.leb_le in E1. exfalso. apply Hrange. lia.
  - split; intros Hrange.
    + assert (E1 : (0 <=? O) = true) by (apply Z.leb_le; lia).
      assert (E2 : (O <? n_ctx) = true) by (apply Z.ltb_lt; lia).
      rewrite E1, E2. cbn [andb negb]. f_equal.
      symmetry. apply Z.mod_small. lia.
    + assert (E1 : (0 <=? O) = true) by (apply Z.leb_le; lia).
      rewrite E1. cbn [andb].
      destruct (O <? n_ctx) eqn:E2; [|reflexivity].
      apply Z.ltb_lt in E2. exfalso. apply Hrange. lia.
Qed.

Lemma integer_overlap_range_witness :
  parse_overlap rational_float "-3"%string 8 = WindowOverlap 5 /\
  parse_overlap rational_float "8"%string 8 = ParserError.
Proof.
  split.
  - apply (integer_overlap_range rational_float 8 "-3"%string (-3));
      [lia|reflexivity|reflexivity|lia].
  - apply (integer_overlap_range rational_float 8 "8"%string 8);
      [lia|reflexivity|reflexivity|lia].
Defined.
(** ** Ciphertext that [compress] did not write *)

Section AnyCiphertext.
Variable model : Llama.
Hypothesis contract : Llama_contract model.
Variable fuel : nat.
Hypothesis fuel_64 : (64 <= fuel)%nat.
Variable window_overlap : nat.
Hypothesis overlap_fits : (window_overlap < n_ctx model)%nat.

Lemma decompress_generate_loop_returns (room : nat) :
  forall (context : list nat) (st : DecompressState),
    normalized (low (decoder st)) (high (decoder st)) ->
    tracking (decoder st) ->
    (List.length context + room)%nat = n_ctx model ->
    exists st',
      generate_loop model (decompress_process_logits model fuel)
        (decompress_should_stop model) room context st = Ok st' /\
      normalized (low (decoder st')) (high (decoder st')) /\
      tracking (decoder st').
Proof.
  induction room as [|room IH]; intros context st Hnorm Htrack Hlen.
  all: cbn [generate_loop]; unfold decompress_process_logits.
  all: destruct (decode_symbol_tracking fuel
                   (compute_cdf model (eval model context)) (decoder st)
                   fuel_64 (cdf_valid model contract _) Hnorm Htrack)
         as (symbol & d' & -> & Hsym & Hnorm' & Htrack').
  all: rewrite (cdf_length model contract) in Hsym.
  all: cbn [bind fst snd].
  all: destruct (symbol =? token_eos model)%nat eqn:Eeos;
         cbn [bind fst snd]; unfold decompress_should_stop;
         rewrite (argmax_set_inf model contract symbol _ Hsym), Eeos;
         cbn [done orb decoder].
  - eexists. split; [reflexivity|]. cbn [decoder]. now split.
  - replace (List.length context) with (n_ctx model) by lia.
    rewrite Nat.eqb_refl, orb_true_r.
    eexists. split; [reflexivity|]. cbn [decoder]. now split.
  - eexists. split; [reflexivity|]. cbn [decoder]. now split.
  - destruct (done st || (List.length context =? n_ctx model)%nat)
      eqn:Estop.
    + eexists. split; [reflexivity|]. cbn [decoder]. now split.
    + apply IH.
      * exact Hnorm'.
      * exact Htrack'.
      * rewrite length_app. cbn [List.length].
        apply orb_false_elim in Estop. destruct Estop as (_ & Efull).
        apply Nat.eqb_neq in Efull. lia.
Qed.

Lemma decompress_window_returns (st : DecompressState) :
  normalized (low (decoder st)) (high (decoder st)) ->
  tracking (decoder st) ->
  exists st',
    decompress_window model fuel window_overlap st = Ok st' /\
    normalized (low (decoder st')) (high (decoder st')) /\
    tracking (decoder st').
Proof.
  intros Hnorm Htrack. unfold decompress_window, generate.
  set (context := token_bos model :: _).
  assert (Hlen : (List.length context <= n_ctx model)%nat).
  { subst context. cbn [List.length]. rewrite length_skipn. lia. }
  destruct (n_ctx model <? List.length context)%nat eqn:E;
    [apply Nat.ltb_lt in E; lia|].
  apply decompress_generate_loop_returns; try assumption. lia.
Qed.

Lemma decompress_loop_returns (n : nat) :
  forall st,
    normalized (low (decoder st)) (high (decoder st)) ->
    tracking (decoder st) ->
    decompress_loop model fuel window_overlap n st = Raise OutOfFuel \/
    exists st', decompress_loop model fuel window_overlap n st = Ok st' /\
      done st' = true.
Proof.
  induction n as [|n IH]; intros st Hnorm Htrack; cbn [decompress_loop];
    destruct (done st) eqn:Edone; cbn [negb]; eauto.
  destruct (decompress_window_returns st Hnorm Htrack)
    as (st' & -> & Hnorm' & Htrack').
  cbn [bind]. now apply IH.
Qed.

End AnyCiphertext.


(** ** What [decode_symbol] chooses *)

(** X15. [decode_symbol] returns the symbol whose share of the interval
    holds [code]: from a state between two calls with
    [low <= code <= high] and a table meeting the invariants, the symbol
    returned is an index of the table and [code] lies between
    [low + symlow * range // total] and
    [low + symhigh * range // total - 1], the bounds [update] then gives
    the interval; no other index has that property. *)
Theorem decode_symbol_choice (fuel : nat) (cum_freqs : list Z)
  (d : Decoder) :
  (64 <= fuel)%nat ->
  valid_cdf cum_freqs ->
  normalized (low d) (high d) ->
  tracking d ->
  let range := dec_high d - dec_low d + 1 in
  let total := last cum_freqs 0 in
  let share_low symbol :=
    dec_low d + sym_low cum_freqs symbol * range / total in
  let share_high symbol :=
    dec_low d + sym_high cum_freqs symbol * range / total - 1 in
  exists (symbol : nat) (d' : Decoder),
    decode_symbol fuel cum_freqs d = Ok (symbol, d') /\
    (symbol < List.length cum_freqs)%nat /\
    share_low symbol <= code d <= share_high symbol /\
    forall other : nat,
      (other < List.length cum_freqs)%nat ->
      share_low other <= code d <= share_high other ->
      other = symbol.
Proof.
  intros Hfuel Hcdf Hnorm Htrack range total share_low share_high.
  destruct (decode_symbol_tracking fuel cum_freqs d Hfuel Hcdf Hnorm Htrack)
    as (symbol & d' & Hrun & Hsym & _).
  exists symbol, d'. split; [exact Hrun|]. split; [exact Hsym|].
  destruct (normalized_gap _ _ Hnorm) as (_ & Hgap).
  rewrite quarter_range_eq in Hgap.
  change (low d) with (dec_low d) in Hgap.
  change (high d) with (dec_high d) in Hgap.
  destruct Htrack as (Hcode & _).
  assert (Hlen : (0 < List.length cum_freqs)%nat) by lia.
  destruct (valid_cdf_bounds cum_freqs O Hcdf Hlen) as (_ & Hpos & Htot).
  cbn [sym_low] in Hpos.
  assert (Htotal : 0 < total) by (subst total; lia).
  assert (Hrange : 0 < range) by (subst range; lia).
  set (value := ((code d - dec_low d + 1) * total - 1) / range).
  assert (Hsymbol : symbol = searchsorted_right cum_freqs value).
  { unfold decode_symbol in Hrun.
    rewrite (last_item_valid _ Hcdf) in Hrun. cbn [bind] in Hrun.
    destruct (dec_high d - dec_low d + 1 =? 0) eqn:E;
      [apply Z.eqb_eq in E; lia|].
    fold range total value in Hrun.
    destruct (update fuel cum_freqs (searchsorted_right cum_freqs value) d);
      cbn [bind] in Hrun; [|discriminate].
    now injection Hrun as <- _. }
  assert (Hvalue : sym_low cum_freqs symbol <= value
                   < sym_high cum_freqs symbol).
  { destruct Hcdf as (_ & Hinc & _).
    assert (Hv : 0 <= value < last cum_freqs 0).
    { subst value. split.
      - apply Z.div_pos; nia.
      - apply Z.div_lt_upper_bound; [lia|]. fold total. nia. }
    destruct (searchsorted_right_found 0 cum_freqs value Hinc Hv)
      as (_ & Hfound).
    rewrite <- Hsymbol in Hfound. exact Hfound. }
  split.
  - pose proof (decode_value_inv (sym_low cum_freqs symbol)
                  (sym_high cum_freqs symbol) total range
                  (code d - dec_low d) Htotal Hrange Hvalue) as Hinv.
    subst share_low share_high. cbn beta. lia.
  - intros other Hother Hshare. subst share_low share_high.
    cbn beta in Hshare.
    rewrite Hsymbol.
    symmetry. apply (searchsorted_right_spec cum_freqs other value Hcdf
                       Hother).
    apply (decode_value (sym_low cum_freqs other)
             (sym_high cum_freqs other) total range
             (code d - dec_low d) Htotal Hrange); lia.
Qed.

Lemma decode_symbol_choice_witness :
  exists (symbol : nat) (d' : Decoder),
    decode_symbol 64 [3; 5; 8] (Decoder_init [1; 0; 1]) = Ok (symbol, d') /\
    (symbol < 3)%nat.
Proof.
  destruct (Decoder_init_tracking [1; 0; 1]) as (Hnorm & Htrack).
  { apply Forall_cons; [right; reflexivity|].
    apply Forall_cons; [left; reflexivity|].
    apply Forall_cons; [right; reflexivity|]. constructor. }
  destruct (decode_symbol_choice 64 [3; 5; 8] (Decoder_init [1; 0; 1])
              (le_n _) valid_cdf_example Hnorm Htrack)
    as (symbol & d' & Hrun & Hsym & _).
  exists symbol, d'. split; assumption.
Defined.
